(** * node-wgpu: the conformance-suite shim (cts.js) and the capture helpers

  A shallow embedding of the JavaScript of the repository.

  Definitions:
  - [RowPadding]: [getRowPadding], the row-pitch computation of the
    capture example;
  - [Js]: JavaScript values;
  - [Capture]: [createCapture] and [copyToBuffer], as programs that call
    into the native binding;
  - [Heap]: objects, prototype chains, sets, promises and function
    objects, as cts.js uses them;
  - [Shim]: the arrow functions and the top-level statements of cts.js;
  - [ScopeSpec]: the error-scope stack as the specification describes it;
  - [Program]: what a program can do with the patched binding;
  - [Sample]: a concrete heap for examples;
  - [Logic]: the assertions used in the proofs;
  - [Script]: the top-level statements of the example, which call
    [createCapture] and [copyToBuffer];
  - [Checked]: [createCapture] with what the language does on a missing
    device, dimensions or usage object;
  - [Partial]: bindings that lack a class, for examples;
  - [Frame]: which properties a run assigns.

  Properties: [RowPaddingFacts], [CaptureFacts], and, for cts.js,
  [HeapFacts], [OpFacts], [SteadyFacts], [MainFacts], [ShimFacts] and
  [SealFacts]; then [PaddingFacts], [CaptureRunFacts], [LoadFacts],
  [ResolverFacts], [FrameFacts], [ScriptFacts] and [CheckedFacts].

  Numbers.  A number of the program is an integer that binary64
  represents, a [Z].  The steps of getRowPadding are exact on such
  numbers: a multiplication by 4, the remainder [a % b], which truncates
  towards zero and takes the sign of the dividend and is [Z.rem], a
  difference of numbers below 256, and a sum that is the next multiple of
  256; there [*], [+] and [-] are those of [Z].  The product
  padded * height of createCapture is not exact in general: it is the
  product of [Z] rounded to binary64, [Js.js_mul].  The range of binary64
  ends at 2 ^ 1024; what lies beyond is outside the model. *)

From Stdlib Require Import ZArith Lia.
From stdpp Require Import base gmap strings list.

Set Warnings "-clear-no-such-hyp".

(** ** getRowPadding *)

Module RowPadding.
Local Open Scope Z_scope.

(** The JavaScript [%] on integers. *)
Definition js_rem (a b : Z) : Z := Z.rem a b.

(** The object literal [{ unpadded, padded }] returned by the function. *)
Record RowPadding := { unpadded : Z; padded : Z }.

Definition bytesPerPixel : Z := 4.
Definition align : Z := 256.

Definition getRowPadding (width : Z) : RowPadding :=
  let unpaddedBytesPerRow := width * bytesPerPixel in
  let paddedBytesPerRowPadding :=
    js_rem (align - js_rem unpaddedBytesPerRow align) align in
  let paddedBytesPerRow := unpaddedBytesPerRow + paddedBytesPerRowPadding in
  {| unpadded := unpaddedBytesPerRow; padded := paddedBytesPerRow |}.

(** The row-size formula as the specification words it, with the
    mathematical (floored, non-negative) [mod]. *)
Definition spec_padded (unpadded : Z) : Z :=
  unpadded + ((256 - unpadded mod 256) mod 256).

(** The padding computation on a row size in bytes, as the body of
    [getRowPadding] performs it on [unpaddedBytesPerRow]. *)
Definition pad_row (bytes : Z) : Z :=
  bytes + js_rem (align - js_rem bytes align) align.

End RowPadding.


(** ** JavaScript values *)

Module Js.
Local Open Scope Z_scope.

(** Object references are heap locations. *)
Abbreviation loc := positive.

Inductive value :=
| VUndefined
| VNull
| VBool (b : bool)
| VNum (n : Z)
| VStr (s : string)
| VRef (l : loc).

#[global] Instance value_eq_dec : EqDecision value.
Proof. solve_decision. Defined.

(** [ToInt32] on an integer, and the bitwise or [a | b], which works on
    the 32-bit two's complement images of its operands. *)
Definition to_int32 (n : Z) : Z := (n + 2 ^ 31) mod 2 ^ 32 - 2 ^ 31.

Definition js_bitor (a b : Z) : Z :=
  to_int32 (Z.lor (to_int32 a) (to_int32 b)).

(** The binary64 number nearest to an integer: the integer itself when 53
    bits hold it, and otherwise the integer rounded to 53 significant
    bits, to the nearest such number and, half way between two, to the one
    whose last bit is 0.  With [e] the number of bits beyond 53, the
    numbers that binary64 has near [n] are the multiples of [2 ^ e]. *)
Definition to_double (n : Z) : Z :=
  let e := Z.log2 (Z.abs n) - 52 in
  if e <=? 0 then n
  else
    let ulp := 2 ^ e in
    let q := Z.abs n / ulp in
    let r := Z.abs n mod ulp in
    let half := ulp / 2 in
    let q' := if r <? half then q
              else if half <? r then q + 1
              else if Z.even q then q else q + 1 in
    Z.sgn n * (q' * ulp).

(** [a * b] on numbers: the exact product, rounded once. *)
Definition js_mul (a b : Z) : Z := to_double (a * b).

End Js.

(** ** createCapture and copyToBuffer

    Both functions call methods of objects of the native binding
    ([device.createBuffer], [device.createTexture],
    [encoder.copyTextureToBuffer]).  The binding is not JavaScript: a call
    into it is an event of the program, answered by a handler that stands
    for the binding.  A program is a tree of such events.

    The functions are given here on the arguments they are written for: a
    device, an encoder and usage objects that are objects.  The handler
    answers the attempt to call the method, also when the object has no
    such method.  What the language does when the device, the dimensions
    or a usage object are [undefined] or [null] is in [Checked], further
    down. *)

Module Capture.
Import Js RowPadding.
Local Open Scope Z_scope.

(** The [dimensions] object, [{ width, height }]. *)
Record Dimensions := { width : Z; height : Z }.

(** Descriptor passed to [device.createBuffer]. *)
Record BufferDescriptor := {
  buf_label : string;
  buf_size : Z;
  buf_usage : Z;
}.

(** Descriptor passed to [device.createTexture]. *)
Record TextureDescriptor := {
  tex_label : string;
  tex_size : Dimensions;
  tex_format : string;
  tex_usage : Z;
}.

(** First argument of [copyTextureToBuffer], [{ texture }]. *)
Record ImageCopyTexture := { texture : value }.

(** Second argument, [{ buffer, bytesPerRow, rowsPerImage }]. *)
Record ImageCopyBuffer := {
  buffer : value;
  bytesPerRow : Z;
  rowsPerImage : Z;
}.

(** The usage constants of the binding, [gpu.GPUBufferUsage] and
    [gpu.GPUTextureUsage]; their values are the binding's. *)
Record BufferUsage := { MAP_READ : Z; COPY_DST : Z }.
Record TextureUsage := { RENDER_ATTACHMENT : Z; COPY_SRC : Z }.

(** A call into the native binding, with the receiver first. *)
Inductive nativeCall :=
| createBuffer (device : value) (descriptor : BufferDescriptor)
| createTexture (device : value) (descriptor : TextureDescriptor)
| copyTextureToBuffer (encoder : value) (source : ImageCopyTexture)
    (destination : ImageCopyBuffer) (copySize : Dimensions).

(** Programs over native calls: return a value, or call the binding and
    go on with what it returned. *)
Inductive Prog (A : Type) :=
| Ret (a : A)
| Call (c : nativeCall) (k : value -> Prog A).
Arguments Ret {A} a.
Arguments Call {A} c k.

Fixpoint bind {A B} (p : Prog A) (f : A -> Prog B) : Prog B :=
  match p with
  | Ret a => f a
  | Call c k => Call c (fun v => bind (k v) f)
  end.

Definition call (c : nativeCall) : Prog value := Call c Ret.

Notation "'let*' x ':=' p 'in' q" := (bind p (fun x => q))
  (at level 10, x name, p at level 100, q at level 200).

(** How a run ends: with a value, or with the exception a native call
    threw. *)
Inductive outcome (A : Type) :=
| Returned (a : A)
| Threw (e : value).
Arguments Returned {A} a.
Arguments Threw {A} e.

(** Running a program against a binding.  The binding has a state of its
    own and answers each call with a value or an exception; the run
    records the calls in order. *)
Section Run.
Context {World : Type}.
Variable native : nativeCall -> World -> outcome value * World.

Fixpoint run {A} (p : Prog A) (w : World) : outcome A * list nativeCall * World :=
  match p with
  | Ret a => (Returned a, [], w)
  | Call c k =>
      match native c w with
      | (Returned v, w') =>
          let '(r, calls, w'') := run (k v) w' in (r, c :: calls, w'')
      | (Threw e, w') => (Threw e, [c], w')
      end
  end.

Definition calls_of {A} (p : Prog A) (w : World) : list nativeCall :=
  snd (fst (run p w)).

End Run.

(** The object literal [{ outputBuffer, texture }]. *)
Record CaptureResult := { outputBuffer : value; captured_texture : value }.

Section Source.
Variable GPUBufferUsage : BufferUsage.
Variable GPUTextureUsage : TextureUsage.

Definition createCapture (device : value) (dimensions : Dimensions)
  : Prog CaptureResult :=
  let padded := padded (getRowPadding (width dimensions)) in
  let* outputBuffer := call (createBuffer device {|
    buf_label := "Capture";
    buf_size := js_mul padded (height dimensions);
    buf_usage := js_bitor (MAP_READ GPUBufferUsage) (COPY_DST GPUBufferUsage);
  |}) in
  let* texture := call (createTexture device {|
    tex_label := "Capture";
    tex_size := dimensions;
    tex_format := "rgba8unorm-srgb";
    tex_usage := js_bitor (RENDER_ATTACHMENT GPUTextureUsage)
                          (COPY_SRC GPUTextureUsage);
  |}) in
  Ret {| outputBuffer := outputBuffer; captured_texture := texture |}.

End Source.

Definition copyToBuffer (encoder texture buffer : value)
  (dimensions : Dimensions) : Prog value :=
  let padded := padded (getRowPadding (width dimensions)) in
  let* _ := call (copyTextureToBuffer encoder
        {| texture := texture |}
        {| buffer := buffer; bytesPerRow := padded; rowsPerImage := 0 |}
        dimensions) in
  Ret VUndefined.

(** The [bytesPerRow] a call passes, when it is a copy. *)
Definition bytesPerRow_of (c : nativeCall) : option Z :=
  match c with
  | copyTextureToBuffer _ _ destination _ => Some (bytesPerRow destination)
  | _ => None
  end.

(** The size of the buffer a call creates, when it creates one. *)
Definition buffer_size_of (c : nativeCall) : option Z :=
  match c with
  | createBuffer _ descriptor => Some (buf_size descriptor)
  | _ => None
  end.

(** The two encode-time rules on the row pitch of a texture-to-buffer
    copy, as the specification gives them for [copyTextureToBuffer]. *)
Definition spec_row_pitch_valid (bytes_per_row copy_width : Z) : bool :=
  (bytes_per_row mod 256 =? 0) && (bytesPerPixel * copy_width <=? bytes_per_row).

End Capture.

(** ** The object heap

    What cts.js does is patch objects: it installs properties on the
    prototypes of the binding's classes, and the values it installs (a
    [Set], a [Promise], three arrow functions) are objects shared by every
    instance.  So the model has a heap of objects with own properties, a
    prototype link and an internal slot, and it keeps the set of
    references that running code has obtained, because a function object
    can only be called by code that holds a reference to it. *)

Module Heap.
Import Js.

(** What a [throw] carries: a value, or the [TypeError] the language
    itself raises. *)
Inductive thrown :=
| TypeError
| Thrown (v : value).

Inductive PromiseState :=
| Pending
| Fulfilled (v : value)
| Rejected (e : thrown).

(** The function objects of the program: the arrow functions and the
    class of cts.js, and the two resolving functions the language creates
    for each promise. *)
Inductive fn :=
| fn_create (gpu : value)
| fn_lost_executor
| fn_pushErrorScope
| fn_popErrorScope
| fn_GPUValidationError
| fn_resolve (promise : loc)
| fn_reject (promise : loc).

Inductive slot :=
| SPlain
| SSet (elements : list value)
| SPromise (st : PromiseState)
| SFunction (f : fn)
| SAdapter
| SDevice (usable : bool).

(** An object: its prototype link, its own properties (plain writable
    data properties) and its internal slot.  The intrinsic prototypes
    ([Object.prototype], [Function.prototype], [Set.prototype], ...) are
    not objects of the model: a link to one of them is [None], and the
    methods of [Set.prototype] are the operations [set_add] and [set_has]
    below. *)
Record object := {
  obj_proto : option loc;
  obj_props : gmap string value;
  obj_slot : slot;
}.

(** The heap, and the references that running code holds. *)
Record state := {
  heap : gmap loc object;
  known : gset loc;
}.

Inductive completion (A : Type) :=
| Returns (a : A)
| Throws (e : thrown)
| Stuck.
Arguments Returns {A} a.
Arguments Throws {A} e.
Arguments Stuck {A}.

(** Computations on the heap.  [Stuck] is not a behaviour of a program:
    it marks a reference that is not in the heap, a prototype chain that
    does not end, or code naming a reference it never obtained. *)
Definition M (A : Type) : Type := state -> completion A * state.

Definition ret {A} (a : A) : M A := fun st => (Returns a, st).

Definition bind {A B} (m : M A) (f : A -> M B) : M B := fun st =>
  match m st with
  | (Returns a, st') => f a st'
  | (Throws e, st') => (Throws e, st')
  | (Stuck, st') => (Stuck, st')
  end.

Notation "'let!' x ':=' m 'in' k" := (bind m (fun x => k))
  (at level 10, x name, m at level 100, k at level 200).

Definition throw {A} (e : thrown) : M A := fun st => (Throws e, st).

Definition with_known (st : state) (K : gset loc) : state :=
  {| heap := heap st; known := K |}.

Definition with_heap (st : state) (h : gmap loc object) : state :=
  {| heap := h; known := known st |}.

(** Code that evaluates an expression holds its value from then on. *)
Definition learn (v : value) : M unit := fun st =>
  match v with
  | VRef l => (Returns tt, with_known st ({[l]} ∪ known st))
  | _ => (Returns tt, st)
  end.

Definition holds_ref (st : state) (v : value) : bool :=
  match v with
  | VRef l => bool_decide (l ∈ known st)
  | _ => true
  end.

(** An object created for the language's own use: nobody holds it yet. *)
Definition alloc_internal (o : object) : M loc := fun st =>
  let l := fresh (dom (heap st)) in
  (Returns l, with_heap st (<[l:=o]> (heap st))).

(** An object created by an expression, whose value the code receives. *)
Definition alloc_ref (o : object) : M loc :=
  let! l := alloc_internal o in
  let! _ := learn (VRef l) in
  ret l.

Definition alloc (o : object) : M value :=
  let! l := alloc_ref o in
  ret (VRef l).

(** Property lookup along the prototype chain.  A chain without a cycle
    visits each object at most once, so the number of objects bounds it. *)
Fixpoint get_chain (fuel : nat) (h : gmap loc object) (l : loc) (k : string)
  : option value :=
  match fuel with
  | O => None
  | S n =>
      match h !! l with
      | None => None
      | Some o =>
          match obj_props o !! k with
          | Some v => Some v
          | None =>
              match obj_proto o with
              | Some p => get_chain n h p k
              | None => Some VUndefined
              end
          end
      end
  end.

(** [o.k]: a [TypeError] on [undefined] and [null]; the properties of the
    other primitives live on intrinsic prototypes, outside the model. *)
Definition lookup_prop (h : gmap loc object) (o : value) (k : string)
  : completion value :=
  match o with
  | VRef l =>
      match get_chain (size h) h l k with
      | Some v => Returns v
      | None => Stuck
      end
  | VUndefined | VNull => Throws TypeError
  | _ => Stuck
  end.

Definition get (o : value) (k : string) : M value := fun st =>
  match lookup_prop (heap st) o k with
  | Returns v => (Returns v, snd (learn v st))
  | Throws e => (Throws e, st)
  | Stuck => (Stuck, st)
  end.

Definition set_own (k : string) (v : value) (o : object) : object :=
  {| obj_proto := obj_proto o;
     obj_props := <[k:=v]> (obj_props o);
     obj_slot := obj_slot o |}.

(** [o.k = v] in strict mode: creates or overwrites the own property of an
    object, and is a [TypeError] on a primitive. *)
Definition set (o : value) (k : string) (v : value) : M unit := fun st =>
  match o with
  | VRef l =>
      match heap st !! l with
      | Some ob => (Returns tt, with_heap st (<[l:=set_own k v ob]> (heap st)))
      | None => (Stuck, st)
      end
  | _ => (Throws TypeError, st)
  end.

Definition set_slot (s : slot) (o : object) : object :=
  {| obj_proto := obj_proto o; obj_props := obj_props o; obj_slot := s |}.

Definition slot_of (h : gmap loc object) (l : loc) : option slot :=
  obj_slot <$> h !! l.

(** A resolving function settles its promise the first time one of the
    pair is called, and does nothing afterwards. *)
Definition settle (p : loc) (s : PromiseState) : M value := fun st =>
  match heap st !! p with
  | Some ob =>
      match obj_slot ob with
      | SPromise Pending =>
          (Returns VUndefined,
           with_heap st (<[p:=set_slot (SPromise s) ob]> (heap st)))
      | _ => (Returns VUndefined, st)
      end
  | None => (Stuck, st)
  end.

Definition new_object (proto : option loc) (s : slot) : object :=
  {| obj_proto := proto; obj_props := ∅; obj_slot := s |}.

(** [new Set()] *)
Definition new_Set : M value := alloc (new_object None (SSet [])).

(** [s.add(v)]: appends [v] unless the set has it; returns the set. *)
Definition set_add (s v : value) : M value := fun st =>
  match s with
  | VRef l =>
      match heap st !! l with
      | Some ob =>
          match obj_slot ob with
          | SSet els =>
              if bool_decide (v ∈ els) then (Returns s, st)
              else (Returns s,
                    with_heap st (<[l:=set_slot (SSet (els ++ [v])) ob]> (heap st)))
          | _ => (Throws TypeError, st)
          end
      | None => (Stuck, st)
      end
  | _ => (Throws TypeError, st)
  end.

(** [s.has(v)] *)
Definition set_has (s v : value) : M value := fun st =>
  match s with
  | VRef l =>
      match heap st !! l with
      | Some ob =>
          match obj_slot ob with
          | SSet els => (Returns (VBool (bool_decide (v ∈ els))), st)
          | _ => (Throws TypeError, st)
          end
      | None => (Stuck, st)
      end
  | _ => (Throws TypeError, st)
  end.

(** The state of a promise, as a reader sees it. *)
Definition promise_state (st : state) (p : value) : option PromiseState :=
  match p with
  | VRef l =>
      match slot_of (heap st) l with
      | Some (SPromise s) => Some s
      | _ => None
      end
  | _ => None
  end.

(** What [await v] gives: the value itself when [v] is not a promise, the
    settlement of the promise when it is settled, and nothing while it is
    pending. *)
Inductive awaited :=
| Resumes (v : value)
| Raises (e : thrown)
| Waits.

Definition await (st : state) (v : value) : awaited :=
  match promise_state st v with
  | Some Pending => Waits
  | Some (Fulfilled x) => Resumes x
  | Some (Rejected e) => Raises e
  | None => Resumes v
  end.

End Heap.

(** ** cts.js *)

Module Shim.
Import Js Heap.

(** [exports.create = (flags) => gpu]; [gpu] is the binding of the module
    that the arrow function closes over. *)
Definition create (gpu : value) (flags : value) : M value := ret gpu.

(** The executor of [new Promise(() => {})]: no parameters, empty body. *)
Definition lost_executor : M value := ret VUndefined.

(** [gpu.GPUDevice.prototype.pushErrorScope = () => {}] *)
Definition pushErrorScope : M value := ret VUndefined.

(** [gpu.GPUDevice.prototype.popErrorScope = () => {}] *)
Definition popErrorScope : M value := ret VUndefined.

Definition arg (n : nat) (args : list value) : value := nth n args VUndefined.

(** Calling a function object with a list of arguments.  An arrow function
    without parameters ignores the arguments it is given; a class cannot
    be called without [new]. *)
Definition call_fn (f : fn) (args : list value) : M value :=
  match f with
  | fn_create gpu => create gpu (arg 0 args)
  | fn_lost_executor => lost_executor
  | fn_pushErrorScope => pushErrorScope
  | fn_popErrorScope => popErrorScope
  | fn_GPUValidationError => throw TypeError
  | fn_resolve p => settle p (Fulfilled (arg 0 args))
  | fn_reject p => settle p (Rejected (Thrown (arg 0 args)))
  end.

Definition call (f : value) (args : list value) : M value := fun st =>
  match f with
  | VRef l =>
      match heap st !! l with
      | Some ob =>
          match obj_slot ob with
          | SFunction fo =>
              (let! r := call_fn fo args in
               let! _ := learn r in
               ret r) st
          | _ => (Throws TypeError, st)
          end
      | None => (Stuck, st)
      end
  | _ => (Throws TypeError, st)
  end.

(** [o.k(...args)] *)
Definition invoke (o : value) (k : string) (args : list value) : M value :=
  let! f := get o k in
  call f args.

(** A function expression evaluates to a new function object. *)
Definition closure (f : fn) : M value := alloc (new_object None (SFunction f)).

(** [new Promise(executor)]: the promise starts pending; the language
    makes its two resolving functions and hands them to the executor, and
    to nobody else; an executor that throws rejects the promise. *)
Definition new_Promise (executor : value) : M value :=
  let! p := alloc_ref (new_object None (SPromise Pending)) in
  let! resolve := alloc_internal (new_object None (SFunction (fn_resolve p))) in
  let! reject := alloc_internal (new_object None (SFunction (fn_reject p))) in
  fun st =>
    match call executor [VRef resolve; VRef reject] st with
    | (Returns _, st') => (Returns (VRef p), st')
    | (Throws e, st') =>
        (let! _ := settle p (Rejected e) in ret (VRef p)) st'
    | (Stuck, st') => (Stuck, st')
    end.

(** [class GPUValidationError extends Error {}]: a constructor with a
    fresh prototype object; [Error] and [Error.prototype] are intrinsic. *)
Definition class_GPUValidationError : M value :=
  let! ctor := closure fn_GPUValidationError in
  let! proto := alloc (new_object None SPlain) in
  let! _ := set proto "constructor" ctor in
  let! _ := set ctor "prototype" proto in
  ret ctor.

(** The free names of the module: the result of [require("./")], the
    module's [exports] and the global object. *)
Record env := {
  gpu : value;
  exports : value;
  globalThis : value;
}.

Section Main.
Variable e : env.

(** [exports.create = (flags) => gpu] *)
Definition stmt_create : M unit :=
  let! f := closure (fn_create (gpu e)) in
  set (exports e) "create" f.

(** [gpu.GPUAdapter.prototype.features = new Set()] *)
Definition stmt_features : M unit :=
  let! adapter := get (gpu e) "GPUAdapter" in
  let! proto := get adapter "prototype" in
  let! s := new_Set in
  set proto "features" s.

(** [gpu.GPUDevice.prototype.lost = new Promise(() => {})] *)
Definition stmt_lost : M unit :=
  let! device := get (gpu e) "GPUDevice" in
  let! proto := get device "prototype" in
  let! executor := closure fn_lost_executor in
  let! p := new_Promise executor in
  set proto "lost" p.

(** [gpu.GPUDevice.prototype.pushErrorScope = () => {}] *)
Definition stmt_pushErrorScope : M unit :=
  let! device := get (gpu e) "GPUDevice" in
  let! proto := get device "prototype" in
  let! f := closure fn_pushErrorScope in
  set proto "pushErrorScope" f.

(** [gpu.GPUDevice.prototype.popErrorScope = () => {}] *)
Definition stmt_popErrorScope : M unit :=
  let! device := get (gpu e) "GPUDevice" in
  let! proto := get device "prototype" in
  let! f := closure fn_popErrorScope in
  set proto "popErrorScope" f.

(** [globalThis.GPUBufferUsage = gpu.GPUBufferUsage] *)
Definition stmt_GPUBufferUsage : M unit :=
  let! usage := get (gpu e) "GPUBufferUsage" in
  set (globalThis e) "GPUBufferUsage" usage.

(** [globalThis.GPUValidationError = class GPUValidationError extends Error {}] *)
Definition stmt_GPUValidationError : M unit :=
  let! c := class_GPUValidationError in
  set (globalThis e) "GPUValidationError" c.

(** The statements of the module, in order. *)
Definition cts_main : M unit :=
  let! _ := stmt_create in
  let! _ := stmt_features in
  let! _ := stmt_lost in
  let! _ := stmt_pushErrorScope in
  let! _ := stmt_popErrorScope in
  let! _ := stmt_GPUBufferUsage in
  stmt_GPUValidationError.

End Main.

End Shim.

(** ** The error-scope stack of the specification

    Section 4.4 of the specification, put into definitions word for word:
    a stack of capturing scopes, most recent first; an error goes to the
    innermost scope whose filter matches, which keeps the first one; a pop
    takes the most recent scope and resolves with what it captured; a pop
    on the empty stack is a usage error.  cts.js is compared with it. *)

Module ScopeSpec.

Inductive GPUErrorFilter := validation | out_of_memory | internal.

#[global] Instance GPUErrorFilter_eq_dec : EqDecision GPUErrorFilter.
Proof. solve_decision. Defined.

Record GPUError := { error_filter : GPUErrorFilter; message : string }.

Record scope := { scope_filter : GPUErrorFilter; captured : option GPUError }.

Definition spec_pushErrorScope (f : GPUErrorFilter) (stack : list scope)
  : list scope :=
  {| scope_filter := f; captured := None |} :: stack.

Fixpoint spec_raise (err : GPUError) (stack : list scope) : list scope :=
  match stack with
  | [] => []
  | s :: rest =>
      if bool_decide (scope_filter s = error_filter err) then
        match captured s with
        | Some _ => s :: rest
        | None => {| scope_filter := scope_filter s; captured := Some err |} :: rest
        end
      else s :: spec_raise err rest
  end.

Inductive pop_result :=
| UsageError
| Resolves (error : option GPUError).

Definition spec_popErrorScope (stack : list scope) : pop_result * list scope :=
  match stack with
  | [] => (UsageError, [])
  | s :: rest => (Resolves (captured s), rest)
  end.

End ScopeSpec.

(** ** Programs that use the patched binding *)

Module Program.
Import Js Heap Shim.

(** The prototype link of a new instance: the [prototype] of its class
    when that is an object, an intrinsic prototype otherwise. *)
Definition proto_link (v : value) : option loc :=
  match v with
  | VRef p => Some p
  | _ => None
  end.

Section WithEnv.
Variable e : env.

(** Modelled from the spec: [requestAdapter] is native code of the binding,
    absent from the sources.  It resolves to an Adapter: a new object of
    the class [gpu.GPUAdapter], with no own properties. *)
Definition requestAdapter : M value :=
  let! ctor := get (gpu e) "GPUAdapter" in
  let! proto := get ctor "prototype" in
  alloc (new_object (proto_link proto) SAdapter).

(** Modelled from the spec: [requestDevice] is native code of the binding,
    absent from the sources.  On an Adapter it returns a Device: a new,
    usable object of the class [gpu.GPUDevice], with no own properties. *)
Definition requestDevice (adapter : value) : M value := fun st =>
  match adapter with
  | VRef a =>
      match slot_of (heap st) a with
      | Some SAdapter =>
          (let! ctor := get (gpu e) "GPUDevice" in
           let! proto := get ctor "prototype" in
           alloc (new_object (proto_link proto) (SDevice true))) st
      | Some _ => (Throws TypeError, st)
      | None => (Stuck, st)
      end
  | _ => (Throws TypeError, st)
  end.

(** Modelled from the spec: a device becomes unusable through explicit
    destruction or an unrecoverable backend fault, both native.  Neither
    is given anything of the promise that cts.js made. *)
Definition lose (device : value) : M value := fun st =>
  match device with
  | VRef d =>
      match heap st !! d with
      | Some ob =>
          match obj_slot ob with
          | SDevice _ =>
              (Returns VUndefined,
               with_heap st (<[d:=set_slot (SDevice false) ob]> (heap st)))
          | _ => (Throws TypeError, st)
          end
      | None => (Stuck, st)
      end
  | _ => (Throws TypeError, st)
  end.

(** [new Promise((resolve, reject) => { ... })] with an executor that
    keeps both resolving functions: the program holds all three objects. *)
Definition new_Promise_keeping : M value :=
  let! p := alloc_ref (new_object None (SPromise Pending)) in
  let! _ := alloc (new_object None (SFunction (fn_resolve p))) in
  let! _ := alloc (new_object None (SFunction (fn_reject p))) in
  ret (VRef p).

(** What a program can do next.  The values an action names are values
    the program has obtained before. *)
Inductive action :=
| AGet (o : value) (k : string)                    (* o.k *)
| ASet (o : value) (k : string) (v : value)        (* o.k = v *)
| ACall (f : value) (args : list value)            (* f(...args) *)
| AInvoke (o : value) (k : string) (args : list value) (* o.k(...args) *)
| ASetAdd (s v : value)                            (* s.add(v) *)
| ASetHas (s v : value)                            (* s.has(v) *)
| ANewObject                                       (* {} *)
| ANewSet                                          (* new Set() *)
| ANewPromise                     (* new Promise, keeping resolve and reject *)
| ARequestAdapter                                  (* gpu.requestAdapter() *)
| ARequestDevice (adapter : value)                 (* adapter.requestDevice() *)
| ADestroy (device : value)                        (* device.destroy() *)
| ABackendFault (device : value).       (* the backend loses the device *)

(** The values that the text of an action names. *)
Definition named (a : action) : list value :=
  match a with
  | AGet o _ => [o]
  | ASet o _ v => [o; v]
  | ACall f args => f :: args
  | AInvoke o _ args => o :: args
  | ASetAdd s v => [s; v]
  | ASetHas s v => [s; v]
  | ARequestDevice a => [a]
  | ADestroy d => [d]
  | ANewObject | ANewSet | ANewPromise | ARequestAdapter | ABackendFault _ => []
  end.

Definition perform_named (a : action) : M value :=
  match a with
  | AGet o k => get o k
  | ASet o k v => let! _ := set o k v in ret v
  | ACall f args => call f args
  | AInvoke o k args => invoke o k args
  | ASetAdd s v => set_add s v
  | ASetHas s v => set_has s v
  | ANewObject => alloc (new_object None SPlain)
  | ANewSet => new_Set
  | ANewPromise => new_Promise_keeping
  | ARequestAdapter => requestAdapter
  | ARequestDevice a => requestDevice a
  | ADestroy d => lose d
  | ABackendFault d => lose d
  end.

(** An action runs when the code holds every value it names. *)
Definition perform (a : action) : M value := fun st =>
  if forallb (holds_ref st) (named a) then perform_named a st
  else (Stuck, st).

(** A run of actions; an exception is caught and the run goes on. *)
Fixpoint steps (acts : list action) (st : state) : option state :=
  match acts with
  | [] => Some st
  | a :: rest =>
      match perform a st with
      | (Stuck, _) => None
      | (_, st') => steps rest st'
      end
  end.

End WithEnv.

(** What a reader of [adapter.features] sees: the elements of the set. *)
Definition observed_features (st : state) (adapter : value)
  : option (list value) :=
  match lookup_prop (heap st) adapter "features" with
  | Returns (VRef s) =>
      match slot_of (heap st) s with
      | Some (SSet els) => Some els
      | _ => None
      end
  | _ => None
  end.

(** [adapter.features.add(tag)] *)
Definition features_add (adapter tag : value) : M value :=
  let! s := get adapter "features" in
  set_add s tag.

(** What a reader of [device.lost] finds the promise to be. *)
Definition lost_state (st : state) (device : value) : option PromiseState :=
  match lookup_prop (heap st) device "lost" with
  | Returns p => promise_state st p
  | _ => None
  end.

Definition usable (st : state) (device : value) : option bool :=
  match device with
  | VRef d =>
      match slot_of (heap st) d with
      | Some (SDevice u) => Some u
      | _ => None
      end
  | _ => None
  end.

(** An instance of a class that has none of the names as own property. *)
Definition instance_of (st : state) (proto : loc) (names : list string)
  (o : value) : bool :=
  match o with
  | VRef l =>
      match heap st !! l with
      | Some ob =>
          bool_decide (obj_proto ob = Some proto) &&
          forallb (fun k => bool_decide (obj_props ob !! k = None)) names
      | None => false
      end
  | _ => false
  end.

(** The outcome of [popErrorScope()] in the code against the result the
    specification gives: a usage error is an exception of the call, no
    error is a result that carries none, an error is an error object. *)
Definition no_error (v : value) : bool :=
  match v with
  | VUndefined | VNull => true
  | _ => false
  end.

Definition pop_agrees (code : completion value) (spec : ScopeSpec.pop_result)
  : bool :=
  match spec, code with
  | ScopeSpec.UsageError, Throws _ => true
  | ScopeSpec.Resolves None, Returns v => no_error v
  | ScopeSpec.Resolves (Some _), Returns (VRef _) => true
  | _, _ => false
  end.

End Program.

(** ** A concrete binding, for examples

    A heap with the module object of the binding (location 1), its two
    classes and their prototypes (2 to 5), the [exports] object of cts.js
    (6), the global object (7) and the usage constants (8). *)

Module Sample.
Import Js Heap Shim Program.

Definition obj (proto : option loc) (props : list (string * value)) (s : slot)
  : object :=
  {| obj_proto := proto; obj_props := list_to_map props; obj_slot := s |}.

Definition heap0 : gmap loc object :=
  list_to_map [
    (1%positive, obj None [("GPUAdapter", VRef 2); ("GPUDevice", VRef 4);
                           ("GPUBufferUsage", VRef 8)] SPlain);
    (2%positive, obj None [("prototype", VRef 3)] SPlain);
    (3%positive, obj None [] SPlain);
    (4%positive, obj None [("prototype", VRef 5)] SPlain);
    (5%positive, obj None [] SPlain);
    (6%positive, obj None [] SPlain);
    (7%positive, obj None [] SPlain);
    (8%positive, obj None [("MAP_READ", VNum 1); ("COPY_DST", VNum 8)] SPlain)].

Definition state0 : state := {| heap := heap0; known := dom heap0 |}.

Definition env0 : env :=
  {| gpu := VRef 1; exports := VRef 6; globalThis := VRef 7 |}.

(** After cts.js has run. *)
Definition loaded : state := snd (cts_main env0 state0).

(** A program that requests two adapters (they get the locations 19 and
    20) and a device from the first (21), and the state after it. *)
Definition program : list action :=
  [ARequestAdapter; ARequestAdapter; ARequestDevice (VRef 19)].

Definition running : state := default loaded (steps env0 program loaded).

(** The same program destroying the device in the end. *)
Definition destroying : list action := program ++ [ADestroy (VRef 21)].

Definition destroyed : state :=
  default loaded (steps env0 destroying loaded).

End Sample.

(** ** Assertions on states *)

Module Logic.
Import Js Heap Shim Program.

(** The running code holds the value: a primitive, or a reference it has
    obtained. *)
Definition knows (st : state) (v : value) : Prop := holds_ref st v = true.

(** The values an object stores in its internal slot, the promise of a
    resolving function included. *)
Definition slot_values (s : slot) : list value :=
  match s with
  | SSet els => els
  | SPromise (Fulfilled v) => [v]
  | SPromise (Rejected (Thrown v)) => [v]
  | SFunction (fn_create g) => [g]
  | SFunction (fn_resolve q) => [VRef q]
  | SFunction (fn_reject q) => [VRef q]
  | _ => []
  end.

(** The values that can be read out of an object. *)
Definition holds (o : object) (v : value) : Prop :=
  (exists k, obj_props o !! k = Some v) \/ v ∈ slot_values (obj_slot o).

Definition resolver_of (q : loc) (s : slot) : Prop :=
  s = SFunction (fn_resolve q) \/ s = SFunction (fn_reject q).

(** Well-formed states with a set [S] of sealed objects and a set [T] of
    promises that only sealed objects can settle.  References held by the
    code or stored in objects point into the heap; a sealed object is held
    by nobody and stored nowhere; each promise of [T] is pending and all
    its resolving functions are sealed. *)
Record Inv (S T : gset loc) (st : state) : Prop := {
  inv_known : known st ⊆ dom (heap st);
  inv_closed : forall l o r,
    heap st !! l = Some o -> holds o (VRef r) -> r ∈ dom (heap st);
  inv_sealed : S ⊆ dom (heap st);
  inv_unknown : forall r, r ∈ S -> r ∉ known st;
  inv_unheld : forall l o r,
    heap st !! l = Some o -> holds o (VRef r) -> r ∉ S;
  inv_pending : forall q,
    q ∈ T -> slot_of (heap st) q = Some (SPromise Pending);
  inv_resolvers : forall l o q,
    heap st !! l = Some o -> q ∈ T -> resolver_of q (obj_slot o) -> l ∈ S;
}.

(** A value that may be stored or learnt without breaking a seal. *)
Definition safe (S : gset loc) (st : state) (v : value) : Prop :=
  forall r, v = VRef r -> r ∈ dom (heap st) /\ r ∉ S.

(** Slots that differ at most in the contents of a set, the state of a
    promise or the usability of a device. *)
Definition same_kind (s s' : slot) : Prop :=
  match s, s' with
  | SSet _, SSet _ => True
  | SPromise _, SPromise _ => True
  | SDevice _, SDevice _ => True
  | _, _ => s = s'
  end.

(** [st] comes after [st0]: the code holds what it held, the objects of
    [st0] are still there with their prototype links, their slots are
    related by [R], and their own properties are the same except for the
    names in [W]. *)
Definition stable (R : slot -> slot -> Prop) (W : list string)
  (st0 st : state) : Prop :=
  known st0 ⊆ known st /\
  forall l o, heap st0 !! l = Some o ->
    exists o', heap st !! l = Some o' /\
      obj_proto o' = obj_proto o /\
      R (obj_slot o) (obj_slot o') /\
      forall k, k ∉ W -> obj_props o' !! k = obj_props o !! k.

(** Triples: from a state in [P], a run that returns [a] ends in [Q a],
    and a run that ends otherwise ends in [X]. *)
Definition hoare {A} (P : state -> Prop) (m : M A)
  (Q : A -> state -> Prop) (X : state -> Prop) : Prop :=
  forall st, P st ->
    match m st with
    | (Returns a, st') => Q a st'
    | (_, st') => X st'
    end.

(** The reference in a value, as a set. *)
Definition refs (v : value) : gset loc :=
  match v with
  | VRef l => {[l]}
  | _ => ∅
  end.

(** What every operation keeps, from a starting state [s0]: the state is
    well-formed, it comes after [s0], and the code holds at least [K]. *)
Record keeps (R : slot -> slot -> Prop) (W : list string) (S T : gset loc)
  (s0 : state) (K : gset loc) (st : state) : Prop := {
  keeps_inv : Inv S T st;
  keeps_stable : stable R W s0 st;
  keeps_known : K ⊆ known st;
}.

(** A computation whose every run ends in a state that comes after the
    one it started from. *)
Definition steady (R : slot -> slot -> Prop) (W : list string) {A} (m : M A)
  : Prop :=
  forall st, stable R W st (snd (m st)).

(** The names cts.js assigns on objects that exist before it runs. *)
Definition main_writes : list string :=
  ["create"; "features"; "lost"; "pushErrorScope"; "popErrorScope";
   "GPUBufferUsage"; "GPUValidationError"].

Definition owns (st : state) (l : loc) (k : string) (v : value) : Prop :=
  exists o, heap st !! l = Some o /\ obj_props o !! k = Some v.

Definition has_slot (st : state) (l : loc) (s : slot) : Prop :=
  slot_of (heap st) l = Some s.

(** [v.cls.prototype], when it is an object. *)
Definition class_prototype (st : state) (v : value) (cls : string)
  : option loc :=
  match lookup_prop (heap st) v cls with
  | Returns c =>
      match lookup_prop (heap st) c "prototype" with
      | Returns (VRef p) => Some p
      | _ => None
      end
  | _ => None
  end.

(** The own-property names that an action assigns. *)
Definition writes (a : action) : list string :=
  match a with
  | ASet _ k _ => [k]
  | _ => []
  end.

Definition written (acts : list action) : list string :=
  flat_map writes acts.

(** The program assigns none of the names. *)
Definition untouched (names : list string) (acts : list action) : bool :=
  forallb (fun k => negb (bool_decide (k ∈ names))) (written acts).

(** A starting state is well-formed when every reference held by the code
    or stored in an object points into the heap, and the code holds the
    module object of the binding. *)
Definition value_in (D : gset loc) (v : value) : bool :=
  match v with
  | VRef l => bool_decide (l ∈ D)
  | _ => true
  end.

Definition object_closed (D : gset loc) (o : object) : bool :=
  bool_decide (map_Forall (fun _ v => value_in D v = true) (obj_props o)) &&
  forallb (value_in D) (slot_values (obj_slot o)).

Definition well_formed (e : env) (st : state) : bool :=
  bool_decide (known st ⊆ dom (heap st)) &&
  bool_decide
    (map_Forall (fun _ o => object_closed (dom (heap st)) o = true) (heap st)) &&
  holds_ref st (gpu e).

(** What cts.js leaves behind. *)
Record installed (e : env) (st : state) (ap dp s p : loc) : Prop := {
  inst_adapter_class : class_prototype st (gpu e) "GPUAdapter" = Some ap;
  inst_device_class : class_prototype st (gpu e) "GPUDevice" = Some dp;
  inst_features : owns st ap "features" (VRef s);
  inst_features_empty : has_slot st s (SSet []);
  inst_lost : owns st dp "lost" (VRef p);
  inst_lost_pending : has_slot st p (SPromise Pending);
  inst_push : exists f, owns st dp "pushErrorScope" (VRef f) /\
    has_slot st f (SFunction fn_pushErrorScope);
  inst_pop : exists f, owns st dp "popErrorScope" (VRef f) /\
    has_slot st f (SFunction fn_popErrorScope);
  inst_create : exists x f, exports e = VRef x /\
    owns st x "create" (VRef f) /\
    has_slot st f (SFunction (fn_create (gpu e)));
}.

End Logic.

(** ** The example program

    The top-level statements of the example, which call [createCapture] and
    [copyToBuffer].  Every method of an object of the binding, and the
    [queue] property of a device, is answered by the binding; the answer to
    [requestAdapter] and to [requestDevice] is what [await] hands back.  What
    the language does itself is modelled here: reading a member of
    [undefined] or [null] is a [TypeError], and [adapter?.requestDevice()]
    is [undefined] without a call when there is no adapter. *)

Module Script.
Import Js RowPadding Capture.
Local Open Scope Z_scope.

Record ShaderModuleDescriptor := { code : string }.

Record PipelineLayoutDescriptor := { bindGroupLayouts : list value }.

Record VertexState := { vertex_module : value; vertex_entryPoint : string }.

Record ColorTargetState := { format : string }.

Record FragmentState := {
  fragment_module : value;
  fragment_entryPoint : string;
  targets : list ColorTargetState;
}.

Record RenderPipelineDescriptor := {
  layout : value;
  vertex : VertexState;
  fragment : FragmentState;
}.

Record ColorAttachment := {
  view : value;
  storeOp : string;
  loadValue : list Z;
}.

Record RenderPassDescriptor := { colorAttachments : list ColorAttachment }.

(** What the program asks of the binding, with the receiver first; the
    three calls of [createCapture] and [copyToBuffer] are among them.
    [end_] is the method [end] of a render pass, and [queue] the property
    of that name of a device. *)
Inductive bindingCall :=
| requestAdapter (gpu : value)
| requestDevice (adapter : value)
| createShaderModule (device : value) (descriptor : ShaderModuleDescriptor)
| createPipelineLayout (device : value) (descriptor : PipelineLayoutDescriptor)
| createRenderPipeline (device : value) (descriptor : RenderPipelineDescriptor)
| capture (c : nativeCall)
| createCommandEncoder (device : value)
| createView (texture : value)
| beginRenderPass (encoder : value) (descriptor : RenderPassDescriptor)
| setPipeline (renderPass pipeline : value)
| draw (renderPass : value) (vertexCount instanceCount : Z)
| end_ (renderPass : value)
| queue (device : value)
| finish (encoder : value)
| submit (queue : value) (commandBuffers : list value).

(** Programs: return, raise an exception of the language, or ask the
    binding and go on with its answer. *)
Inductive Script (A : Type) :=
| Return (a : A)
| Raise (e : Heap.thrown)
| Do (c : bindingCall) (k : value -> Script A).
Arguments Return {A} a.
Arguments Raise {A} e.
Arguments Do {A} c k.

Fixpoint bind {A B} (p : Script A) (f : A -> Script B) : Script B :=
  match p with
  | Return a => f a
  | Raise e => Raise e
  | Do c k => Do c (fun v => bind (k v) f)
  end.

Notation "'let+' x ':=' p 'in' q" := (bind p (fun x => q))
  (at level 10, x name, p at level 100, q at level 200).

Definition ask (c : bindingCall) : Script value := Do c Return.

(** A function of the example, [createCapture] or [copyToBuffer], run as
    part of the program: its calls are calls of the program. *)
Fixpoint lift {A} (p : Prog A) : Script A :=
  match p with
  | Ret a => Return a
  | Call c k => Do (capture c) (fun v => lift (k v))
  end.

Definition nullish (v : value) : bool :=
  match v with
  | VUndefined | VNull => true
  | _ => false
  end.

(** [o.m]: the member of [undefined] or [null] cannot be read. *)
Definition member (o : value) : Script unit :=
  if nullish o then Raise Heap.TypeError else Return tt.

(** [o?.m(...)], with the arguments already evaluated. *)
Definition optional (o : value) (c : bindingCall) : Script value :=
  if nullish o then Return VUndefined else ask c.

Definition dimensions : Dimensions := {| width := 200; height := 200 |}.

Definition shaderCode : string := "
    [[stage(vertex)]]
    fn vs_main([[builtin(vertex_index)]] in_vertex_index: u32) -> [[builtin(position)]] vec4<f32> {
        let x = f32(i32(in_vertex_index) - 1);
        let y = f32(i32(in_vertex_index & 1u) * 2 - 1);
        return vec4<f32>(x, y, 0.0, 1.0);
    }

    [[stage(fragment)]]
    fn fs_main() -> [[location(0)]] vec4<f32> {
        return vec4<f32>(1.0, 0.0, 0.0, 1.0);
    }
".

Section Main.
Variable gpu : value.
Variable GPUBufferUsage : BufferUsage.
Variable GPUTextureUsage : TextureUsage.

(** The statements in order.  The three calls that [createCapture] and
    [copyToBuffer] make have [device] and [encoder] as receivers, which the
    statements before them have already read a member of. *)
Definition main : Script unit :=
  (* const { GPUBufferUsage, GPUTextureUsage } = gpu *)
  let+ _ := member gpu in
  (* const adapter = await gpu.requestAdapter() *)
  let+ adapter := ask (requestAdapter gpu) in
  (* const device = await adapter?.requestDevice() *)
  let+ device := optional adapter (requestDevice adapter) in
  (* const shaderModule = device.createShaderModule({ code: shaderCode }) *)
  let+ _ := member device in
  let+ shaderModule := ask (createShaderModule device {| code := shaderCode |}) in
  (* const pipelineLayout = device.createPipelineLayout({ ... }) *)
  let+ _ := member device in
  let+ pipelineLayout :=
    ask (createPipelineLayout device {| bindGroupLayouts := [] |}) in
  (* const renderPipeline = device.createRenderPipeline({ ... }) *)
  let+ _ := member device in
  let+ renderPipeline := ask (createRenderPipeline device {|
    layout := pipelineLayout;
    vertex := {| vertex_module := shaderModule; vertex_entryPoint := "vs_main" |};
    fragment := {|
      fragment_module := shaderModule;
      fragment_entryPoint := "fs_main";
      targets := [ {| format := "rgba8unorm-srgb" |} ];
    |};
  |}) in
  (* const { texture, outputBuffer } = createCapture(device, dimensions) *)
  let+ captured :=
    lift (createCapture GPUBufferUsage GPUTextureUsage device dimensions) in
  let texture := captured_texture captured in
  let outputBuffer := outputBuffer captured in
  (* const encoder = device.createCommandEncoder() *)
  let+ _ := member device in
  let+ encoder := ask (createCommandEncoder device) in
  (* const renderPass = encoder.beginRenderPass({ ... }): the method is
     read first, then the argument is evaluated, texture.createView()
     included, then the call is made *)
  let+ _ := member encoder in
  let+ _ := member texture in
  let+ view := ask (createView texture) in
  let+ renderPass := ask (beginRenderPass encoder {|
    colorAttachments := [ {|
      view := view;
      storeOp := "store";
      loadValue := [0; 1; 0; 1];
    |} ];
  |}) in
  (* renderPass.setPipeline(renderPipeline) *)
  let+ _ := member renderPass in
  let+ _ := ask (setPipeline renderPass renderPipeline) in
  (* renderPass.draw(3, 1) *)
  let+ _ := member renderPass in
  let+ _ := ask (draw renderPass 3 1) in
  (* renderPass.end() *)
  let+ _ := member renderPass in
  let+ _ := ask (end_ renderPass) in
  (* copyToBuffer(encoder, texture, outputBuffer, dimensions) *)
  let+ _ := lift (copyToBuffer encoder texture outputBuffer dimensions) in
  (* device.queue.submit([encoder.finish()]): device.queue is read, then
     its submit, then encoder.finish() is called, then submit *)
  let+ _ := member device in
  let+ q := ask (queue device) in
  let+ _ := member q in
  let+ _ := member encoder in
  let+ commandBuffer := ask (finish encoder) in
  let+ _ := ask (submit q [commandBuffer]) in
  Return tt.

End Main.

(** How a run of the program ends. *)
Inductive result (A : Type) :=
| Completed (a : A)
| Failed (e : Heap.thrown).
Arguments Completed {A} a.
Arguments Failed {A} e.

(** A call and the answer it got. *)
Definition event : Type := bindingCall * outcome value.

Definition answered (c : bindingCall) (v : value) : event := (c, Returned v).

Section Exec.
Context {World : Type}.
Variable binding : bindingCall -> World -> outcome value * World.

Fixpoint exec {A} (p : Script A) (w : World) : result A * list event * World :=
  match p with
  | Return a => (Completed a, [], w)
  | Raise e => (Failed e, [], w)
  | Do c k =>
      match binding c w with
      | (Returned v, w') =>
          let '(r, events, w'') := exec (k v) w' in
          (r, (c, Returned v) :: events, w'')
      | (Threw e, w') => (Failed (Heap.Thrown e), [(c, Threw e)], w')
      end
  end.

End Exec.

Definition is_submit (ev : event) : bool :=
  match fst ev with
  | submit _ _ => true
  | _ => false
  end.

End Script.

(** ** createCapture on any arguments

    [Capture.createCapture] is the function on a device, dimensions and
    usage objects that are objects.  Here it is with what the language does
    on the others: reading [dimensions.width], reading
    [device.createBuffer] or [device.createTexture], and reading a flag of
    a usage object is a [TypeError] when the object read from is
    [undefined] or [null].  The method is read before the argument is
    evaluated, and the argument before the call is made.  Dimensions or a
    usage object that are [undefined] or [null] are [None]. *)

Module Checked.
Import Js RowPadding Capture Script.
Local Open Scope Z_scope.

(** [o.k] for an object [o] of the program that may be missing. *)
Definition read {O A : Type} (o : option O) (k : O -> A) : Script A :=
  match o with
  | Some x => Return (k x)
  | None => Raise Heap.TypeError
  end.

Section Source.
Variable GPUBufferUsage : option BufferUsage.
Variable GPUTextureUsage : option TextureUsage.

Definition createCapture (device : value) (dimensions : option Dimensions)
  : Script CaptureResult :=
  (* const { padded } = getRowPadding(dimensions.width); from here on
     the dimensions are an object *)
  let+ dimensions := read dimensions id in
  let padded := padded (getRowPadding (width dimensions)) in
  (* const outputBuffer = device.createBuffer({ ... }) *)
  let+ _ := member device in
  let+ map_read := read GPUBufferUsage MAP_READ in
  let+ copy_dst := read GPUBufferUsage COPY_DST in
  let+ outputBuffer := ask (capture (createBuffer device {|
    buf_label := "Capture";
    buf_size := js_mul padded (height dimensions);
    buf_usage := js_bitor map_read copy_dst;
  |})) in
  (* const texture = device.createTexture({ ... }) *)
  let+ _ := member device in
  let+ render_attachment := read GPUTextureUsage RENDER_ATTACHMENT in
  let+ copy_src := read GPUTextureUsage COPY_SRC in
  let+ texture := ask (capture (createTexture device {|
    tex_label := "Capture";
    tex_size := dimensions;
    tex_format := "rgba8unorm-srgb";
    tex_usage := js_bitor render_attachment copy_src;
  |})) in
  (* return { outputBuffer, texture } *)
  Return {| outputBuffer := outputBuffer; captured_texture := texture |}.

End Source.

End Checked.

(** ** Bindings that lack a class, for examples

    The heap of [Sample] with a module object of the binding that has no
    [GPUAdapter], and one that has no [GPUDevice]. *)

Module Partial.
Import Js Heap Shim Sample.

Definition heap_without_GPUAdapter : gmap loc object :=
  <[1%positive := obj None [("GPUDevice", VRef 4); ("GPUBufferUsage", VRef 8)]
                    SPlain]> heap0.

Definition heap_without_GPUDevice : gmap loc object :=
  <[1%positive := obj None [("GPUAdapter", VRef 2); ("GPUBufferUsage", VRef 8)]
                    SPlain]> heap0.

Definition state_without_GPUAdapter : state :=
  {| heap := heap_without_GPUAdapter; known := dom heap_without_GPUAdapter |}.

Definition state_without_GPUDevice : state :=
  {| heap := heap_without_GPUDevice; known := dom heap_without_GPUDevice |}.

End Partial.

(** ** Which properties a run assigns *)

Module Frame.
Import Js Heap.

(** [st'] has every object of [st], with its prototype link, its slot and
    its own properties, except for the properties listed in [W], each
    given with the object it belongs to. *)
Definition changed_at (W : list (loc * string)) (st st' : state) : Prop :=
  forall l o, heap st !! l = Some o ->
    exists o', heap st' !! l = Some o' /\
      obj_proto o' = obj_proto o /\
      obj_slot o' = obj_slot o /\
      forall k, (l, k) ∉ W -> obj_props o' !! k = obj_props o !! k.

End Frame.

(** ** Properties of getRowPadding *)

Module RowPaddingFacts.
Import RowPadding.
Local Open Scope Z_scope.

Lemma getRowPadding_unpadded width :
  unpadded (getRowPadding width) = width * 4.
Proof. reflexivity. Qed.

Lemma getRowPadding_padded width :
  padded (getRowPadding width) = pad_row (width * 4).
Proof. reflexivity. Qed.

(** The truncating remainder of the code against the floored one: the
    padding is the distance to the next multiple of 256 either way. *)
Lemma padding_nonneg_arg u :
  0 <= u -> js_rem (align - js_rem u align) align = (256 - u mod 256) mod 256.
Proof.
  intros Hu. unfold js_rem, align.
  rewrite (Z.rem_mod_nonneg u 256) by lia.
  pose proof (Z.mod_pos_bound u 256 ltac:(lia)) as Hb.
  rewrite Z.rem_mod_nonneg by lia. reflexivity.
Qed.

Lemma padding_neg_arg u :
  u < 0 -> js_rem (align - js_rem u align) align = (256 - u mod 256) mod 256.
Proof.
  intros Hu. unfold js_rem, align.
  pose proof (Z.rem_bound_pos_neg u 256 ltac:(lia) ltac:(lia)) as Hr.
  pose proof (Z.mod_pos_bound u 256 ltac:(lia)) as Hm.
  pose proof (Z.rem_mod_eq_0 u 256 ltac:(lia)) as H0.
  pose proof (Z.quot_rem u 256 ltac:(lia)) as Hq.
  pose proof (Z.div_mod u 256 ltac:(lia)) as Hd.
  rewrite Z.rem_mod_nonneg by lia.
  destruct (Z.eq_dec (Z.rem u 256) 0) as [E|E].
  - assert (u mod 256 = 0) as -> by (apply H0; exact E).
    rewrite E. reflexivity.
  - assert (u mod 256 <> 0) as Hne by (intros C; apply E, H0, C).
    assert (Z.rem u 256 = u mod 256 - 256) as ->.
    { assert (256 * (Z.quot u 256 - u / 256 - 1) = u mod 256 - Z.rem u 256 - 256) by lia.
      assert (Z.quot u 256 - u / 256 - 1 = 0) by nia. lia. }
    replace (256 - (u mod 256 - 256)) with ((256 - u mod 256) + 1 * 256) by lia.
    rewrite Z.mod_add by lia. reflexivity.
Qed.

Lemma padding_as_spec u :
  js_rem (align - js_rem u align) align = (256 - u mod 256) mod 256.
Proof.
  destruct (Z_lt_le_dec u 0); [apply padding_neg_arg | apply padding_nonneg_arg]; lia.
Qed.

Lemma pad_row_spec u : pad_row u = spec_padded u.
Proof. unfold pad_row, spec_padded. now rewrite padding_as_spec. Qed.

(** The padded size is the least multiple of 256 not below the row size. *)
Lemma pad_row_bounds u :
  u <= pad_row u < u + 256 /\ pad_row u mod 256 = 0.
Proof.
  rewrite pad_row_spec. unfold spec_padded.
  pose proof (Z.mod_pos_bound u 256 ltac:(lia)) as Hm.
  pose proof (Z.div_mod u 256 ltac:(lia)) as Hd.
  destruct (Z.eq_dec (u mod 256) 0) as [E|E].
  - rewrite E. change ((256 - 0) mod 256) with 0. rewrite Z.add_0_r. lia.
  - rewrite (Z.mod_small (256 - u mod 256)) by lia.
    split; [lia|].
    replace (u + (256 - u mod 256)) with ((u / 256 + 1) * 256) by lia.
    apply Z.mod_mul. lia.
Qed.

Lemma pad_row_aligned u : u mod 256 = 0 -> pad_row u = u.
Proof.
  intros H. rewrite pad_row_spec. unfold spec_padded. rewrite H.
  change ((256 - 0) mod 256) with 0. lia.
Qed.

Lemma pad_row_idempotent u : pad_row (pad_row u) = pad_row u.
Proof. apply pad_row_aligned, pad_row_bounds. Qed.

(** C1: for every width, the padded value returned by getRowPadding is
    unpadded + ((256 - unpadded mod 256) mod 256), where unpadded is
    width * 4. *)
Theorem getRowPadding_formula (width : Z) :
  unpadded (getRowPadding width) = width * 4 /\
  padded (getRowPadding width) = spec_padded (unpadded (getRowPadding width)) /\
  padded (getRowPadding width) =
    width * 4 + ((256 - (width * 4) mod 256) mod 256).
Proof.
  rewrite getRowPadding_padded, getRowPadding_unpadded, pad_row_spec.
  unfold spec_padded. auto.
Qed.

(** C8: padding is idempotent.  When the unpadded row size width * 4 is
    already a multiple of 256, getRowPadding returns padded equal to
    unpadded; and the padding computation applied to that row size, as to
    any row size it has produced, leaves it unchanged. *)
Theorem getRowPadding_idempotent (width : Z) (H : (256 | width * 4)) :
  padded (getRowPadding width) = unpadded (getRowPadding width) /\
  pad_row (unpadded (getRowPadding width)) = unpadded (getRowPadding width) /\
  pad_row (padded (getRowPadding width)) = padded (getRowPadding width).
Proof.
  assert ((width * 4) mod 256 = 0) as Hm.
  { destruct H as [q Hq]. rewrite Hq. apply Z.mod_mul. lia. }
  rewrite getRowPadding_padded, getRowPadding_unpadded.
  split; [apply pad_row_aligned, Hm|].
  split; [apply pad_row_aligned, Hm | apply pad_row_idempotent].
Qed.

Lemma getRowPadding_idempotent_witness :
  (256 | 64 * 4) /\
  padded (getRowPadding 64) = unpadded (getRowPadding 64).
Proof.
  assert (256 | 64 * 4) as H by (exists 1; reflexivity).
  split; [exact H | exact (proj1 (getRowPadding_idempotent 64 H))].
Defined.

End RowPaddingFacts.

(** ** Properties of createCapture and copyToBuffer *)

Module CaptureFacts.
Import Js RowPadding Capture RowPaddingFacts.
Local Open Scope Z_scope.

(** *** Rounding to binary64 *)

(** Up to 2 ^ 53 in magnitude every integer is a binary64 number. *)
Lemma to_double_exact n : Z.abs n <= 2 ^ 53 -> to_double n = n.
Proof.
  intros Hn. unfold to_double.
  destruct (Z.leb_spec (Z.log2 (Z.abs n) - 52) 0) as [He|He]; [reflexivity|].
  assert (0 < Z.abs n) as Hpos.
  { destruct (Z.eq_dec (Z.abs n) 0) as [E|E]; [|lia].
    rewrite E in He. cbn in He. lia. }
  pose proof (Z.log2_spec (Z.abs n) Hpos) as [Hlo _].
  assert (2 ^ 53 <= 2 ^ Z.log2 (Z.abs n)) as Hp
    by (apply Z.pow_le_mono_r; lia).
  assert (Z.abs n = 2 ^ 53) as E by lia.
  destruct (Z.abs_eq_or_opp n) as [Hs|Hs]; rewrite Hs in E.
  - rewrite E. reflexivity.
  - assert (n = - 2 ^ 53) as -> by lia. reflexivity.
Qed.

(** Rounding keeps the sign, and only zero rounds to zero. *)
Lemma to_double_sign n :
  (to_double n = 0 <-> n = 0) /\
  (to_double n < 0 <-> n < 0) /\
  (0 < to_double n <-> 0 < n).
Proof.
  unfold to_double.
  destruct (Z.leb_spec (Z.log2 (Z.abs n) - 52) 0) as [He|He]; [lia|].
  set (e := Z.log2 (Z.abs n) - 52) in *.
  assert (0 < Z.abs n) as Hpos.
  { destruct (Z.eq_dec (Z.abs n) 0) as [E|E]; [|lia].
    subst e. rewrite E in He. cbn in He. lia. }
  pose proof (Z.log2_spec (Z.abs n) Hpos) as [Hlo _].
  assert (0 < 2 ^ e) as Hulp by (apply Z.pow_pos_nonneg; lia).
  assert (2 ^ e <= Z.abs n) as Hle.
  { etransitivity; [|exact Hlo]. apply Z.pow_le_mono_r; lia. }
  assert (1 <= Z.abs n / 2 ^ e) as Hq
    by (apply Z.div_le_lower_bound; lia).
  set (q := Z.abs n / 2 ^ e) in *.
  set (q' := if _ <? _ then q else _).
  assert (q <= q') as Hq'.
  { subst q'. destruct (_ <? _); [lia|]. destruct (_ <? _); [lia|].
    destruct (Z.even q); lia. }
  assert (0 < q' * 2 ^ e) as Hm by nia.
  destruct n as [|p|p]; cbn [Z.sgn] in *; lia.
Qed.

Section WithBinding.
Context {World : Type}.
Variable native : nativeCall -> World -> outcome value * World.

(** Whatever the binding answers, copyToBuffer makes exactly one call. *)
Lemma copyToBuffer_calls encoder texture buffer dimensions w :
  calls_of native (copyToBuffer encoder texture buffer dimensions) w =
  [copyTextureToBuffer encoder
     {| texture := texture |}
     {| buffer := buffer;
        bytesPerRow := padded (getRowPadding (width dimensions));
        rowsPerImage := 0 |}
     dimensions].
Proof.
  unfold calls_of, copyToBuffer. cbn.
  destruct (native _ w) as [[v|e] w']; reflexivity.
Qed.

(** createCapture creates the buffer first, and then at most the texture. *)
Lemma createCapture_calls usage tusage device dimensions w :
  exists descriptor rest,
    calls_of native (createCapture usage tusage device dimensions) w =
      createBuffer device descriptor :: rest /\
    buf_size descriptor =
      js_mul (padded (getRowPadding (width dimensions))) (height dimensions) /\
    Forall (fun c => buffer_size_of c = None) rest.
Proof.
  unfold calls_of, createCapture. cbn [run bind call fst snd].
  destruct (native _ w) as [[v|e] w']; cbn [run bind call fst snd].
  - destruct (native _ w') as [[v'|e'] w'']; cbn; eexists _, _;
      (split; [reflexivity | split; [reflexivity | repeat constructor]]).
  - eexists _, _. split; [reflexivity | split; [reflexivity | constructor]].
Qed.

End WithBinding.

Lemma padded_row_pitch width :
  padded (getRowPadding width) mod 256 = 0 /\
  bytesPerPixel * width <= padded (getRowPadding width).
Proof.
  rewrite getRowPadding_padded. unfold bytesPerPixel.
  pose proof (pad_row_bounds (width * 4)). lia.
Qed.

(** C2: for width = 200 (4 bytes per pixel) getRowPadding returns
    unpadded = 800 and padded = 1024, and 1024 is the bytesPerRow of the one
    copyTextureToBuffer call that copyToBuffer makes for that width; no call
    passes 800. *)
Theorem copyToBuffer_width_200 {World : Type}
  (native : nativeCall -> World -> outcome value * World) (w : World)
  (encoder texture buffer : value) (h : Z) :
  getRowPadding 200 = {| unpadded := 800; padded := 1024 |} /\
  calls_of native
    (copyToBuffer encoder texture buffer {| width := 200; height := h |}) w =
  [copyTextureToBuffer encoder
     {| texture := texture |}
     {| buffer := buffer; bytesPerRow := 1024; rowsPerImage := 0 |}
     {| width := 200; height := h |}] /\
  Forall (fun c => bytesPerRow_of c = Some 1024 /\ bytesPerRow_of c <> Some 800)
    (calls_of native
       (copyToBuffer encoder texture buffer {| width := 200; height := h |}) w).
Proof.
  split; [reflexivity|].
  rewrite copyToBuffer_calls. cbn [width].
  change (padded (getRowPadding 200)) with 1024.
  split; [reflexivity|].
  constructor; [|constructor]. cbn. split; [reflexivity | discriminate].
Qed.

(** C3: for every width >= 1, the bytesPerRow that copyToBuffer passes to
    copyTextureToBuffer, the padded value of getRowPadding(width), meets both
    encode-time rules: it is a multiple of 256 and it is at least
    bytesPerPixel * width, with bytesPerPixel = 4. *)
Theorem copyToBuffer_row_pitch_valid {World : Type}
  (native : nativeCall -> World -> outcome value * World) (w : World)
  (encoder texture buffer : value) (dimensions : Dimensions)
  (Hwidth : 1 <= width dimensions) :
  Forall (fun c =>
      bytesPerRow_of c = Some (padded (getRowPadding (width dimensions))))
    (calls_of native (copyToBuffer encoder texture buffer dimensions) w) /\
  calls_of native (copyToBuffer encoder texture buffer dimensions) w <> [] /\
  (256 | padded (getRowPadding (width dimensions))) /\
  4 * width dimensions <= padded (getRowPadding (width dimensions)) /\
  spec_row_pitch_valid (padded (getRowPadding (width dimensions)))
    (width dimensions) = true.
Proof.
  rewrite copyToBuffer_calls.
  destruct (padded_row_pitch (width dimensions)) as [Hm Hle].
  unfold bytesPerPixel in Hle.
  split; [repeat constructor|]. split; [discriminate|].
  split; [apply Z.mod_divide; [lia | exact Hm]|]. split; [exact Hle|].
  unfold spec_row_pitch_valid, bytesPerPixel. rewrite Hm. cbn.
  apply Z.leb_le. exact Hle.
Qed.

Lemma copyToBuffer_row_pitch_valid_witness :
  1 <= 200 /\
  spec_row_pitch_valid (padded (getRowPadding 200)) 200 = true.
Proof.
  assert (1 <= 200) as H by lia.
  split; [exact H|].
  exact (proj2 (proj2 (proj2 (proj2
    (copyToBuffer_row_pitch_valid
       (fun _ (w : unit) => (Returned VUndefined, w)) tt
       VUndefined VUndefined VUndefined {| width := 200; height := 200 |} H))))).
Defined.





End CaptureFacts.

(** ** Reasoning about heap computations *)

Module HeapFacts.
Import Js Heap Shim Program Logic.

(** *** Triples *)

Lemma hoare_bind {A B} (m : M A) (f : A -> M B) P Q R X :
  hoare P m Q X -> (forall a, hoare (Q a) (f a) R X) -> hoare P (bind m f) R X.
Proof.
  intros Hm Hf st HP. specialize (Hm st HP). unfold bind.
  destruct (m st) as [[a|e|] st']; try exact Hm.
  exact (Hf a st' Hm).
Qed.

Lemma hoare_conseq {A} (m : M A) (P P' : state -> Prop)
  (Q Q' : A -> state -> Prop) (X X' : state -> Prop) :
  hoare P m Q X ->
  (forall st, P' st -> P st) ->
  (forall a st, Q a st -> Q' a st) ->
  (forall st, X st -> X' st) ->
  hoare P' m Q' X'.
Proof.
  intros H HP HQ HX st HP'. specialize (H st (HP st HP')).
  destruct (m st) as [[a|e|] st']; auto.
Qed.

Lemma hoare_pure {A} (m : M A) (F : Prop) (P : state -> Prop) Q X :
  (F -> hoare P m Q X) -> hoare (fun st => F /\ P st) m Q X.
Proof. intros H st [HF HP]. exact (H HF st HP). Qed.

Lemma hoare_any {A} (m : M A) P (Q : A -> state -> Prop) X st :
  hoare P m Q X -> (forall a st', Q a st' -> X st') -> P st -> X (snd (m st)).
Proof.
  intros H HQ HP. specialize (H st HP).
  destruct (m st) as [[a|e|] st']; cbn; eauto.
Qed.

(** *** Knowing *)

Lemma knows_ref st l : knows st (VRef l) <-> l ∈ known st.
Proof. unfold knows. cbn. apply bool_decide_eq_true. Qed.

(** *** The prototype chain *)

Lemma get_chain_mono n m h l k v :
  get_chain n h l k = Some v -> n <= m -> get_chain m h l k = Some v.
Proof.
  revert m l. induction n as [|n IH]; intros m l H Hle; [discriminate|].
  destruct m as [|m]; [lia|]. cbn in *.
  destruct (h !! l) as [o|]; [|discriminate].
  destruct (obj_props o !! k); [exact H|].
  destruct (obj_proto o); [|exact H].
  apply IH; [exact H | lia].
Qed.

Lemma get_chain_read n h l k v :
  get_chain n h l k = Some v ->
  v = VUndefined \/ exists l' o, h !! l' = Some o /\ obj_props o !! k = Some v.
Proof.
  revert l. induction n as [|n IH]; intros l H; [discriminate|]. cbn in H.
  destruct (h !! l) as [o|] eqn:El; [|discriminate].
  destruct (obj_props o !! k) as [x|] eqn:Ek.
  - injection H as ->. right. eauto.
  - destruct (obj_proto o); [eauto|]. injection H as <-. now left.
Qed.

Lemma lookup_prop_read h o k v :
  lookup_prop h o k = Returns v ->
  v = VUndefined \/ exists l' ob, h !! l' = Some ob /\ obj_props ob !! k = Some v.
Proof.
  destruct o; try discriminate. cbn.
  destruct (get_chain _ _ _ _) as [x|] eqn:E; [|discriminate].
  intros [= ->]. eapply get_chain_read, E.
Qed.

Lemma size_pos (h : gmap loc object) l o : h !! l = Some o -> 1 <= size h.
Proof.
  intros H. pose proof (map_size_ne_0_lookup_2 h l (mk_is_Some _ _ H)). lia.
Qed.

Lemma size_two (h : gmap loc object) l o p o' :
  h !! l = Some o -> h !! p = Some o' -> l <> p -> 2 <= size h.
Proof.
  intros Hl Hp Hne.
  pose proof (map_size_delete_Some l h (mk_is_Some _ _ Hl)) as Hd.
  assert (delete l h !! p = Some o') as Hp' by (rewrite lookup_delete_ne; auto).
  pose proof (size_pos _ _ _ Hp'). lia.
Qed.

Lemma lookup_prop_own h l o k v :
  h !! l = Some o -> obj_props o !! k = Some v ->
  lookup_prop h (VRef l) k = Returns v.
Proof.
  intros Hl Hk. cbn.
  rewrite (get_chain_mono 1 (size h) h l k v); [reflexivity| |eapply size_pos, Hl].
  cbn. now rewrite Hl, Hk.
Qed.

Lemma lookup_prop_inherited h l o p o' k v :
  h !! l = Some o -> obj_props o !! k = None -> obj_proto o = Some p ->
  h !! p = Some o' -> obj_props o' !! k = Some v ->
  lookup_prop h (VRef l) k = Returns v.
Proof.
  intros Hl Hk Hproto Hp Hk'. cbn.
  rewrite (get_chain_mono 2 (size h) h l k v); [reflexivity| |].
  - cbn. rewrite Hl, Hk, Hproto. cbn. now rewrite Hp, Hk'.
  - apply (size_two h l o p o' Hl Hp). intros E. subst. congruence.
Qed.

(** *** Stability *)

Section Stable.
Context (R : slot -> slot -> Prop) `{!PreOrder R}.

Lemma stable_refl W st : stable R W st st.
Proof.
  split; [reflexivity|]. intros l o H. exists o. repeat split; auto. reflexivity.
Qed.

Lemma stable_trans W st1 st2 st3 :
  stable R W st1 st2 -> stable R W st2 st3 -> stable R W st1 st3.
Proof.
  intros [K12 H12] [K23 H23]. split; [set_solver|].
  intros l o H. destruct (H12 l o H) as (o2 & E2 & P2 & R2 & W2).
  destruct (H23 l o2 E2) as (o3 & E3 & P3 & R3 & W3).
  exists o3. repeat split; [exact E3 | congruence | etrans; eauto |].
  intros k Hk. rewrite W3, W2; auto.
Qed.

Lemma stable_weaken W W' st st' :
  W ⊆ W' -> stable R W st st' -> stable R W' st st'.
Proof.
  intros HW [K H]. split; [exact K|]. intros l o E.
  destruct (H l o E) as (o' & E' & P' & R' & W'').
  exists o'. repeat split; auto.
Qed.

Lemma stable_size W st st' :
  stable R W st st' -> size (heap st) <= size (heap st').
Proof.
  intros [_ H]. rewrite <- !(size_dom (D := gset loc)).
  apply subseteq_size. intros l Hl. apply elem_of_dom in Hl as [o Ho].
  destruct (H l o Ho) as (o' & E' & _). eapply elem_of_dom_2, E'.
Qed.

Lemma get_chain_stable W st st' n l k v :
  stable R W st st' -> k ∉ W ->
  get_chain n (heap st) l k = Some v -> get_chain n (heap st') l k = Some v.
Proof.
  intros [_ H] Hk. revert l. induction n as [|n IH]; intros l E; [discriminate|].
  cbn in *. destruct (heap st !! l) as [o|] eqn:El; [|discriminate].
  destruct (H l o El) as (o' & -> & -> & _ & Hprops). rewrite (Hprops k Hk).
  destruct (obj_props o !! k); [exact E|].
  destruct (obj_proto o); [apply IH, E | exact E].
Qed.

Lemma lookup_prop_stable W st st' o k v :
  stable R W st st' -> k ∉ W ->
  lookup_prop (heap st) o k = Returns v -> lookup_prop (heap st') o k = Returns v.
Proof.
  intros Hs Hk. destruct o; try discriminate. cbn.
  destruct (get_chain (size (heap st)) _ _ _) as [x|] eqn:E; [|discriminate].
  intros [= ->].
  rewrite (get_chain_mono (size (heap st)) (size (heap st')) _ _ _ v);
    [reflexivity | eapply get_chain_stable; eauto | eapply stable_size; eauto].
Qed.

Lemma class_prototype_stable W st st' v cls p :
  stable R W st st' -> cls ∉ W -> "prototype" ∉ W ->
  class_prototype st v cls = Some p -> class_prototype st' v cls = Some p.
Proof.
  intros Hs Hc Hp. unfold class_prototype.
  destruct (lookup_prop (heap st) v cls) as [c| |] eqn:E1; try discriminate.
  destruct (lookup_prop (heap st) c "prototype") as [[]| |] eqn:E2;
    try discriminate.
  intros [= ->].
  now rewrite (lookup_prop_stable _ _ _ _ _ _ Hs Hc E1),
    (lookup_prop_stable _ _ _ _ _ _ Hs Hp E2).
Qed.

Lemma owns_stable W st st' l k v :
  stable R W st st' -> k ∉ W -> owns st l k v -> owns st' l k v.
Proof.
  intros [_ H] Hk (o & E & Ek). destruct (H l o E) as (o' & E' & _ & _ & Hp).
  exists o'. split; [exact E'|]. now rewrite Hp.
Qed.

Lemma slot_stable W st st' l s :
  stable R W st st' -> has_slot st l s ->
  exists s', has_slot st' l s' /\ R s s'.
Proof.
  intros [_ H]. unfold has_slot, slot_of.
  destruct (heap st !! l) as [o|] eqn:E; [|discriminate]. intros [= <-].
  destruct (H l o E) as (o' & E' & _ & HR & _).
  exists (obj_slot o'). now rewrite E'.
Qed.

End Stable.

#[global] Instance same_kind_preorder : PreOrder same_kind.
Proof.
  split.
  - intros []; cbn; auto.
  - intros [] [] []; cbn; try congruence; auto; try (intros []; discriminate);
      try (intros [=]; discriminate); try discriminate.
Qed.

Lemma function_slot_stable W st st' l f :
  stable same_kind W st st' -> has_slot st l (SFunction f) ->
  has_slot st' l (SFunction f).
Proof.
  intros Hs Hl. destruct (slot_stable _ _ _ _ _ _ Hs Hl) as (s' & Hs' & HR).
  destruct s'; cbn in HR; try discriminate. now rewrite <- HR in Hs'.
Qed.


(** *** The four ways a state changes *)

Section StableChanges.
Context (R : slot -> slot -> Prop) `{!PreOrder R}.

Lemma stable_learn W st l :
  stable R W st (with_known st ({[l]} ∪ known st)).
Proof.
  split; [cbn; set_solver|]. intros l' o E. exists o. cbn.
  repeat split; auto. reflexivity.
Qed.

Lemma stable_alloc W st l o :
  l ∉ dom (heap st) -> stable R W st (with_heap st (<[l:=o]> (heap st))).
Proof.
  intros Hl. split; [reflexivity|]. intros l' o' E. exists o'. cbn.
  rewrite lookup_insert_ne.
  - repeat split; auto. reflexivity.
  - intros ->. apply Hl. eapply elem_of_dom_2, E.
Qed.

Lemma stable_set_own W st l ob k v :
  heap st !! l = Some ob -> k ∈ W ->
  stable R W st (with_heap st (<[l:=set_own k v ob]> (heap st))).
Proof.
  intros Hl Hk. split; [reflexivity|]. intros l' o' E. cbn.
  destruct (decide (l = l')) as [<-|Hne].
  - rewrite lookup_insert_eq. exists (set_own k v ob).
    assert (o' = ob) as -> by congruence. cbn.
    repeat split; [reflexivity|]. intros k' Hk'.
    apply lookup_insert_ne. intros ->. contradiction.
  - rewrite lookup_insert_ne by exact Hne. exists o'.
    repeat split; auto. reflexivity.
Qed.

Lemma stable_set_slot W st l ob s :
  heap st !! l = Some ob -> R (obj_slot ob) s ->
  stable R W st (with_heap st (<[l:=set_slot s ob]> (heap st))).
Proof.
  intros Hl HR. split; [reflexivity|]. intros l' o' E. cbn.
  destruct (decide (l = l')) as [<-|Hne].
  - rewrite lookup_insert_eq. exists (set_slot s ob).
    assert (o' = ob) as -> by congruence. cbn. repeat split; auto.
  - rewrite lookup_insert_ne by exact Hne. exists o'.
    repeat split; auto. reflexivity.
Qed.

End StableChanges.

Lemma holds_set_own k v ob x :
  holds (set_own k v ob) x -> x = v \/ holds ob x.
Proof.
  intros [[k' Hk']|Hs]; cbn in *.
  - destruct (decide (k = k')) as [<-|Hne].
    + rewrite lookup_insert_eq in Hk'. left. congruence.
    + rewrite lookup_insert_ne in Hk' by exact Hne. right. left. eauto.
  - right. right. exact Hs.
Qed.

Lemma holds_set_slot s ob x :
  holds (set_slot s ob) x -> x ∈ slot_values s \/ holds ob x.
Proof.
  intros [[k' Hk']|Hs]; cbn in *.
  - right. left. eauto.
  - left. exact Hs.
Qed.

Lemma holds_new_object proto s x :
  holds (new_object proto s) x -> x ∈ slot_values s.
Proof.
  intros [[k' Hk']|Hs]; cbn in *; [|exact Hs].
  rewrite lookup_empty in Hk'. discriminate.
Qed.

Section InvChanges.
Context (S T : gset loc).

Lemma safe_known st v : Inv S T st -> knows st v -> safe S st v.
Proof.
  intros HI Hk r ->. apply knows_ref in Hk. split.
  - apply (inv_known _ _ _ HI), Hk.
  - intros HS. exact (inv_unknown _ _ _ HI r HS Hk).
Qed.

Lemma safe_held st l o v :
  Inv S T st -> heap st !! l = Some o -> holds o v -> safe S st v.
Proof.
  intros HI Hl Hh r ->. split.
  - exact (inv_closed _ _ _ HI l o r Hl Hh).
  - exact (inv_unheld _ _ _ HI l o r Hl Hh).
Qed.

Lemma safe_prim st v : (forall r, v <> VRef r) -> safe S st v.
Proof. intros H r E. destruct (H r E). Qed.

Lemma Inv_learn st l :
  Inv S T st -> l ∈ dom (heap st) -> l ∉ S ->
  Inv S T (with_known st ({[l]} ∪ known st)).
Proof.
  intros HI Hl HS. destruct HI. split; cbn; auto.
  - set_solver.
  - intros r Hr. specialize (inv_unknown0 r Hr). set_solver.
Qed.

Lemma Inv_learn_safe st v :
  Inv S T st -> safe S st v -> Inv S T (snd (learn v st)).
Proof.
  intros HI Hs. destruct v; try exact HI. cbn.
  destruct (Hs l eq_refl). now apply Inv_learn.
Qed.

Lemma Inv_alloc st o :
  Inv S T st ->
  (forall v, holds o v -> safe S st v) ->
  (forall q, q ∈ T -> ~ resolver_of q (obj_slot o)) ->
  Inv S T (with_heap st (<[fresh (dom (heap st)):=o]> (heap st))).
Proof.
  intros HI Hsafe Hres.
  pose proof (is_fresh (dom (heap st))) as Hfresh.
  set (l := fresh (dom (heap st))) in *.
  destruct HI. split; cbn.
  - rewrite dom_insert_L. set_solver.
  - intros l' o' r E Hh. rewrite dom_insert_L.
    destruct (decide (l = l')) as [<-|Hne].
    + rewrite lookup_insert_eq in E. injection E as <-.
      destruct (Hsafe _ Hh r eq_refl). set_solver.
    + rewrite lookup_insert_ne in E by exact Hne.
      specialize (inv_closed0 l' o' r E Hh). set_solver.
  - rewrite dom_insert_L. set_solver.
  - exact inv_unknown0.
  - intros l' o' r E Hh.
    destruct (decide (l = l')) as [<-|Hne].
    + rewrite lookup_insert_eq in E. injection E as <-.
      now destruct (Hsafe _ Hh r eq_refl).
    + rewrite lookup_insert_ne in E by exact Hne. eauto.
  - intros q Hq. specialize (inv_pending0 q Hq). unfold slot_of in *.
    rewrite lookup_insert_ne; [exact inv_pending0|].
    intros <-. apply Hfresh.
    destruct (heap st !! l) eqn:E; [|discriminate]. eapply elem_of_dom_2, E.
  - intros l' o' q E Hq Hr.
    destruct (decide (l = l')) as [<-|Hne].
    + rewrite lookup_insert_eq in E. injection E as <-.
      destruct (Hres q Hq Hr).
    + rewrite lookup_insert_ne in E by exact Hne. eauto.
Qed.

Lemma Inv_set_own st l ob k v :
  Inv S T st -> heap st !! l = Some ob -> safe S st v ->
  Inv S T (with_heap st (<[l:=set_own k v ob]> (heap st))).
Proof.
  intros HI Hl Hsafe.
  assert (dom (<[l:=set_own k v ob]> (heap st)) = dom (heap st)) as Hdom.
  { rewrite dom_insert_L. apply elem_of_dom_2 in Hl. set_solver. }
  assert (forall l' o' x, <[l:=set_own k v ob]> (heap st) !! l' = Some o' ->
            holds o' x -> x = v \/ exists o'', heap st !! l' = Some o'' /\ holds o'' x)
    as Hheld.
  { intros l' o' x E Hh. destruct (decide (l = l')) as [<-|Hne].
    - rewrite lookup_insert_eq in E. injection E as <-.
      destruct (holds_set_own _ _ _ _ Hh); eauto.
    - rewrite lookup_insert_ne in E by exact Hne. eauto. }
  destruct HI. split; cbn; rewrite ?Hdom; auto.
  - intros l' o' r E Hh.
    destruct (Hheld _ _ _ E Hh) as [Ev|(o'' & E'' & Hh'')]; [|eauto].
    now destruct (Hsafe r (eq_sym Ev)).
  - intros l' o' r E Hh.
    destruct (Hheld _ _ _ E Hh) as [Ev|(o'' & E'' & Hh'')]; [|eauto].
    now destruct (Hsafe r (eq_sym Ev)).
  - intros q Hq. specialize (inv_pending0 q Hq). unfold slot_of in *.
    destruct (decide (l = q)) as [<-|Hne].
    + rewrite lookup_insert_eq. rewrite Hl in inv_pending0. exact inv_pending0.
    + now rewrite lookup_insert_ne.
  - intros l' o' q E Hq Hr.
    destruct (decide (l = l')) as [<-|Hne].
    + rewrite lookup_insert_eq in E. injection E as <-. cbn in Hr. eauto.
    + rewrite lookup_insert_ne in E by exact Hne. eauto.
Qed.

Lemma Inv_set_slot st l ob s :
  Inv S T st -> heap st !! l = Some ob ->
  (forall v, v ∈ slot_values s -> safe S st v) ->
  (l ∈ T -> s = SPromise Pending) ->
  (forall q, q ∈ T -> resolver_of q s -> l ∈ S) ->
  Inv S T (with_heap st (<[l:=set_slot s ob]> (heap st))).
Proof.
  intros HI Hl Hsafe Hpend Hres.
  assert (dom (<[l:=set_slot s ob]> (heap st)) = dom (heap st)) as Hdom.
  { rewrite dom_insert_L. apply elem_of_dom_2 in Hl. set_solver. }
  assert (forall l' o' x, <[l:=set_slot s ob]> (heap st) !! l' = Some o' ->
            holds o' x ->
            x ∈ slot_values s \/ exists o'', heap st !! l' = Some o'' /\ holds o'' x)
    as Hheld.
  { intros l' o' x E Hh. destruct (decide (l = l')) as [<-|Hne].
    - rewrite lookup_insert_eq in E. injection E as <-.
      destruct (holds_set_slot _ _ _ Hh); eauto.
    - rewrite lookup_insert_ne in E by exact Hne. eauto. }
  destruct HI. split; cbn; rewrite ?Hdom; auto.
  - intros l' o' r E Hh.
    destruct (Hheld _ _ _ E Hh) as [Hin|(o'' & E'' & Hh'')]; [|eauto].
    now destruct (Hsafe _ Hin r eq_refl).
  - intros l' o' r E Hh.
    destruct (Hheld _ _ _ E Hh) as [Hin|(o'' & E'' & Hh'')]; [|eauto].
    now destruct (Hsafe _ Hin r eq_refl).
  - intros q Hq. specialize (inv_pending0 q Hq). unfold slot_of in *.
    destruct (decide (l = q)) as [<-|Hne].
    + rewrite lookup_insert_eq. cbn. now rewrite (Hpend Hq).
    + now rewrite lookup_insert_ne.
  - intros l' o' q E Hq Hr.
    destruct (decide (l = l')) as [<-|Hne].
    + rewrite lookup_insert_eq in E. injection E as <-. cbn in Hr. eauto.
    + rewrite lookup_insert_ne in E by exact Hne. eauto.
Qed.

End InvChanges.

End HeapFacts.

(** ** What the operations keep *)

Module OpFacts.
Import Js Heap Shim Program Logic HeapFacts.

Lemma refs_known st v : refs v ⊆ known st <-> knows st v.
Proof.
  destruct v; cbn; try (split; [reflexivity | set_solver]).
  rewrite knows_ref. set_solver.
Qed.

Section Keeps.
Context (R : slot -> slot -> Prop) `{!PreOrder R}.
Context (W : list string) (S T : gset loc) (s0 : state).

Local Abbreviation keeps := (keeps R W S T s0).

Lemma keeps_step K K' st st' :
  keeps K st -> stable R W st st' -> Inv S T st' -> K' ⊆ known st' ->
  keeps K' st'.
Proof.
  intros [HI HS HK] HS' HI' HK'. split; [exact HI'| |exact HK'].
  eapply stable_trans; eauto.
Qed.

Lemma keeps_weaken K K' st : keeps K st -> K' ⊆ K -> keeps K' st.
Proof. intros [HI HS HK] H. split; auto. set_solver. Qed.

Lemma keeps_knows K st v : keeps K st -> refs v ⊆ K -> knows st v.
Proof. intros [_ _ HK] H. apply refs_known. set_solver. Qed.

Lemma keeps_safe K st v : keeps K st -> refs v ⊆ K -> safe S st v.
Proof.
  intros HK H. eapply safe_known; [apply HK | eapply keeps_knows; eauto].
Qed.

Lemma stable_learn_value st v : stable R W st (snd (learn v st)).
Proof.
  destruct v; cbn; try (apply stable_refl; exact _).
  apply stable_learn; exact _.
Qed.

Lemma known_learn st v : known (snd (learn v st)) = refs v ∪ known st.
Proof. destruct v; cbn; set_solver. Qed.

Lemma keeps_learn K st v :
  keeps K st -> safe S st v -> keeps (K ∪ refs v) (snd (learn v st)).
Proof.
  intros HK Hs. eapply keeps_step; [exact HK | apply stable_learn_value | |].
  - apply Inv_learn_safe; [apply HK | exact Hs].
  - rewrite known_learn. destruct HK. set_solver.
Qed.

Lemma get_keeps K o k :
  hoare (keeps K) (get o k) (fun v => keeps (K ∪ refs v)) (keeps K).
Proof.
  intros st HK. unfold get.
  destruct (lookup_prop (heap st) o k) as [v| |] eqn:E; try exact HK.
  apply keeps_learn; [exact HK|].
  destruct (lookup_prop_read _ _ _ _ E) as [->|(l & ob & Hl & Hk)].
  - apply safe_prim. discriminate.
  - eapply safe_held; [apply HK | exact Hl | left; eauto].
Qed.

Lemma set_keeps K o k v :
  k ∈ W -> refs v ⊆ K ->
  hoare (keeps K) (set o k v) (fun _ => keeps K) (keeps K).
Proof.
  intros Hk Hv st HK. unfold set.
  destruct o; try exact HK.
  destruct (heap st !! l) as [ob|] eqn:E; [|exact HK].
  eapply keeps_step; [exact HK | | |].
  - apply stable_set_own; [exact _ | exact E | exact Hk].
  - apply Inv_set_own; [apply HK | exact E | eapply keeps_safe; eauto].
  - apply HK.
Qed.

Lemma alloc_internal_stable st o :
  stable R W st (snd (alloc_internal o st)).
Proof. apply stable_alloc; [exact _ | apply is_fresh]. Qed.

Lemma alloc_ref_keeps K o :
  (forall v, holds o v -> refs v ⊆ K) ->
  (forall q, q ∈ T -> ~ resolver_of q (obj_slot o)) ->
  hoare (keeps K) (alloc_ref o)
    (fun l st => keeps (K ∪ {[l]}) st /\ (l ∉ T) /\ (l ∉ S) /\
                 heap st !! l = Some o)
    (keeps K).
Proof.
  intros Hheld Hres st HK. unfold alloc_ref, bind, alloc_internal, learn, ret.
  pose proof (is_fresh (dom (heap st))) as Hfresh.
  set (l := fresh (dom (heap st))) in *.
  assert (Inv S T (with_heap st (<[l:=o]> (heap st)))) as HI.
  { apply Inv_alloc; [apply HK | | exact Hres].
    intros v Hv. eapply keeps_safe; eauto. }
  assert (l ∉ S) as HS.
  { intros HS. apply Hfresh.
    apply (inv_sealed _ _ _ (keeps_inv _ _ _ _ _ _ _ HK)), HS. }
  split; [|split; [|split; [exact HS|]]].
  - eapply keeps_step; [exact HK | | |].
    + eapply stable_trans; [exact _ | apply (alloc_internal_stable st o) |].
      apply stable_learn. exact _.
    + apply Inv_learn; [exact HI | | exact HS].
      cbn. rewrite dom_insert_L. set_solver.
    + cbn. destruct HK. set_solver.
  - intros HT. apply Hfresh.
    pose proof (inv_pending _ _ _ (keeps_inv _ _ _ _ _ _ _ HK) l HT) as Hp.
    unfold slot_of in Hp.
    destruct (heap st !! l) eqn:E; [|discriminate]. eapply elem_of_dom_2, E.
  - cbn. apply lookup_insert_eq.
Qed.

Lemma alloc_keeps K o :
  (forall v, holds o v -> refs v ⊆ K) ->
  (forall q, q ∈ T -> ~ resolver_of q (obj_slot o)) ->
  hoare (keeps K) (alloc o) (fun v => keeps (K ∪ refs v)) (keeps K).
Proof.
  intros Hheld Hres. unfold alloc.
  eapply hoare_bind; [apply alloc_ref_keeps; eauto|].
  intros l st [HK _]. exact HK.
Qed.

Lemma closure_keeps K f :
  (forall v, v ∈ slot_values (SFunction f) -> refs v ⊆ K) ->
  (forall q, q ∈ T -> ~ resolver_of q (SFunction f)) ->
  hoare (keeps K) (closure f) (fun v => keeps (K ∪ refs v)) (keeps K).
Proof.
  intros Hv Hq. apply alloc_keeps; [|exact Hq].
  intros v Hh. apply Hv. eapply holds_new_object, Hh.
Qed.

Lemma new_Set_keeps K :
  hoare (keeps K) new_Set (fun v => keeps (K ∪ refs v)) (keeps K).
Proof.
  apply alloc_keeps.
  - intros v Hh. apply holds_new_object in Hh. cbn in Hh. set_solver.
  - intros q _ [H|H]; discriminate.
Qed.

Lemma new_plain_keeps K proto s :
  slot_values s = [] -> (forall f, s <> SFunction f) ->
  hoare (keeps K) (alloc (new_object proto s))
    (fun v => keeps (K ∪ refs v)) (keeps K).
Proof.
  intros Hs Hf. apply alloc_keeps.
  - intros v Hh. apply holds_new_object in Hh. rewrite Hs in Hh. set_solver.
  - intros q _ [H|H]; cbn in H; eapply Hf, H.
Qed.

End Keeps.


(** *** Operations that change a slot *)

Section KeepsKind.
Context (W : list string) (S T : gset loc) (s0 : state).

Local Abbreviation keeps := (keeps same_kind W S T s0).

Lemma arg_known K n args :
  (forall a, a ∈ args -> refs a ⊆ K) -> refs (arg n args) ⊆ K.
Proof.
  intros H. unfold arg.
  destruct (nth_in_or_default n args VUndefined) as [Hin | Hd]; [|rewrite Hd; set_solver].
  apply H, list_elem_of_In, Hin.
Qed.

Lemma settle_result p s st v st' :
  settle p s st = (Returns v, st') -> v = VUndefined.
Proof.
  unfold settle. destruct (heap st !! p) as [ob|]; [|discriminate].
  destruct (obj_slot ob) as [| |ps| | |]; try congruence.
  destruct ps; congruence.
Qed.

Lemma settle_keeps K p s :
  p ∉ T -> (forall v, v ∈ slot_values (SPromise s) -> refs v ⊆ K) ->
  hoare (keeps K) (settle p s) (fun v => keeps (K ∪ refs v)) (keeps K).
Proof.
  intros Hp Hv st HK. unfold settle.
  destruct (heap st !! p) as [ob|] eqn:E; [|exact HK].
  assert (keeps (K ∪ refs VUndefined) st) as HK'.
  { eapply (keeps_weaken same_kind); [exact HK | cbn; set_solver]. }
  destruct (obj_slot ob) as [| |ps| | |] eqn:Es; try exact HK'.
  destruct ps; try exact HK'.
  eapply (keeps_step same_kind); [exact HK | | | ].
  - apply stable_set_slot; [exact _ | exact E |]. rewrite Es. exact I.
  - apply Inv_set_slot; [apply HK | exact E | | |].
    + intros v Hin. eapply (keeps_safe same_kind); [exact HK | eauto].
    + intros HT. contradiction.
    + intros q _ [H|H]; discriminate.
  - cbn. destruct HK. set_solver.
Qed.

Lemma settle_call_keeps K p s :
  p ∉ T -> (forall v, v ∈ slot_values (SPromise s) -> refs v ⊆ K) ->
  hoare (keeps K)
    (let! r := settle p s in let! _ := learn r in ret r)
    (fun v => keeps (K ∪ refs v)) (keeps K).
Proof.
  intros Hp Hv st HK. pose proof (settle_keeps K p s Hp Hv st HK) as H.
  unfold bind. destruct (settle p s st) as [[v| |] st'] eqn:E; try exact H.
  rewrite (settle_result _ _ _ _ _ E) in *. exact H.
Qed.

Lemma call_keeps K f args :
  refs f ⊆ K -> (forall a, a ∈ args -> refs a ⊆ K) ->
  hoare (keeps K) (call f args) (fun v => keeps (K ∪ refs v)) (keeps K).
Proof.
  intros Hf Hargs st HK. unfold call.
  destruct f as [| | | | |l]; try exact HK.
  destruct (heap st !! l) as [ob|] eqn:E; [|exact HK].
  destruct (obj_slot ob) as [| | |fo| |] eqn:Es; try exact HK.
  assert (l ∈ known st) as Hl.
  { apply knows_ref. eapply (keeps_knows same_kind); [exact HK | exact Hf]. }
  assert (forall q, resolver_of q (SFunction fo) -> q ∉ T) as Hq.
  { intros q Hr HT.
    pose proof (keeps_inv _ _ _ _ _ _ _ HK) as HI.
    eapply (inv_unknown _ _ _ HI l); [|exact Hl].
    eapply (inv_resolvers _ _ _ HI l ob q E HT). now rewrite Es. }
  assert (keeps (K ∪ refs VUndefined) st) as HK'.
  { eapply (keeps_weaken same_kind); [exact HK | cbn; set_solver]. }
  destruct fo as [g| | | | |p|p].
  - (* create *)
    change (call_fn (fn_create g) args) with (ret (A := value) g).
    unfold bind, ret. cbn.
    pose proof (keeps_learn same_kind W S T s0 K st g HK) as H.
    assert (safe S st g) as Hs.
    { eapply safe_held; [apply HK | exact E |].
      right. rewrite Es. cbn. set_solver. }
    specialize (H Hs). destruct g; exact H.
  - exact HK'.
  - exact HK'.
  - exact HK'.
  - exact HK.
  - apply (settle_call_keeps K p (Fulfilled (arg 0 args))); [|
      |exact HK].
    + apply Hq. now left.
    + intros v Hin. cbn in Hin. apply list_elem_of_singleton in Hin. subst.
      apply arg_known. exact Hargs.
  - apply (settle_call_keeps K p (Rejected (Thrown (arg 0 args)))); [|
      |exact HK].
    + apply Hq. now right.
    + intros v Hin. cbn in Hin. apply list_elem_of_singleton in Hin. subst.
      apply arg_known. exact Hargs.
Qed.

Lemma keeps_more K K' :
  forall v st, keeps (K ∪ K' ∪ refs v) st -> keeps (K ∪ refs v) st.
Proof.
  intros v st H. eapply (keeps_weaken same_kind); [exact H | set_solver].
Qed.

Lemma invoke_keeps K o k args :
  (forall a, a ∈ args -> refs a ⊆ K) ->
  hoare (keeps K) (invoke o k args) (fun v => keeps (K ∪ refs v)) (keeps K).
Proof.
  intros Hargs. unfold invoke.
  eapply hoare_bind; [apply (get_keeps same_kind W S T s0)|]. intros f.
  eapply hoare_conseq;
    [apply (call_keeps (K ∪ refs f) f args) | auto | apply keeps_more |].
  - set_solver.
  - intros a Ha. specialize (Hargs a Ha). set_solver.
  - intros st H. eapply (keeps_weaken same_kind); [exact H | set_solver].
Qed.

Lemma set_add_keeps K s v :
  refs s ⊆ K -> refs v ⊆ K ->
  hoare (keeps K) (set_add s v) (fun r => keeps (K ∪ refs r)) (keeps K).
Proof.
  intros Hs Hv st HK. unfold set_add.
  destruct s as [| | | | |l]; try exact HK.
  destruct (heap st !! l) as [ob|] eqn:E; [|exact HK].
  destruct (obj_slot ob) as [|els| | | |] eqn:Es; try exact HK.
  assert (keeps (K ∪ refs (VRef l)) st) as HK'.
  { eapply (keeps_weaken same_kind); [exact HK | set_solver]. }
  destruct (bool_decide (v ∈ els)); [exact HK'|].
  eapply (keeps_step same_kind); [exact HK | | |].
  - apply stable_set_slot; [exact _ | exact E |]. rewrite Es. exact I.
  - apply Inv_set_slot; [apply HK | exact E | | |].
    + intros x Hin. cbn in Hin. apply elem_of_app in Hin as [Hin|Hin].
      * eapply safe_held; [apply HK | exact E |]. right. rewrite Es. exact Hin.
      * apply list_elem_of_singleton in Hin. subst.
        eapply (keeps_safe same_kind); [exact HK | exact Hv].
    + intros HT.
      pose proof (inv_pending _ _ _ (keeps_inv _ _ _ _ _ _ _ HK) l HT) as Hp.
      unfold slot_of in Hp. rewrite E in Hp. cbn in Hp. congruence.
    + intros q _ [H|H]; discriminate.
  - cbn. destruct HK. set_solver.
Qed.

Lemma set_has_keeps K s v :
  hoare (keeps K) (set_has s v) (fun r => keeps (K ∪ refs r)) (keeps K).
Proof.
  intros st HK. unfold set_has.
  destruct s as [| | | | |l]; try exact HK.
  destruct (heap st !! l) as [ob|] eqn:E; [|exact HK].
  destruct (obj_slot ob) as [|els| | | |] eqn:Es; try exact HK.
  eapply (keeps_weaken same_kind); [exact HK | cbn; set_solver].
Qed.

Lemma lose_keeps K d :
  hoare (keeps K) (lose d) (fun r => keeps (K ∪ refs r)) (keeps K).
Proof.
  intros st HK. unfold lose.
  destruct d as [| | | | |l]; try exact HK.
  destruct (heap st !! l) as [ob|] eqn:E; [|exact HK].
  destruct (obj_slot ob) as [| | | | |u] eqn:Es; try exact HK.
  eapply (keeps_step same_kind); [exact HK | | |].
  - apply stable_set_slot; [exact _ | exact E |]. rewrite Es. exact I.
  - apply Inv_set_slot; [apply HK | exact E | | |].
    + intros x Hin. cbn in Hin. set_solver.
    + intros HT.
      pose proof (inv_pending _ _ _ (keeps_inv _ _ _ _ _ _ _ HK) l HT) as Hp.
      unfold slot_of in Hp. rewrite E in Hp. cbn in Hp. congruence.
    + intros q _ [H|H]; discriminate.
  - cbn. destruct HK. set_solver.
Qed.

Variable e : env.

Lemma hoare_keeps_sub {A} K K1 (m : M A) (f : A -> gset loc) :
  K ⊆ K1 ->
  hoare (keeps K1) m (fun v => keeps (K1 ∪ f v)) (keeps K1) ->
  hoare (keeps K1) m (fun v => keeps (K ∪ f v)) (keeps K).
Proof.
  intros HK H. eapply hoare_conseq; [exact H | auto | |].
  - intros a st Hk. eapply (keeps_weaken same_kind); [exact Hk | set_solver].
  - intros st Hk. eapply (keeps_weaken same_kind); [exact Hk | set_solver].
Qed.

Lemma new_instance_keeps K cls s :
  slot_values s = [] -> (forall f, s <> SFunction f) ->
  hoare (keeps K)
    (let! ctor := get (gpu e) cls in
     let! proto := get ctor "prototype" in
     alloc (new_object (proto_link proto) s))
    (fun v => keeps (K ∪ refs v)) (keeps K).
Proof.
  intros Hs Hf.
  eapply hoare_bind with (Q := fun c => keeps (K ∪ refs c));
    [apply (get_keeps same_kind W S T s0)|].
  intros ctor.
  eapply hoare_bind with (Q := fun p => keeps (K ∪ refs ctor ∪ refs p)).
  { eapply hoare_conseq with (X := keeps (K ∪ refs ctor));
      [apply (get_keeps same_kind W S T s0) | auto | auto |].
    intros st H. eapply (keeps_weaken same_kind); [exact H | set_solver]. }
  intros proto. apply hoare_keeps_sub; [set_solver|].
  apply (new_plain_keeps same_kind W S T s0); auto.
Qed.

Lemma requestAdapter_keeps K :
  hoare (keeps K) (requestAdapter e) (fun v => keeps (K ∪ refs v)) (keeps K).
Proof. apply new_instance_keeps; [reflexivity | discriminate]. Qed.

Lemma requestDevice_keeps K a :
  hoare (keeps K) (requestDevice e a) (fun v => keeps (K ∪ refs v)) (keeps K).
Proof.
  intros st HK. unfold requestDevice.
  destruct a as [| | | | |l]; try exact HK.
  destruct (slot_of (heap st) l) as [[]|]; try exact HK.
  apply (new_instance_keeps K "GPUDevice" (SDevice true));
    [reflexivity | discriminate | exact HK].
Qed.

Lemma new_Promise_keeping_keeps K :
  hoare (keeps K) new_Promise_keeping (fun v => keeps (K ∪ refs v)) (keeps K).
Proof.
  unfold new_Promise_keeping.
  eapply hoare_bind.
  { apply (alloc_ref_keeps same_kind W S T s0 K).
    - intros v Hh. apply holds_new_object in Hh. cbn in Hh. set_solver.
    - intros q _ [H|H]; discriminate. }
  intros p.
  eapply hoare_conseq with
    (P := fun st => (p ∉ T) /\ keeps (K ∪ {[p]}) st)
    (Q := fun v => keeps (K ∪ refs v)) (X := keeps K);
    [|intros st (HK & HT & _); auto | auto | auto].
  apply hoare_pure. intros HT.
  assert (forall f q, resolver_of q (SFunction f) ->
            f = fn_resolve p \/ f = fn_reject p -> q ∈ T -> False) as Hres.
  { intros f q [Hr|Hr] [Ef|Ef] Hq; subst f; try discriminate;
      injection Hr as Hr; subst; contradiction. }
  eapply hoare_bind.
  { eapply hoare_conseq with (X := keeps (K ∪ {[p]}));
      [apply (alloc_keeps same_kind W S T s0) | auto | intros a st H; exact H | auto].
    - intros v Hh. apply holds_new_object in Hh. cbn in Hh.
      apply list_elem_of_singleton in Hh. subst. cbn. set_solver.
    - intros q Hq Hr. cbn in Hr. exact (Hres _ q Hr (or_introl eq_refl) Hq).
    - intros st H. eapply (keeps_weaken same_kind); [exact H | set_solver]. }
  intros r1. eapply hoare_bind.
  { eapply hoare_conseq with (X := keeps (K ∪ {[p]} ∪ refs r1));
      [apply (alloc_keeps same_kind W S T s0) | auto | intros a st H; exact H | auto].
    - intros v Hh. apply holds_new_object in Hh. cbn in Hh.
      apply list_elem_of_singleton in Hh. subst. cbn. set_solver.
    - intros q Hq Hr. cbn in Hr. exact (Hres _ q Hr (or_intror eq_refl) Hq).
    - intros st H. eapply (keeps_weaken same_kind); [exact H | set_solver]. }
  intros r2 st H. cbn. eapply (keeps_weaken same_kind); [exact H | set_solver].
Qed.

Lemma perform_named_keeps K a :
  (forall v, v ∈ named a -> refs v ⊆ K) ->
  (forall k, k ∈ writes a -> k ∈ W) ->
  hoare (keeps K) (perform_named e a) (fun v => keeps (K ∪ refs v)) (keeps K).
Proof.
  intros Hn Hw. destruct a; cbn [perform_named].
  - apply (get_keeps same_kind W S T s0).
  - eapply hoare_bind with (Q := fun _ => keeps K).
    + apply (set_keeps same_kind W S T s0).
      * apply Hw. cbn. set_solver.
      * apply Hn. cbn. set_solver.
    + intros _ st H. cbn. eapply (keeps_weaken same_kind); [exact H|].
      assert (refs v ⊆ K) by (apply Hn; cbn; set_solver). set_solver.
  - apply call_keeps.
    + apply Hn. cbn. set_solver.
    + intros x Hx. apply Hn. cbn. set_solver.
  - apply invoke_keeps. intros x Hx. apply Hn. cbn. set_solver.
  - apply set_add_keeps; apply Hn; cbn; set_solver.
  - apply set_has_keeps.
  - apply (new_plain_keeps same_kind W S T s0); [reflexivity | discriminate].
  - apply (new_Set_keeps same_kind W S T s0).
  - apply new_Promise_keeping_keeps.
  - apply requestAdapter_keeps.
  - apply requestDevice_keeps.
  - apply lose_keeps.
  - apply lose_keeps.
Qed.

Lemma named_known a st :
  forallb (holds_ref st) (named a) = true ->
  forall v, v ∈ named a -> refs v ⊆ known st.
Proof.
  intros H v Hv. apply refs_known. unfold knows.
  rewrite forallb_forall in H. apply H, list_elem_of_In, Hv.
Qed.

Lemma perform_keeps a st :
  Inv S T st -> stable same_kind W s0 st ->
  (forall k, k ∈ writes a -> k ∈ W) ->
  Inv S T (snd (perform e a st)) /\
  stable same_kind W s0 (snd (perform e a st)).
Proof.
  intros HI HS Hw. unfold perform.
  destruct (forallb (holds_ref st) (named a)) eqn:Hn; [|split; assumption].
  assert (keeps (known st) st) as HK by (split; auto).
  pose proof (hoare_any _ _ _ _ st
                (perform_named_keeps (known st) a (named_known a st Hn) Hw)) as H.
  destruct H as [HI' HS' _]; [|exact HK|split; assumption].
  intros v st' Hv. eapply (keeps_weaken same_kind); [exact Hv | set_solver].
Qed.

Lemma steps_keeps acts st st' :
  Inv S T st -> stable same_kind W s0 st ->
  (forall k, k ∈ written acts -> k ∈ W) ->
  steps e acts st = Some st' ->
  Inv S T st' /\ stable same_kind W s0 st'.
Proof.
  revert st. induction acts as [|a acts IH]; intros st HI HS Hw Hrun.
  - injection Hrun as <-. split; assumption.
  - cbn in Hrun.
    destruct (perform_keeps a st HI HS) as [HI' HS'].
    { intros k Hk. apply Hw. unfold written. cbn. set_solver. }
    destruct (perform e a st) as [[v|x|] st1]; try discriminate;
      (eapply IH; [exact HI' | exact HS' | | exact Hrun]);
      intros k Hk; apply Hw; unfold written in *; cbn; set_solver.
Qed.

End KeepsKind.

End OpFacts.

(** ** Runs that only move forward *)

Module SteadyFacts.
Import Js Heap Shim Program Logic HeapFacts OpFacts.

Section Steady.
Context (R : slot -> slot -> Prop) `{!PreOrder R} (W : list string).

Lemma steady_ret {A} (a : A) : steady R W (ret a).
Proof. intros st. apply stable_refl. exact _. Qed.

Lemma steady_bind {A B} (m : M A) (f : A -> M B) :
  steady R W m -> (forall a, steady R W (f a)) -> steady R W (bind m f).
Proof.
  intros Hm Hf st. unfold bind. specialize (Hm st).
  destruct (m st) as [[a|x|] st1]; cbn in *; try exact Hm.
  eapply stable_trans; [exact _ | exact Hm | apply Hf].
Qed.

Lemma steady_learn v : steady R W (learn v).
Proof. intros st. apply stable_learn_value. exact _. Qed.

Lemma steady_get o k : steady R W (get o k).
Proof.
  intros st. unfold get.
  destruct (lookup_prop (heap st) o k); cbn; try (apply stable_refl; exact _).
  apply stable_learn_value. exact _.
Qed.

Lemma steady_set o k v : k ∈ W -> steady R W (set o k v).
Proof.
  intros Hk st. unfold set.
  destruct o; cbn; try (apply stable_refl; exact _).
  destruct (heap st !! l) as [ob|] eqn:E; cbn; [|apply stable_refl; exact _].
  apply stable_set_own; [exact _ | exact E | exact Hk].
Qed.

Lemma steady_alloc_internal o : steady R W (alloc_internal o).
Proof. intros st. apply alloc_internal_stable. exact _. Qed.

Lemma steady_alloc_ref o : steady R W (alloc_ref o).
Proof.
  apply steady_bind; [apply steady_alloc_internal|]. intros l.
  apply steady_bind; [apply steady_learn|]. intros _. apply steady_ret.
Qed.

Lemma steady_alloc o : steady R W (alloc o).
Proof.
  apply steady_bind; [apply steady_alloc_ref|]. intros l. apply steady_ret.
Qed.

Lemma steady_new_instance e cls s :
  steady R W
    (let! ctor := get (gpu e) cls in
     let! proto := get ctor "prototype" in
     alloc (new_object (proto_link proto) s)).
Proof.
  apply steady_bind; [apply steady_get|]. intros ctor.
  apply steady_bind; [apply steady_get|]. intros proto. apply steady_alloc.
Qed.

End Steady.

(** With slots compared up to their kind, every action is steady. *)

Section SteadyKind.
Context (W : list string).

Lemma steady_settle p s : steady same_kind W (settle p s).
Proof.
  intros st. unfold settle.
  destruct (heap st !! p) as [ob|] eqn:E; cbn; [|reflexivity || apply stable_refl; exact _].
  destruct (obj_slot ob) as [| |ps| | |] eqn:Es; cbn;
    try (apply stable_refl; exact _).
  destruct ps; cbn; try (apply stable_refl; exact _).
  apply stable_set_slot; [exact _ | exact E |]. rewrite Es. exact I.
Qed.

Lemma steady_call_fn f args : steady same_kind W (call_fn f args).
Proof.
  destruct f; cbn; try apply steady_ret; try exact _;
    try apply steady_settle.
  intros st. apply stable_refl. exact _.
Qed.

Lemma steady_call f args : steady same_kind W (call f args).
Proof.
  intros st. unfold call.
  destruct f; cbn; try (apply stable_refl; exact _).
  destruct (heap st !! l) as [ob|]; cbn; [|apply stable_refl; exact _].
  destruct (obj_slot ob); cbn; try (apply stable_refl; exact _).
  apply (steady_bind same_kind W); [apply steady_call_fn|]. intros r.
  apply steady_bind; [exact _ | apply steady_learn; exact _|].
  intros _. apply steady_ret. exact _.
Qed.

Lemma steady_invoke o k args : steady same_kind W (invoke o k args).
Proof.
  apply steady_bind; [exact _ | apply steady_get; exact _|].
  intros f. apply steady_call.
Qed.

Lemma steady_set_add s v : steady same_kind W (set_add s v).
Proof.
  intros st. unfold set_add.
  destruct s; cbn; try (apply stable_refl; exact _).
  destruct (heap st !! l) as [ob|] eqn:E; cbn; [|apply stable_refl; exact _].
  destruct (obj_slot ob) eqn:Es; cbn; try (apply stable_refl; exact _).
  destruct (bool_decide _); cbn; [apply stable_refl; exact _|].
  apply stable_set_slot; [exact _ | exact E |]. rewrite Es. exact I.
Qed.

Lemma steady_set_has s v : steady same_kind W (set_has s v).
Proof.
  intros st. unfold set_has.
  destruct s; cbn; try (apply stable_refl; exact _).
  destruct (heap st !! l) as [ob|] eqn:E; cbn; [|apply stable_refl; exact _].
  destruct (obj_slot ob) eqn:Es; cbn; apply stable_refl; exact _.
Qed.

Lemma steady_lose d : steady same_kind W (lose d).
Proof.
  intros st. unfold lose.
  destruct d; cbn; try (apply stable_refl; exact _).
  destruct (heap st !! l) as [ob|] eqn:E; cbn; [|apply stable_refl; exact _].
  destruct (obj_slot ob) eqn:Es; cbn; try (apply stable_refl; exact _).
  apply stable_set_slot; [exact _ | exact E |]. rewrite Es. exact I.
Qed.

Lemma steady_requestDevice e a : steady same_kind W (requestDevice e a).
Proof.
  intros st. unfold requestDevice.
  destruct a; cbn; try (apply stable_refl; exact _).
  destruct (slot_of (heap st) l) as [[]|]; cbn; try (apply stable_refl; exact _).
  apply (steady_new_instance same_kind W e "GPUDevice").
Qed.

Lemma steady_new_Promise_keeping : steady same_kind W new_Promise_keeping.
Proof.
  apply steady_bind; [exact _ | apply steady_alloc_ref; exact _|]. intros p.
  apply steady_bind; [exact _ | apply steady_alloc; exact _|]. intros _.
  apply steady_bind; [exact _ | apply steady_alloc; exact _|]. intros _.
  apply steady_ret. exact _.
Qed.

Lemma steady_perform e a :
  (forall k, k ∈ writes a -> k ∈ W) -> steady same_kind W (perform e a).
Proof.
  intros Hw st. unfold perform.
  destruct (forallb _ _); cbn; [|apply stable_refl; exact _].
  destruct a; cbn [perform_named].
  - apply steady_get; exact _.
  - apply (steady_bind same_kind W); [|intros; apply steady_ret; exact _].
    apply steady_set; [exact _|]. apply Hw. cbn. set_solver.
  - apply steady_call.
  - apply steady_invoke.
  - apply steady_set_add.
  - apply steady_set_has.
  - apply steady_alloc; exact _.
  - apply (steady_alloc same_kind W).
  - apply steady_new_Promise_keeping.
  - apply (steady_new_instance same_kind W e "GPUAdapter").
  - apply steady_requestDevice.
  - apply steady_lose.
  - apply steady_lose.
Qed.

Lemma steps_stable e acts st st' :
  (forall k, k ∈ written acts -> k ∈ W) ->
  steps e acts st = Some st' -> stable same_kind W st st'.
Proof.
  revert st. induction acts as [|a acts IH]; intros st Hw Hrun.
  - injection Hrun as <-. apply stable_refl. exact _.
  - cbn in Hrun.
    assert (stable same_kind W st (snd (perform e a st))) as H1.
    { apply steady_perform. intros k Hk. apply Hw. unfold written. cbn.
      set_solver. }
    assert (forall k, k ∈ written acts -> k ∈ W) as Hw'.
    { intros k Hk. apply Hw. unfold written in *. cbn. set_solver. }
    destruct (perform e a st) as [[v|x|] st1]; try discriminate; cbn in H1;
      (eapply stable_trans; [exact _ | exact H1 | apply IH; assumption]).
Qed.

End SteadyKind.

End SteadyFacts.

(** ** What cts.js installs *)

Module MainFacts.
Import Js Heap Shim Program Logic HeapFacts OpFacts SteadyFacts.

Ltac in_list := apply list_elem_of_In; cbn; tauto.
Ltac sub_list :=
  let k := fresh in let H := fresh in
  intros k H; apply list_elem_of_In in H; apply list_elem_of_In;
  cbn in *; tauto.
Ltac not_in_list :=
  let H := fresh in
  intros H; apply list_elem_of_In in H; cbn in H; intuition discriminate.

Lemma bind_run {A B} (m : M A) (f : A -> M B) st b st' :
  bind m f st = (Returns b, st') ->
  exists a st1, m st = (Returns a, st1) /\ f a st1 = (Returns b, st').
Proof.
  unfold bind. destruct (m st) as [[a|x|] st1]; try discriminate. eauto.
Qed.

Lemma run_stable {A} R W (m : M A) st r st' :
  steady R W m -> m st = (r, st') -> stable R W st st'.
Proof. intros H E. specialize (H st). now rewrite E in H. Qed.

Lemma get_run o k st v st' :
  get o k st = (Returns v, st') ->
  lookup_prop (heap st) o k = Returns v /\ heap st' = heap st.
Proof.
  unfold get. destruct (lookup_prop (heap st) o k); try discriminate.
  intros [= <- <-]. split; [reflexivity|]. now destruct a.
Qed.

Lemma set_run o k v st u st' :
  set o k v st = (Returns u, st') ->
  exists l, o = VRef l /\ owns st' l k v /\
    forall x s, has_slot st x s -> has_slot st' x s.
Proof.
  unfold set. destruct o; try discriminate.
  destruct (heap st !! l) as [ob|] eqn:E; [|discriminate].
  intros [= <- <-]. exists l. split; [reflexivity|]. split.
  - exists (set_own k v ob). cbn. now rewrite !lookup_insert_eq.
  - intros x s. unfold has_slot, slot_of. cbn.
    destruct (decide (l = x)) as [<-|Hne].
    + rewrite lookup_insert_eq, E. auto.
    + now rewrite lookup_insert_ne.
Qed.

Lemma alloc_ref_run o st l st' :
  alloc_ref o st = (Returns l, st') ->
  (l ∉ dom (heap st)) /\ heap st' !! l = Some o /\ l ∈ known st'.
Proof.
  unfold alloc_ref, bind, alloc_internal, learn, ret. intros [= <- <-]. cbn.
  split; [apply is_fresh|]. split; [apply lookup_insert_eq | set_solver].
Qed.

Lemma alloc_run o st v st' :
  alloc o st = (Returns v, st') ->
  exists l, v = VRef l /\ (l ∉ dom (heap st)) /\ heap st' !! l = Some o /\
    l ∈ known st'.
Proof.
  unfold alloc. intros H. apply bind_run in H as (l & st1 & H1 & H2).
  injection H2 as <- <-. exists l. split; [reflexivity|].
  eapply alloc_ref_run, H1.
Qed.

Lemma has_slot_new st l proto s :
  heap st !! l = Some (new_object proto s) -> has_slot st l s.
Proof. intros H. unfold has_slot, slot_of. now rewrite H. Qed.

Lemma has_slot_stable W st st' l s :
  stable eq W st st' -> has_slot st l s -> has_slot st' l s.
Proof.
  intros Hs Hl. destruct (slot_stable eq W st st' l s Hs Hl) as (s' & H & ->).
  exact H.
Qed.

Lemma owns_fun st l k v v' : owns st l k v -> owns st l k v' -> v = v'.
Proof. intros (o & E & H) (o' & E' & H'). congruence. Qed.

Lemma call_function l f args st :
  has_slot st l (SFunction f) ->
  call (VRef l) args st =
  (let! r := call_fn f args in let! _ := learn r in ret r) st.
Proof.
  unfold has_slot, slot_of, call.
  destruct (heap st !! l) as [ob|]; [|discriminate]. cbn.
  intros [= ->]. reflexivity.
Qed.

(** The promise of [new Promise(() => {})]: three allocations, and an
    executor call that changes nothing. *)
Lemma new_Promise_lost_run ex st v st' :
  has_slot st ex (SFunction fn_lost_executor) ->
  new_Promise (VRef ex) st = (Returns v, st') ->
  exists p r1 r2 sa sb,
    v = VRef p /\
    alloc_ref (new_object None (SPromise Pending)) st = (Returns p, sa) /\
    alloc_internal (new_object None (SFunction (fn_resolve p))) sa
      = (Returns r1, sb) /\
    alloc_internal (new_object None (SFunction (fn_reject p))) sb
      = (Returns r2, st').
Proof.
  intros Hex H. unfold new_Promise in H.
  apply bind_run in H as (p & sa & Hp & H).
  apply bind_run in H as (r1 & sb & Hr1 & H).
  apply bind_run in H as (r2 & sc & Hr2 & H).
  assert (has_slot sc ex (SFunction fn_lost_executor)) as Hex'.
  { eapply (has_slot_stable []); [|exact Hex].
    eapply stable_trans; [exact _ | eapply run_stable, Hp; apply steady_alloc_ref; exact _|].
    eapply stable_trans; [exact _ | eapply run_stable, Hr1; apply steady_alloc_internal; exact _|].
    eapply run_stable, Hr2. apply steady_alloc_internal. exact _. }
  rewrite (call_function _ _ _ _ Hex') in H. cbn in H.
  injection H as <- <-. exists p, r1, r2, sa, sb. auto.
Qed.

Section Statements.
Variable e : env.

(** The shape of four of the statements: look the prototype of a class
    up, make a value, assign it to a property of the prototype. *)
Lemma patch_run cls key (mk : M value) (Q : value -> state -> Prop) W st st' :
  (let! c := get (gpu e) cls in
   let! proto := get c "prototype" in
   let! v := mk in
   set proto key v) st = (Returns tt, st') ->
  key ∈ W ->
  (forall s1 v s2, mk s1 = (Returns v, s2) -> stable eq W s1 s2 /\ Q v s2) ->
  (forall v s2 s3, Q v s2 ->
     (forall x s, has_slot s2 x s -> has_slot s3 x s) -> Q v s3) ->
  exists p v,
    class_prototype st (gpu e) cls = Some p /\
    owns st' p key v /\ Q v st' /\ stable eq W st st'.
Proof.
  intros H Hkey Hmk HQ.
  apply bind_run in H as (c & s1 & H1 & H).
  apply bind_run in H as (proto & s2 & H2 & H).
  apply bind_run in H as (v & s3 & H3 & H).
  destruct (Hmk _ _ _ H3) as [Hs3 HQ3].
  destruct (set_run _ _ _ _ _ _ H) as (p & -> & Hown & Hslots).
  exists p, v.
  destruct (get_run _ _ _ _ _ H1) as [L1 E1].
  destruct (get_run _ _ _ _ _ H2) as [L2 E2].
  split; [|split; [exact Hown | split; [eapply HQ; eauto|]]].
  - unfold class_prototype. rewrite L1. rewrite <- E1, L2. reflexivity.
  - eapply stable_trans; [exact _ | eapply run_stable, H1; apply steady_get; exact _|].
    eapply stable_trans; [exact _ | eapply run_stable, H2; apply steady_get; exact _|].
    eapply stable_trans; [exact _ | exact Hs3|].
    eapply run_stable, H. apply steady_set; [exact _ | exact Hkey].
Qed.

Lemma closure_run W f st v st' :
  closure f st = (Returns v, st') ->
  stable eq W st st' /\
  exists l, v = VRef l /\ has_slot st' l (SFunction f).
Proof.
  intros H. split; [eapply run_stable, H; apply steady_alloc; exact _|].
  apply alloc_run in H as (l & -> & _ & Hl & _).
  exists l. split; [reflexivity | eapply has_slot_new, Hl].
Qed.

Lemma stmt_create_run st st' :
  stmt_create e st = (Returns tt, st') ->
  stable eq ["create"] st st' /\
  exists x f, exports e = VRef x /\ owns st' x "create" (VRef f) /\
    has_slot st' f (SFunction (fn_create (gpu e))).
Proof.
  intros H. unfold stmt_create in H.
  apply bind_run in H as (v & s1 & H1 & H).
  destruct (closure_run ["create"] _ _ _ _ H1) as (Hs1 & f & -> & Hf).
  destruct (set_run _ _ _ _ _ _ H) as (x & Hx & Hown & Hslots).
  split.
  - eapply stable_trans; [exact _ | exact Hs1|].
    eapply run_stable, H. apply steady_set; [exact _ | in_list].
  - exists x, f. auto.
Qed.

Lemma stmt_features_run st st' :
  stmt_features e st = (Returns tt, st') ->
  stable eq ["features"] st st' /\
  exists ap s, class_prototype st (gpu e) "GPUAdapter" = Some ap /\
    owns st' ap "features" (VRef s) /\ has_slot st' s (SSet []).
Proof.
  intros H.
  destruct (patch_run "GPUAdapter" "features" new_Set
              (fun v st => exists s, v = VRef s /\ has_slot st s (SSet []))
              ["features"] st st' H) as (p & v & Hc & Hown & (s & -> & Hs) & Hst).
  - in_list.
  - intros s1 v s2 Hrun. split; [eapply run_stable, Hrun; apply steady_alloc; exact _|].
    apply alloc_run in Hrun as (l & -> & _ & Hl & _).
    exists l. split; [reflexivity | eapply has_slot_new, Hl].
  - intros v s2 s3 (s & -> & Hs) Hslots. eauto.
  - split; [exact Hst|]. exists p, s. auto.
Qed.

Lemma stmt_function_run cls key f st st' :
  (let! c := get (gpu e) cls in
   let! proto := get c "prototype" in
   let! v := closure f in
   set proto key v) st = (Returns tt, st') ->
  stable eq [key] st st' /\
  exists dp l, class_prototype st (gpu e) cls = Some dp /\
    owns st' dp key (VRef l) /\ has_slot st' l (SFunction f).
Proof.
  intros H.
  destruct (patch_run cls key (closure f)
              (fun v st => exists l, v = VRef l /\ has_slot st l (SFunction f))
              [key] st st' H ltac:(in_list))
    as (p & v & Hc & Hown & (l & -> & Hl) & Hst).
  - intros s1 v s2 Hrun. apply (closure_run [key]) in Hrun. exact Hrun.
  - intros v s2 s3 (l & -> & Hl) Hslots. eauto.
  - split; [exact Hst|]. exists p, l. auto.
Qed.

Lemma stmt_lost_patch st :
  stmt_lost e st =
  (let! c := get (gpu e) "GPUDevice" in
   let! proto := get c "prototype" in
   let! v := (let! executor := closure fn_lost_executor in
              new_Promise executor) in
   set proto "lost" v) st.
Proof.
  unfold stmt_lost, bind.
  destruct (get (gpu e) "GPUDevice" st) as [[c|x|] s1]; reflexivity.
Qed.

Lemma lost_maker_run W s1 v s2 :
  (let! executor := closure fn_lost_executor in new_Promise executor) s1
    = (Returns v, s2) ->
  stable eq W s1 s2 /\
  exists p, v = VRef p /\ has_slot s2 p (SPromise Pending).
Proof.
  intros H. apply bind_run in H as (ex & sx & Hx & H).
  destruct (closure_run W _ _ _ _ Hx) as (Hsx & l & -> & Hl).
  destruct (new_Promise_lost_run _ _ _ _ Hl H)
    as (p & r1 & r2 & sa & sb & -> & Hp & Hr1 & Hr2).
  assert (stable eq W sa s2) as Htail.
  { eapply stable_trans; [exact _ | eapply run_stable, Hr1; apply steady_alloc_internal; exact _|].
    eapply run_stable, Hr2. apply steady_alloc_internal. exact _. }
  split.
  - eapply stable_trans; [exact _ | exact Hsx|].
    eapply stable_trans; [exact _ | eapply run_stable, Hp; apply steady_alloc_ref; exact _|].
    exact Htail.
  - exists p. split; [reflexivity|].
    eapply has_slot_stable; [exact Htail|].
    eapply has_slot_new. eapply alloc_ref_run, Hp.
Qed.

Lemma stmt_lost_run st st' :
  stmt_lost e st = (Returns tt, st') ->
  stable eq ["lost"] st st' /\
  exists dp p, class_prototype st (gpu e) "GPUDevice" = Some dp /\
    owns st' dp "lost" (VRef p) /\ has_slot st' p (SPromise Pending).
Proof.
  intros H. rewrite stmt_lost_patch in H.
  destruct (patch_run "GPUDevice" "lost" _
              (fun v st => exists p, v = VRef p /\ has_slot st p (SPromise Pending))
              ["lost"] st st' H) as (dp & v & Hc & Hown & (p & -> & Hp) & Hst).
  - in_list.
  - apply lost_maker_run.
  - intros v s2 s3 (p & -> & Hp) Hslots. eauto.
  - split; [exact Hst|]. exists dp, p. auto.
Qed.

Lemma stmt_GPUBufferUsage_stable st st' :
  stmt_GPUBufferUsage e st = (Returns tt, st') ->
  stable eq ["GPUBufferUsage"] st st'.
Proof.
  intros H. eapply run_stable, H.
  apply steady_bind; [exact _ | apply steady_get; exact _|]. intros u.
  apply steady_set; [exact _ | in_list].
Qed.

Lemma stable_dom R W st st' l :
  stable R W st st' -> l ∈ dom (heap st) -> l ∈ dom (heap st').
Proof.
  intros [_ H] Hl. apply elem_of_dom in Hl as [o Ho].
  destruct (H l o Ho) as (o' & E & _). eapply elem_of_dom_2, E.
Qed.

(** Assigning to an object that the base state does not have. *)
Lemma stable_set_new R `{!PreOrder R} W s0 st l k v r st' :
  stable R W s0 st -> l ∉ dom (heap s0) ->
  set (VRef l) k v st = (r, st') -> stable R W s0 st'.
Proof.
  intros [HK H] Hl Hrun. unfold set in Hrun.
  destruct (heap st !! l) as [ob|] eqn:E.
  2:{ injection Hrun as <- <-. split; assumption. }
  injection Hrun as <- <-. split; [exact HK|]. intros x o Hx. cbn.
  rewrite lookup_insert_ne; [apply H, Hx|].
  intros ->. apply Hl. eapply elem_of_dom_2, Hx.
Qed.

Lemma stmt_GPUValidationError_stable st st' :
  stmt_GPUValidationError e st = (Returns tt, st') ->
  stable eq ["GPUValidationError"] st st'.
Proof.
  intros H. unfold stmt_GPUValidationError, class_GPUValidationError in H.
  apply bind_run in H as (c & s5 & Hc & H).
  apply bind_run in Hc as (ctor & s1 & H1 & Hc).
  apply bind_run in Hc as (proto & s2 & H2 & Hc).
  apply bind_run in Hc as (u3 & s3 & H3 & Hc).
  apply bind_run in Hc as (u4 & s4 & H4 & Hc).
  injection Hc as <- <-.
  assert (stable eq ["GPUValidationError"] st s1) as S1
    by (eapply run_stable, H1; apply steady_alloc; exact _).
  assert (stable eq ["GPUValidationError"] s1 s2) as S12
    by (eapply run_stable, H2; apply steady_alloc; exact _).
  apply alloc_run in H1 as (lc & -> & Hlc & _).
  apply alloc_run in H2 as (lp & -> & Hlp & _).
  assert (stable eq ["GPUValidationError"] st s2) as S2
    by (eapply stable_trans; [exact _ | exact S1 | exact S12]).
  assert (stable eq ["GPUValidationError"] st s3) as S3.
  { eapply stable_set_new; [exact _ | exact S2 | | exact H3].
    intros Hin. apply Hlp. eapply stable_dom; [exact S1 | exact Hin]. }
  assert (stable eq ["GPUValidationError"] st s4) as S4.
  { eapply stable_set_new; [exact _ | exact S3 | exact Hlc | exact H4]. }
  eapply stable_trans; [exact _ | exact S4|].
  eapply run_stable, H. apply steady_set; [exact _ | in_list].
Qed.

Lemma stable_step W1 W2 W st sm st' :
  stable eq W1 st sm -> stable eq W2 sm st' -> W1 ⊆ W -> W2 ⊆ W ->
  stable eq W st st'.
Proof.
  intros H1 H2 HW1 HW2.
  apply (stable_trans eq W st sm st').
  - exact (stable_weaken eq W1 W st sm HW1 H1).
  - exact (stable_weaken eq W2 W sm st' HW2 H2).
Qed.

(** cts.js, run to its end, leaves its properties in place. *)
Lemma cts_main_run st0 st1 :
  cts_main e st0 = (Returns tt, st1) ->
  stable eq main_writes st0 st1 /\
  exists ap dp s p, installed e st1 ap dp s p.
Proof.
  intros H. unfold cts_main in H.
  apply bind_run in H as ([] & s1 & H1 & H).
  apply bind_run in H as ([] & s2 & H2 & H).
  apply bind_run in H as ([] & s3 & H3 & H).
  apply bind_run in H as ([] & s4 & H4 & H).
  apply bind_run in H as ([] & s5 & H5 & H).
  apply bind_run in H as ([] & s6 & H6 & H7).
  destruct (stmt_create_run _ _ H1) as (S01 & x & fc & Hx & Hcreate & Hfc).
  destruct (stmt_features_run _ _ H2) as (S12 & ap & s & Hap & Hfeat & Hs).
  destruct (stmt_lost_run _ _ H3) as (S23 & dp & p & Hdp & Hlost & Hp).
  destruct (stmt_function_run "GPUDevice" "pushErrorScope" fn_pushErrorScope
              _ _ H4) as (S34 & dp4 & f4 & Hdp4 & Hpush & Hf4).
  destruct (stmt_function_run "GPUDevice" "popErrorScope" fn_popErrorScope
              _ _ H5) as (S45 & dp5 & f5 & Hdp5 & Hpop & Hf5).
  pose proof (stmt_GPUBufferUsage_stable _ _ H6) as S56.
  pose proof (stmt_GPUValidationError_stable _ _ H7) as S67.
  pose proof (stable_step ["GPUBufferUsage"] ["GPUValidationError"] ["GPUBufferUsage"; "GPUValidationError"] _ _ _ S56 S67
                ltac:(sub_list) ltac:(sub_list)) as T5.
  pose proof (stable_step ["popErrorScope"] ["GPUBufferUsage"; "GPUValidationError"] ["popErrorScope"; "GPUBufferUsage"; "GPUValidationError"] _ _ _ S45 T5
                ltac:(sub_list) ltac:(sub_list)) as T4.
  pose proof (stable_step ["pushErrorScope"] ["popErrorScope"; "GPUBufferUsage"; "GPUValidationError"] ["pushErrorScope"; "popErrorScope"; "GPUBufferUsage"; "GPUValidationError"] _ _ _ S34 T4
                ltac:(sub_list) ltac:(sub_list)) as T3.
  pose proof (stable_step ["lost"] ["pushErrorScope"; "popErrorScope"; "GPUBufferUsage"; "GPUValidationError"] ["lost"; "pushErrorScope"; "popErrorScope"; "GPUBufferUsage"; "GPUValidationError"] _ _ _ S23 T3
                ltac:(sub_list) ltac:(sub_list)) as T2.
  pose proof (stable_step ["features"] ["lost"; "pushErrorScope"; "popErrorScope"; "GPUBufferUsage"; "GPUValidationError"] ["features"; "lost"; "pushErrorScope"; "popErrorScope"; "GPUBufferUsage"; "GPUValidationError"] _ _ _ S12 T2
                ltac:(sub_list) ltac:(sub_list)) as T1.
  pose proof (stable_step ["create"] ["features"; "lost"; "pushErrorScope"; "popErrorScope"; "GPUBufferUsage"; "GPUValidationError"] ["create"; "features"; "lost"; "pushErrorScope"; "popErrorScope"; "GPUBufferUsage"; "GPUValidationError"] _ _ _ S01 T1
                ltac:(sub_list) ltac:(sub_list)) as T0.
  split; [exact T0|].
  assert (forall st cls q W, stable eq W st st1 -> W ⊆ main_writes ->
            cls = "GPUAdapter" \/ cls = "GPUDevice" ->
            class_prototype st (gpu e) cls = Some q ->
            class_prototype st1 (gpu e) cls = Some q) as Hclass.
  { intros st cls q W Hst HW Hcls Hq.
    eapply (class_prototype_stable eq main_writes);
      [exact (stable_weaken eq W main_writes st st1 HW Hst) | | | exact Hq].
    - destruct Hcls as [->| ->]; not_in_list.
    - not_in_list. }
  pose proof (Hclass _ _ _ _ T1 ltac:(sub_list) (or_introl eq_refl) Hap) as Hap1.
  pose proof (Hclass _ _ _ _ T2 ltac:(sub_list) (or_intror eq_refl) Hdp) as Hdp1.
  pose proof (Hclass _ _ _ _ T3 ltac:(sub_list) (or_intror eq_refl) Hdp4) as Hdp41.
  pose proof (Hclass _ _ _ _ T4 ltac:(sub_list) (or_intror eq_refl) Hdp5) as Hdp51.
  assert (dp4 = dp) as -> by congruence.
  assert (dp5 = dp) as -> by congruence.
  exists ap, dp, s, p. split.
  - exact Hap1.
  - exact Hdp1.
  - eapply owns_stable; [exact T2 | not_in_list | exact Hfeat].
  - eapply has_slot_stable; [exact T2 | exact Hs].
  - eapply owns_stable; [exact T3 | not_in_list | exact Hlost].
  - eapply has_slot_stable; [exact T3 | exact Hp].
  - exists f4. split.
    + eapply owns_stable; [exact T4 | not_in_list | exact Hpush].
    + eapply has_slot_stable; [exact T4 | exact Hf4].
  - exists f5. split.
    + eapply owns_stable; [exact T5 | not_in_list | exact Hpop].
    + eapply has_slot_stable; [exact T5 | exact Hf5].
  - exists x, fc. split; [exact Hx|]. split.
    + eapply owns_stable; [exact T1 | not_in_list | exact Hcreate].
    + eapply has_slot_stable; [exact T1 | exact Hfc].
Qed.

End Statements.

End MainFacts.

(** ** The patched binding at work *)

Module ShimFacts.
Import Js Heap Shim Program Logic HeapFacts OpFacts SteadyFacts MainFacts.

Lemma untouched_spec names acts k :
  untouched names acts = true -> k ∈ names -> k ∉ written acts.
Proof.
  unfold untouched. rewrite forallb_forall. intros H Hk Hw.
  specialize (H k (proj1 (list_elem_of_In _ _) Hw)).
  apply negb_true_iff, bool_decide_eq_false in H. contradiction.
Qed.

Lemma lookup_instance st proto names d k v :
  instance_of st proto names d = true -> k ∈ names -> owns st proto k v ->
  lookup_prop (heap st) d k = Returns v.
Proof.
  unfold instance_of. destruct d; try discriminate.
  destruct (heap st !! l) as [ob|] eqn:E; [|discriminate].
  intros H Hk (o' & Hp & Hv). apply andb_true_iff in H as [H1 H2].
  apply bool_decide_eq_true in H1. rewrite forallb_forall in H2.
  specialize (H2 k (proj1 (list_elem_of_In _ _) Hk)).
  apply bool_decide_eq_true in H2.
  eapply lookup_prop_inherited; eauto.
Qed.

Lemma invoke_function st o k f fo args :
  lookup_prop (heap st) o k = Returns (VRef f) ->
  has_slot st f (SFunction fo) ->
  invoke o k args st =
  (let! r := call_fn fo args in let! _ := learn r in ret r)
    (snd (learn (VRef f) st)).
Proof.
  intros Hl Hf. unfold invoke, bind at 1, get. rewrite Hl.
  cbn [snd learn]. apply call_function. exact Hf.
Qed.

(** A method that is one of the empty arrow functions returns [undefined]
    and leaves the heap as it is. *)
Lemma invoke_noop st o k f fo args :
  lookup_prop (heap st) o k = Returns (VRef f) ->
  has_slot st f (SFunction fo) ->
  call_fn fo args = ret VUndefined ->
  fst (invoke o k args st) = Returns VUndefined /\
  heap (snd (invoke o k args st)) = heap st.
Proof.
  intros Hl Hf Hfo. rewrite (invoke_function _ _ _ _ _ _ Hl Hf), Hfo.
  split; reflexivity.
Qed.

Section AfterLoading.
Context (e : env) (st0 st1 : state) (acts : list action) (st : state).
Hypothesis Hload : cts_main e st0 = (Returns tt, st1).
Hypothesis Hrun : steps e acts st1 = Some st.

Lemma later_stable : stable same_kind (written acts) st1 st.
Proof. eapply steps_stable; [|exact Hrun]. auto. Qed.

Lemma later_owns names l k v :
  untouched names acts = true -> k ∈ names ->
  owns st1 l k v -> owns st l k v.
Proof.
  intros Hu Hk. apply (owns_stable same_kind (written acts) st1 st l k v later_stable).
  eapply untouched_spec; eauto.
Qed.

Lemma later_function l f :
  has_slot st1 l (SFunction f) -> has_slot st l (SFunction f).
Proof. apply function_slot_stable with (W := written acts), later_stable. Qed.

Lemma device_prototype dp ap' dp' s p :
  class_prototype st1 (gpu e) "GPUDevice" = Some dp ->
  installed e st1 ap' dp' s p -> dp' = dp.
Proof. intros H [_ H' _ _ _ _ _ _ _]. congruence. Qed.

Lemma adapter_prototype ap ap' dp' s p :
  class_prototype st1 (gpu e) "GPUAdapter" = Some ap ->
  installed e st1 ap' dp' s p -> ap' = ap.
Proof. intros H [H' _ _ _ _ _ _ _ _]. congruence. Qed.

End AfterLoading.

(** C10: the exported create function is constant.  Once cts.js has run,
    and whatever the program has done since short of assigning
    exports.create anew, create(f1) and create(f2) return the same object,
    the module object of the binding, for any two flag values f1 and f2. *)
Theorem create_is_constant (e : env) (st0 st1 : state) (acts : list action)
  (st : state) (f1 f2 : value)
  (Hload : cts_main e st0 = (Returns tt, st1))
  (Hrun : steps e acts st1 = Some st)
  (Hkept : untouched ["create"] acts = true) :
  fst (invoke (exports e) "create" [f1] st) = Returns (gpu e) /\
  fst (invoke (exports e) "create" [f2] st) = Returns (gpu e) /\
  create (gpu e) f1 = create (gpu e) f2.
Proof.
  destruct (cts_main_run e st0 st1 Hload) as (_ & ap & dp & s & p & Hinst).
  destruct (inst_create _ _ _ _ _ _ Hinst) as (x & f & Hx & Hown & Hf).
  pose proof (later_owns e st1 acts st Hrun ["create"] x "create" (VRef f)
                Hkept ltac:(in_list) Hown) as Hown'.
  pose proof (later_function e st1 acts st Hrun f _ Hf) as Hf'.
  destruct Hown' as (ob & Hob & Hk).
  pose proof (lookup_prop_own _ _ _ _ _ Hob Hk) as Hl.
  rewrite Hx.
  rewrite !(invoke_function _ _ _ _ _ _ Hl Hf').
  repeat split; cbn; destruct (gpu e); reflexivity.
Qed.

Lemma create_is_constant_witness :
  cts_main Sample.env0 Sample.state0 = (Returns tt, Sample.loaded) /\
  steps Sample.env0 Sample.program Sample.loaded = Some Sample.running /\
  untouched ["create"] Sample.program = true /\
  fst (invoke (exports Sample.env0) "create" [VNum 1] Sample.running)
    = Returns (gpu Sample.env0) /\
  fst (invoke (exports Sample.env0) "create" [VStr "flags"] Sample.running)
    = Returns (gpu Sample.env0).
Proof.
  assert (cts_main Sample.env0 Sample.state0 = (Returns tt, Sample.loaded))
    as Hload by (vm_compute; reflexivity).
  assert (steps Sample.env0 Sample.program Sample.loaded = Some Sample.running)
    as Hrun by (vm_compute; reflexivity).
  assert (untouched ["create"] Sample.program = true) as Hkept by reflexivity.
  destruct (create_is_constant Sample.env0 Sample.state0 Sample.loaded
              Sample.program Sample.running (VNum 1) (VStr "flags")
              Hload Hrun Hkept)
    as (H1 & H2 & _).
  repeat (split; [assumption|]). assumption.
Defined.


(** The two error-scope methods of a device, in any state the program can
    bring about without assigning them anew. *)
Lemma scope_method_noop (e : env) (st0 st1 : state) (acts : list action)
  (st : state) (dp : loc) (d : value) (k : string) (fo : fn) (args : list value) :
  cts_main e st0 = (Returns tt, st1) ->
  steps e acts st1 = Some st ->
  untouched [k] acts = true ->
  class_prototype st1 (gpu e) "GPUDevice" = Some dp ->
  instance_of st dp [k] d = true ->
  (k = "pushErrorScope" /\ fo = fn_pushErrorScope) \/
  (k = "popErrorScope" /\ fo = fn_popErrorScope) ->
  fst (invoke d k args st) = Returns VUndefined /\
  heap (snd (invoke d k args st)) = heap st.
Proof.
  intros Hload Hrun Hkept Hdp Hd Hk.
  destruct (cts_main_run e st0 st1 Hload) as (_ & ap & dp' & s & p & Hinst).
  pose proof (device_prototype e st1 dp ap dp' s p Hdp Hinst) as ->.
  assert (exists f, owns st1 dp k (VRef f) /\ has_slot st1 f (SFunction fo))
    as (f & Hown & Hf).
  { destruct Hk as [[-> ->]|[-> ->]];
      [exact (inst_push _ _ _ _ _ _ Hinst) | exact (inst_pop _ _ _ _ _ _ Hinst)]. }
  pose proof (later_owns e st1 acts st Hrun [k] dp k (VRef f)
                Hkept ltac:(in_list) Hown) as Hown'.
  pose proof (later_function e st1 acts st Hrun f _ Hf) as Hf'.
  pose proof (lookup_instance st dp [k] d k (VRef f) Hd ltac:(in_list) Hown')
    as Hl.
  apply (invoke_noop st d k f fo args Hl Hf').
  destruct Hk as [[_ ->]|[_ ->]]; reflexivity.
Qed.

Lemma instance_of_fewer st proto names names' d :
  instance_of st proto names d = true -> names' ⊆ names ->
  instance_of st proto names' d = true.
Proof.
  unfold instance_of. destruct d; auto. destruct (heap st !! l); auto.
  intros H Hsub. apply andb_true_iff in H as [H1 H2].
  apply andb_true_iff. split; [exact H1|].
  rewrite forallb_forall in *. intros k Hk. apply H2.
  apply list_elem_of_In, Hsub, list_elem_of_In, Hk.
Qed.

(** The specified stack: a scope that was pushed and saw no error pops
    with no error; one that saw an error of its filter pops with it. *)
Lemma spec_push_pop flt stack :
  ScopeSpec.spec_popErrorScope (ScopeSpec.spec_pushErrorScope flt stack)
  = (ScopeSpec.Resolves None, stack).
Proof. reflexivity. Qed.

Lemma spec_push_raise_pop err stack :
  ScopeSpec.spec_popErrorScope
    (ScopeSpec.spec_raise err
       (ScopeSpec.spec_pushErrorScope (ScopeSpec.error_filter err) stack))
  = (ScopeSpec.Resolves (Some err), stack).
Proof.
  cbn. rewrite bool_decide_eq_true_2 by reflexivity. reflexivity.
Qed.

(** C4: for every filter f, pushErrorScope(f) followed, with no error in
    between, by popErrorScope() gives a result without an error: on every
    device of the patched binding both calls return undefined, and
    awaiting that result resumes with undefined, as the specified stack
    resolves with no error on the same round trip. *)
Theorem pushErrorScope_popErrorScope_roundtrip (e : env) (st0 st1 : state)
  (acts : list action) (st : state) (dp : loc) (device f : value)
  (Hload : cts_main e st0 = (Returns tt, st1))
  (Hrun : steps e acts st1 = Some st)
  (Hkept : untouched ["pushErrorScope"; "popErrorScope"] acts = true)
  (Hclass : class_prototype st1 (gpu e) "GPUDevice" = Some dp)
  (Hdevice :
     instance_of st dp ["pushErrorScope"; "popErrorScope"] device = true) :
  exists st_pushed st_popped,
    invoke device "pushErrorScope" [f] st = (Returns VUndefined, st_pushed) /\
    invoke device "popErrorScope" [] st_pushed = (Returns VUndefined, st_popped) /\
    await st_popped VUndefined = Resumes VUndefined /\
    no_error VUndefined = true /\
    heap st_popped = heap st /\
    forall flt stack,
      pop_agrees (Returns VUndefined)
        (fst (ScopeSpec.spec_popErrorScope
                (ScopeSpec.spec_pushErrorScope flt stack))) = true.
Proof.
  assert (forall k, k = "pushErrorScope" \/ k = "popErrorScope" ->
            untouched [k] acts = true) as Hk.
  { intros k Hk. unfold untouched in *. rewrite forallb_forall in *.
    intros x Hx. specialize (Hkept x Hx).
    apply negb_true_iff, bool_decide_eq_false in Hkept.
    apply negb_true_iff, bool_decide_eq_false. intros Hin. apply Hkept.
    apply list_elem_of_singleton in Hin. subst x.
    destruct Hk as [->| ->]; in_list. }
  destruct (scope_method_noop e st0 st1 acts st dp device "pushErrorScope"
              fn_pushErrorScope [f] Hload Hrun (Hk _ (or_introl eq_refl)) Hclass)
    as [Hr1 Hh1].
  { eapply instance_of_fewer; [exact Hdevice | sub_list]. }
  { left. auto. }
  destruct (invoke device "pushErrorScope" [f] st) as [r1 s1] eqn:E1.
  cbn in Hr1, Hh1. subst r1.
  assert (exists f2, lookup_prop (heap s1) device "popErrorScope" = Returns (VRef f2)
            /\ has_slot s1 f2 (SFunction fn_popErrorScope)) as (f2 & Hl2 & Hf2).
  { destruct (cts_main_run e st0 st1 Hload) as (_ & ap & dp' & s & p & Hinst).
    pose proof (device_prototype e st1 dp ap dp' s p Hclass Hinst) as ->.
    destruct (inst_pop _ _ _ _ _ _ Hinst) as (f2 & Hown & Hf2).
    exists f2. split.
    - unfold lookup_prop in *. rewrite Hh1.
      change (lookup_prop (heap st) device "popErrorScope" = Returns (VRef f2)).
      eapply (lookup_instance st dp ["popErrorScope"]);
        [eapply instance_of_fewer; [exact Hdevice | sub_list] | in_list |].
      eapply (later_owns e st1 acts st Hrun ["popErrorScope"]);
        [apply Hk; now right | in_list | exact Hown].
    - unfold has_slot. rewrite Hh1.
      exact (later_function e st1 acts st Hrun f2 _ Hf2). }
  destruct (invoke_noop s1 device "popErrorScope" f2 fn_popErrorScope []
              Hl2 Hf2 eq_refl) as [Hr2 Hh2].
  destruct (invoke device "popErrorScope" [] s1) as [r2 s2] eqn:E2.
  cbn in Hr2, Hh2. subst r2.
  exists s1, s2. repeat split; try congruence.
Qed.

Lemma pushErrorScope_popErrorScope_roundtrip_witness :
  cts_main Sample.env0 Sample.state0 = (Returns tt, Sample.loaded) /\
  steps Sample.env0 Sample.program Sample.loaded = Some Sample.running /\
  untouched ["pushErrorScope"; "popErrorScope"] Sample.program = true /\
  class_prototype Sample.loaded (gpu Sample.env0) "GPUDevice" = Some 5%positive /\
  instance_of Sample.running 5 ["pushErrorScope"; "popErrorScope"] (VRef 21)
    = true /\
  exists st_pushed st_popped,
    invoke (VRef 21) "pushErrorScope" [VStr "validation"] Sample.running
      = (Returns VUndefined, st_pushed) /\
    invoke (VRef 21) "popErrorScope" [] st_pushed
      = (Returns VUndefined, st_popped) /\
    await st_popped VUndefined = Resumes VUndefined /\
    no_error VUndefined = true /\
    heap st_popped = heap Sample.running /\
    forall flt stack,
      pop_agrees (Returns VUndefined)
        (fst (ScopeSpec.spec_popErrorScope
                (ScopeSpec.spec_pushErrorScope flt stack))) = true.
Proof.
  assert (cts_main Sample.env0 Sample.state0 = (Returns tt, Sample.loaded))
    as Hload by (vm_compute; reflexivity).
  assert (steps Sample.env0 Sample.program Sample.loaded = Some Sample.running)
    as Hrun by (vm_compute; reflexivity).
  assert (untouched ["pushErrorScope"; "popErrorScope"] Sample.program = true)
    as Hkept by reflexivity.
  assert (class_prototype Sample.loaded (gpu Sample.env0) "GPUDevice"
          = Some 5%positive) as Hclass by (vm_compute; reflexivity).
  assert (instance_of Sample.running 5 ["pushErrorScope"; "popErrorScope"]
            (VRef 21) = true) as Hdevice by (vm_compute; reflexivity).
  repeat (split; [assumption|]).
  exact (pushErrorScope_popErrorScope_roundtrip Sample.env0 Sample.state0
           Sample.loaded Sample.program Sample.running 5%positive (VRef 21)
           (VStr "validation") Hload Hrun Hkept Hclass Hdevice).
Defined.

(** C5, as the code has it: popErrorScope keeps no stack of scopes.  On
    every device of the patched binding, whatever was pushed or raised
    before and also when nothing was pushed, it returns undefined, a result
    without an error, and changes no object; it never reports a usage
    error.  So it agrees with the pop of the specified stack exactly when
    that stack has a top scope that captured nothing, and disagrees with it
    whenever the top scope captured an error. *)
Theorem popErrorScope_is_a_stub (e : env) (st0 st1 : state)
  (acts : list action) (st : state) (dp : loc) (device : value)
  (args : list value)
  (Hload : cts_main e st0 = (Returns tt, st1))
  (Hrun : steps e acts st1 = Some st)
  (Hkept : untouched ["popErrorScope"] acts = true)
  (Hclass : class_prototype st1 (gpu e) "GPUDevice" = Some dp)
  (Hdevice : instance_of st dp ["popErrorScope"] device = true) :
  fst (invoke device "popErrorScope" args st) = Returns VUndefined /\
  heap (snd (invoke device "popErrorScope" args st)) = heap st /\
  (forall stack,
     pop_agrees (fst (invoke device "popErrorScope" args st))
       (fst (ScopeSpec.spec_popErrorScope stack)) = true <->
     exists s rest, stack = s :: rest /\ ScopeSpec.captured s = None) /\
  (forall err stack,
     pop_agrees (fst (invoke device "popErrorScope" args st))
       (fst (ScopeSpec.spec_popErrorScope
               (ScopeSpec.spec_raise err
                  (ScopeSpec.spec_pushErrorScope
                     (ScopeSpec.error_filter err) stack)))) = false).
Proof.
  destruct (scope_method_noop e st0 st1 acts st dp device "popErrorScope"
              fn_popErrorScope args Hload Hrun Hkept Hclass Hdevice)
    as [Hr Hh]; [right; auto|].
  split; [exact Hr|]. split; [exact Hh|]. split.
  - intros stack. rewrite Hr. destruct stack as [|[flt [err|]] rest]; cbn.
    + split; [discriminate | intros (s & r & H & _); discriminate].
    + split; [discriminate|]. intros (s & r & H & Hc). injection H as <- <-.
      discriminate.
    + split; [eauto | reflexivity].
  - intros err stack. rewrite Hr, spec_push_raise_pop. reflexivity.
Qed.

Lemma popErrorScope_is_a_stub_witness :
  cts_main Sample.env0 Sample.state0 = (Returns tt, Sample.loaded) /\
  steps Sample.env0 Sample.program Sample.loaded = Some Sample.running /\
  untouched ["popErrorScope"] Sample.program = true /\
  class_prototype Sample.loaded (gpu Sample.env0) "GPUDevice" = Some 5%positive /\
  instance_of Sample.running 5 ["popErrorScope"] (VRef 21) = true /\
  fst (invoke (VRef 21) "popErrorScope" [] Sample.running) = Returns VUndefined.
Proof.
  assert (cts_main Sample.env0 Sample.state0 = (Returns tt, Sample.loaded))
    as Hload by (vm_compute; reflexivity).
  assert (steps Sample.env0 Sample.program Sample.loaded = Some Sample.running)
    as Hrun by (vm_compute; reflexivity).
  assert (untouched ["popErrorScope"] Sample.program = true)
    as Hkept by reflexivity.
  assert (class_prototype Sample.loaded (gpu Sample.env0) "GPUDevice"
          = Some 5%positive) as Hclass by (vm_compute; reflexivity).
  assert (instance_of Sample.running 5 ["popErrorScope"] (VRef 21) = true)
    as Hdevice by (vm_compute; reflexivity).
  repeat (split; [assumption|]).
  exact (proj1 (popErrorScope_is_a_stub Sample.env0 Sample.state0
                  Sample.loaded Sample.program Sample.running 5%positive
                  (VRef 21) [] Hload Hrun Hkept Hclass Hdevice)).
Defined.

(** C5 as the specification states it fails: on a device on which no scope
    was ever pushed the specification makes popErrorScope a usage error,
    and the code returns undefined. *)
Lemma popErrorScope_empty_stack_is_silent :
  fst (ScopeSpec.spec_popErrorScope []) = ScopeSpec.UsageError /\
  fst (invoke (VRef 21) "popErrorScope" [] Sample.running)
    = Returns VUndefined /\
  pop_agrees (fst (invoke (VRef 21) "popErrorScope" [] Sample.running))
    (fst (ScopeSpec.spec_popErrorScope [])) = false.
Proof. vm_compute. auto. Qed.


Lemma set_add_slot st s els v :
  has_slot st s (SSet els) ->
  has_slot (snd (set_add (VRef s) v st)) s
    (SSet (if bool_decide (v ∈ els) then els else els ++ [v])).
Proof.
  unfold has_slot, slot_of, set_add.
  destruct (heap st !! s) as [ob|] eqn:E; [|discriminate]. cbn.
  destruct (obj_slot ob) as [|els'| | | |] eqn:Es; try discriminate.
  intros [= ->].
  destruct (bool_decide (v ∈ els)); cbn.
  - rewrite E. cbn. now rewrite Es.
  - now rewrite lookup_insert_eq.
Qed.

Lemma observed_features_set st a s els :
  lookup_prop (heap st) a "features" = Returns (VRef s) ->
  has_slot st s (SSet els) -> observed_features st a = Some els.
Proof.
  intros Hl Hs. unfold observed_features. rewrite Hl.
  unfold has_slot in Hs. now rewrite Hs.
Qed.

(** C7, as the code has it: the features of all adapters are one Set
    object, the one cts.js puts on GPUAdapter.prototype, empty when it is
    installed.  It is not immutable: any two adapters observe the same
    elements, and a tag added through the features of one is observed
    through the features of the other. *)
Theorem features_is_one_shared_set (e : env) (st0 st1 : state)
  (acts : list action) (st : state) (ap : loc) (a b tag : value)
  (Hload : cts_main e st0 = (Returns tt, st1))
  (Hrun : steps e acts st1 = Some st)
  (Hkept : untouched ["features"] acts = true)
  (Hclass : class_prototype st1 (gpu e) "GPUAdapter" = Some ap)
  (Ha : instance_of st ap ["features"] a = true)
  (Hb : instance_of st ap ["features"] b = true) :
  exists s els,
    owns st1 ap "features" (VRef s) /\
    has_slot st1 s (SSet []) /\
    lookup_prop (heap st) a "features" = Returns (VRef s) /\
    lookup_prop (heap st) b "features" = Returns (VRef s) /\
    observed_features st a = Some els /\
    observed_features st b = Some els /\
    observed_features (snd (features_add a tag st)) b =
      Some (if bool_decide (tag ∈ els) then els else els ++ [tag]).
Proof.
  destruct (cts_main_run e st0 st1 Hload) as (_ & ap' & dp & s & p & Hinst).
  pose proof (adapter_prototype e st1 ap ap' dp s p Hclass Hinst) as ->.
  pose proof (inst_features _ _ _ _ _ _ Hinst) as Hown.
  pose proof (inst_features_empty _ _ _ _ _ _ Hinst) as Hempty.
  pose proof (later_owns e st1 acts st Hrun ["features"] ap "features" (VRef s)
                Hkept ltac:(in_list) Hown) as Hown'.
  destruct (slot_stable same_kind (written acts) st1 st s (SSet [])
              (later_stable e st1 acts st Hrun) Hempty) as (s' & Hs' & Hkind).
  destruct s' as [|els| | | |]; cbn in Hkind; try discriminate.
  pose proof (lookup_instance st ap ["features"] a "features" (VRef s)
                Ha ltac:(in_list) Hown') as Hla.
  pose proof (lookup_instance st ap ["features"] b "features" (VRef s)
                Hb ltac:(in_list) Hown') as Hlb.
  exists s, els.
  split; [exact Hown|]. split; [exact Hempty|].
  split; [exact Hla|]. split; [exact Hlb|].
  split; [exact (observed_features_set st a s els Hla Hs')|].
  split; [exact (observed_features_set st b s els Hlb Hs')|].
  unfold features_add, bind, get. rewrite Hla. cbn [snd learn].
  set (st' := with_known st ({[s]} ∪ known st)).
  assert (has_slot st' s (SSet els)) as Hs'' by exact Hs'.
  apply (observed_features_set _ b s); [|apply set_add_slot, Hs''].
  apply (lookup_prop_stable same_kind [] st _ b "features" (VRef s));
    [|not_in_list|exact Hlb].
  eapply stable_trans; [exact _ | apply (stable_learn same_kind [] st s) |].
  apply steady_set_add.
Qed.

Lemma features_is_one_shared_set_witness :
  cts_main Sample.env0 Sample.state0 = (Returns tt, Sample.loaded) /\
  steps Sample.env0 Sample.program Sample.loaded = Some Sample.running /\
  untouched ["features"] Sample.program = true /\
  class_prototype Sample.loaded (gpu Sample.env0) "GPUAdapter" = Some 3%positive /\
  instance_of Sample.running 3 ["features"] (VRef 19) = true /\
  instance_of Sample.running 3 ["features"] (VRef 20) = true /\
  exists s els,
    owns Sample.loaded 3%positive "features" (VRef s) /\
    has_slot Sample.loaded s (SSet []) /\
    lookup_prop (heap Sample.running) (VRef 19) "features" = Returns (VRef s) /\
    lookup_prop (heap Sample.running) (VRef 20) "features" = Returns (VRef s) /\
    observed_features Sample.running (VRef 19) = Some els /\
    observed_features Sample.running (VRef 20) = Some els /\
    observed_features
      (snd (features_add (VRef 19) (VStr "timestamp-query") Sample.running))
      (VRef 20) =
      Some (if bool_decide (VStr "timestamp-query" ∈ els) then els
            else els ++ [VStr "timestamp-query"]).
Proof.
  assert (cts_main Sample.env0 Sample.state0 = (Returns tt, Sample.loaded))
    as Hload by (vm_compute; reflexivity).
  assert (steps Sample.env0 Sample.program Sample.loaded = Some Sample.running)
    as Hrun by (vm_compute; reflexivity).
  assert (untouched ["features"] Sample.program = true) as Hkept by reflexivity.
  assert (class_prototype Sample.loaded (gpu Sample.env0) "GPUAdapter"
          = Some 3%positive) as Hclass by (vm_compute; reflexivity).
  assert (instance_of Sample.running 3 ["features"] (VRef 19) = true)
    as Ha by (vm_compute; reflexivity).
  assert (instance_of Sample.running 3 ["features"] (VRef 20) = true)
    as Hb by (vm_compute; reflexivity).
  repeat (split; [assumption|]).
  exact (features_is_one_shared_set Sample.env0 Sample.state0 Sample.loaded
           Sample.program Sample.running 3%positive (VRef 19) (VRef 20)
           (VStr "timestamp-query") Hload Hrun Hkept Hclass Ha Hb).
Defined.

(** C7 as the specification states it fails: adding a tag through the
    features of adapter 19 changes the feature set observed on adapter 20,
    from empty to that tag. *)
Lemma features_add_changes_other_adapter :
  observed_features Sample.running (VRef 20) = Some [] /\
  observed_features
    (snd (features_add (VRef 19) (VStr "timestamp-query") Sample.running))
    (VRef 20) = Some [VStr "timestamp-query"].
Proof. vm_compute. auto. Qed.

End ShimFacts.

(** ** The promise nobody can settle *)

Module SealFacts.
Import Js Heap Shim Program Logic HeapFacts OpFacts SteadyFacts MainFacts.

Lemma value_in_safe D v r : value_in D v = true -> v = VRef r -> r ∈ D.
Proof. intros H ->. cbn in H. now apply bool_decide_eq_true in H. Qed.

Lemma well_formed_Inv e st :
  well_formed e st = true -> Inv ∅ ∅ st /\ knows st (gpu e).
Proof.
  unfold well_formed. intros H.
  apply andb_true_iff in H as [H Hgpu]. apply andb_true_iff in H as [Hk Hc].
  apply bool_decide_eq_true in Hk. apply bool_decide_eq_true in Hc.
  split; [|exact Hgpu].
  assert (forall l o r, heap st !! l = Some o -> holds o (VRef r) ->
            r ∈ dom (heap st)) as Hclosed.
  { intros l o r Hl Hh. specialize (Hc l o Hl). cbn in Hc.
    apply andb_true_iff in Hc as [Hp Hs].
    apply bool_decide_eq_true in Hp. rewrite forallb_forall in Hs.
    destruct Hh as [[k Hk']|Hin].
    - eapply value_in_safe; [exact (Hp k _ Hk') | reflexivity].
    - eapply value_in_safe; [|reflexivity].
      apply Hs, list_elem_of_In, Hin. }
  split; try exact Hclosed; set_solver.
Qed.

(** A fresh pending promise, of which no object is a resolving function,
    joins the promises that only sealed objects can settle. *)
Lemma Inv_promote S T st p :
  Inv S T st -> has_slot st p (SPromise Pending) ->
  (forall l o, heap st !! l = Some o -> ~ resolver_of p (obj_slot o)) ->
  Inv S ({[p]} ∪ T) st.
Proof.
  intros HI Hp Hnone. destruct HI. split; auto.
  - intros q Hq. apply elem_of_union in Hq as [Hq|Hq]; [|auto].
    apply elem_of_singleton in Hq. subst q. exact Hp.
  - intros l o q Hl Hq Hr. apply elem_of_union in Hq as [Hq|Hq]; [|eauto].
    apply elem_of_singleton in Hq. subst q. destruct (Hnone l o Hl Hr).
Qed.

(** An object that the language makes and hands to nobody is sealed. *)
Lemma Inv_alloc_sealed S T st o :
  Inv S T st ->
  (forall v, holds o v -> safe S st v) ->
  Inv ({[fresh (dom (heap st))]} ∪ S) T
    (with_heap st (<[fresh (dom (heap st)):=o]> (heap st))).
Proof.
  intros HI Hsafe.
  pose proof (is_fresh (dom (heap st))) as Hfresh.
  set (l := fresh (dom (heap st))) in *.
  destruct HI. split; cbn.
  - rewrite dom_insert_L. set_solver.
  - intros l' o' r E Hh. rewrite dom_insert_L.
    destruct (decide (l = l')) as [<-|Hne].
    + rewrite lookup_insert_eq in E. injection E as <-.
      destruct (Hsafe _ Hh r eq_refl). set_solver.
    + rewrite lookup_insert_ne in E by exact Hne.
      specialize (inv_closed0 l' o' r E Hh). set_solver.
  - rewrite dom_insert_L. set_solver.
  - intros r Hr Hk. apply elem_of_union in Hr as [Hr|Hr].
    + apply elem_of_singleton in Hr. subst r. apply Hfresh. set_solver.
    + exact (inv_unknown0 r Hr Hk).
  - intros l' o' r E Hh Hr.
    assert (r ∈ dom (heap st) /\ r ∉ S) as [Hd HS].
    { destruct (decide (l = l')) as [<-|Hne].
      - rewrite lookup_insert_eq in E. injection E as <-.
        exact (Hsafe _ Hh r eq_refl).
      - rewrite lookup_insert_ne in E by exact Hne. split; eauto. }
    apply elem_of_union in Hr as [Hr|Hr]; [|contradiction].
    apply elem_of_singleton in Hr. subst r. contradiction.
  - intros q Hq. specialize (inv_pending0 q Hq). unfold slot_of in *.
    rewrite lookup_insert_ne; [exact inv_pending0|].
    intros <-. apply Hfresh.
    destruct (heap st !! l) eqn:E; [|discriminate]. eapply elem_of_dom_2, E.
  - intros l' o' q E Hq Hr.
    destruct (decide (l = l')) as [<-|Hne]; [set_solver|].
    rewrite lookup_insert_ne in E by exact Hne.
    apply elem_of_union. right. eauto.
Qed.


(** *** The statements of cts.js keep a well-formed state well-formed *)

Section StatementsKeep.
Context (W : list string) (S T : gset loc) (s0 : state) (e : env).

Local Abbreviation keeps := (keeps same_kind W S T s0).

Lemma no_resolver f :
  (forall p, f <> fn_resolve p) -> (forall p, f <> fn_reject p) ->
  forall q : loc, q ∈ T -> ~ resolver_of q (SFunction f).
Proof.
  intros H1 H2 q _ [H|H]; injection H as H; [eapply H1 | eapply H2]; eauto.
Qed.

Lemma hoare_keeps_unit K K1 (m : M unit) :
  K ⊆ K1 ->
  hoare (keeps K1) m (fun _ => keeps K1) (keeps K1) ->
  hoare (keeps K1) m (fun _ => keeps K) (keeps K).
Proof.
  intros HK H. eapply hoare_conseq; [exact H | auto | |].
  - intros a st Hk. eapply (keeps_weaken same_kind); [exact Hk | set_solver].
  - intros st Hk. eapply (keeps_weaken same_kind); [exact Hk | set_solver].
Qed.

Lemma hoare_keeps_abrupt {A} K K1 (m : M A) (Q : A -> state -> Prop) :
  K ⊆ K1 ->
  hoare (keeps K1) m Q (keeps K1) -> hoare (keeps K1) m Q (keeps K).
Proof.
  intros HK H. eapply hoare_conseq; [exact H | auto | auto |].
  intros st Hk. eapply (keeps_weaken same_kind); [exact Hk | set_solver].
Qed.

Lemma patch_keeps K cls key (mk : M value) :
  key ∈ W ->
  (forall K', hoare (keeps K') mk (fun v => keeps (K' ∪ refs v)) (keeps K')) ->
  hoare (keeps K)
    (let! c := get (gpu e) cls in
     let! proto := get c "prototype" in
     let! v := mk in
     set proto key v)
    (fun _ => keeps K) (keeps K).
Proof.
  intros Hkey Hmk.
  eapply hoare_bind with (Q := fun c => keeps (K ∪ refs c));
    [apply (get_keeps same_kind W S T s0)|].
  intros c.
  eapply hoare_bind with (Q := fun p => keeps (K ∪ refs c ∪ refs p)).
  { apply hoare_keeps_abrupt; [set_solver|].
    apply (get_keeps same_kind W S T s0). }
  intros proto.
  eapply hoare_bind with (Q := fun v => keeps (K ∪ refs c ∪ refs proto ∪ refs v)).
  { apply hoare_keeps_abrupt; [set_solver | apply Hmk]. }
  intros v. apply hoare_keeps_unit; [set_solver|].
  apply (set_keeps same_kind W S T s0); [exact Hkey | set_solver].
Qed.

Lemma function_keeps K f :
  slot_values (SFunction f) = [] ->
  (forall p, f <> fn_resolve p) -> (forall p, f <> fn_reject p) ->
  hoare (keeps K) (closure f) (fun v => keeps (K ∪ refs v)) (keeps K).
Proof.
  intros Hv H1 H2. apply (closure_keeps same_kind W S T s0).
  - intros v Hin. rewrite Hv in Hin. set_solver.
  - apply no_resolver; assumption.
Qed.

Lemma stmt_create_keeps K :
  "create" ∈ W -> refs (gpu e) ⊆ K ->
  hoare (keeps K) (stmt_create e) (fun _ => keeps K) (keeps K).
Proof.
  intros Hkey Hgpu. unfold stmt_create.
  eapply hoare_bind with (Q := fun f => keeps (K ∪ refs f)).
  - apply (closure_keeps same_kind W S T s0).
    + intros v Hin. cbn in Hin. apply list_elem_of_singleton in Hin. now subst.
    + apply no_resolver; discriminate.
  - intros f. apply hoare_keeps_unit; [set_solver|].
    apply (set_keeps same_kind W S T s0); [exact Hkey | set_solver].
Qed.

Lemma stmt_features_keeps K :
  "features" ∈ W ->
  hoare (keeps K) (stmt_features e) (fun _ => keeps K) (keeps K).
Proof.
  intros Hkey. apply patch_keeps; [exact Hkey|].
  intros K'. apply (new_Set_keeps same_kind W S T s0).
Qed.

Lemma stmt_pushErrorScope_keeps K :
  "pushErrorScope" ∈ W ->
  hoare (keeps K) (stmt_pushErrorScope e) (fun _ => keeps K) (keeps K).
Proof.
  intros Hkey. apply patch_keeps; [exact Hkey|].
  intros K'. apply function_keeps; [reflexivity | discriminate | discriminate].
Qed.

Lemma stmt_popErrorScope_keeps K :
  "popErrorScope" ∈ W ->
  hoare (keeps K) (stmt_popErrorScope e) (fun _ => keeps K) (keeps K).
Proof.
  intros Hkey. apply patch_keeps; [exact Hkey|].
  intros K'. apply function_keeps; [reflexivity | discriminate | discriminate].
Qed.

Lemma stmt_GPUBufferUsage_keeps K :
  "GPUBufferUsage" ∈ W ->
  hoare (keeps K) (stmt_GPUBufferUsage e) (fun _ => keeps K) (keeps K).
Proof.
  intros Hkey. unfold stmt_GPUBufferUsage.
  eapply hoare_bind with (Q := fun u => keeps (K ∪ refs u));
    [apply (get_keeps same_kind W S T s0)|].
  intros u. apply hoare_keeps_unit; [set_solver|].
  apply (set_keeps same_kind W S T s0); [exact Hkey | set_solver].
Qed.

Lemma class_GPUValidationError_keeps K :
  "constructor" ∈ W -> "prototype" ∈ W ->
  hoare (keeps K) class_GPUValidationError
    (fun v => keeps (K ∪ refs v)) (keeps K).
Proof.
  intros Hc Hp. unfold class_GPUValidationError.
  eapply hoare_bind with (Q := fun c => keeps (K ∪ refs c)).
  { apply function_keeps; [reflexivity | discriminate | discriminate]. }
  intros ctor.
  eapply hoare_bind with (Q := fun p => keeps (K ∪ refs ctor ∪ refs p)).
  { apply hoare_keeps_abrupt; [set_solver|].
    apply (new_plain_keeps same_kind W S T s0); [reflexivity | discriminate]. }
  intros proto.
  eapply hoare_bind with (Q := fun _ => keeps (K ∪ refs ctor ∪ refs proto)).
  { apply hoare_keeps_abrupt; [set_solver|].
    apply (set_keeps same_kind W S T s0); [exact Hc | set_solver]. }
  intros _.
  eapply hoare_bind with (Q := fun _ => keeps (K ∪ refs ctor ∪ refs proto)).
  { apply hoare_keeps_abrupt; [set_solver|].
    apply (set_keeps same_kind W S T s0); [exact Hp | set_solver]. }
  intros _ st H. cbn. eapply (keeps_weaken same_kind); [exact H | set_solver].
Qed.

Lemma stmt_GPUValidationError_keeps K :
  "constructor" ∈ W -> "prototype" ∈ W -> "GPUValidationError" ∈ W ->
  hoare (keeps K) (stmt_GPUValidationError e) (fun _ => keeps K) (keeps K).
Proof.
  intros Hc Hp Hkey. unfold stmt_GPUValidationError.
  eapply hoare_bind with (Q := fun c => keeps (K ∪ refs c));
    [apply class_GPUValidationError_keeps; assumption|].
  intros c. apply hoare_keeps_unit; [set_solver|].
  apply (set_keeps same_kind W S T s0); [exact Hkey | set_solver].
Qed.

End StatementsKeep.


(** *** The promise of [lost] *)

Lemma run_Inv_value W S T (m : M value) st r st' :
  hoare (keeps same_kind W S T st (known st)) m
    (fun v => keeps same_kind W S T st (known st ∪ refs v))
    (keeps same_kind W S T st (known st)) ->
  Inv S T st -> m st = (r, st') -> Inv S T st'.
Proof.
  intros H HI E.
  assert (keeps same_kind W S T st (known st) st) as HK.
  { split; [exact HI | apply stable_refl; exact _ | reflexivity]. }
  specialize (H st HK). rewrite E in H. destruct r; apply H.
Qed.

Lemma run_Inv_unit W S T (m : M unit) st r st' :
  hoare (keeps same_kind W S T st (known st)) m
    (fun _ => keeps same_kind W S T st (known st))
    (keeps same_kind W S T st (known st)) ->
  Inv S T st -> m st = (r, st') -> Inv S T st'.
Proof.
  intros H HI E.
  assert (keeps same_kind W S T st (known st) st) as HK.
  { split; [exact HI | apply stable_refl; exact _ | reflexivity]. }
  specialize (H st HK). rewrite E in H. destruct r; apply H.
Qed.

Lemma resolver_holds q o : resolver_of q (obj_slot o) -> holds o (VRef q).
Proof. intros [H|H]; right; rewrite H; cbn; set_solver. Qed.

Lemma holds_resolver_object q f v :
  f = fn_resolve q \/ f = fn_reject q ->
  holds (new_object None (SFunction f)) v -> v = VRef q.
Proof.
  intros Hf Hh. apply holds_new_object in Hh.
  destruct Hf as [-> | ->]; cbn in Hh; now apply list_elem_of_singleton in Hh.
Qed.

Lemma alloc_ref_state o st l st' :
  alloc_ref o st = (Returns l, st') ->
  l = fresh (dom (heap st)) /\
  st' = with_known (with_heap st (<[l:=o]> (heap st))) ({[l]} ∪ known st).
Proof.
  unfold alloc_ref, bind, alloc_internal, learn, ret. cbn.
  intros [= <- <-]. split; reflexivity.
Qed.

Lemma alloc_internal_state o st l st' :
  alloc_internal o st = (Returns l, st') ->
  l = fresh (dom (heap st)) /\ st' = with_heap st (<[l:=o]> (heap st)).
Proof. unfold alloc_internal. intros [= <- <-]. split; reflexivity. Qed.

(** After [new Promise(() => {})] its two resolving functions are sealed:
    the executor took neither, and nobody else was given them. *)
Lemma lost_promise_sealed ex st v st' :
  Inv ∅ ∅ st ->
  has_slot st ex (SFunction fn_lost_executor) ->
  new_Promise (VRef ex) st = (Returns v, st') ->
  exists p S, v = VRef p /\ Inv S {[p]} st' /\ p ∈ dom (heap st') /\ p ∉ S.
Proof.
  intros HI Hex H.
  destruct (new_Promise_lost_run _ _ _ _ Hex H)
    as (p & r1 & r2 & sa & sb & -> & Hp & Hr1 & Hr2).
  pose proof (is_fresh (dom (heap st))) as Hfresh.
  destruct (alloc_ref_state _ _ _ _ Hp) as [Ep Esa].
  destruct (alloc_internal_state _ _ _ _ Hr1) as [Er1 Esb].
  destruct (alloc_internal_state _ _ _ _ Hr2) as [Er2 Est'].
  rewrite <- Ep in Hfresh.
  set (promise := new_object None (SPromise Pending)) in *.
  assert (Inv ∅ ∅ (with_heap st (<[p:=promise]> (heap st)))) as HI1.
  { rewrite Ep. apply Inv_alloc; [exact HI | | set_solver].
    intros x Hx. apply holds_new_object in Hx. cbn in Hx. set_solver. }
  assert (Inv ∅ ∅ sa) as HIa.
  { rewrite Esa. apply (Inv_learn ∅ ∅ (with_heap st _) p HI1); [|set_solver].
    cbn. rewrite dom_insert_L. set_solver. }
  assert (heap sa = <[p:=promise]> (heap st)) as Hsa by (rewrite Esa; reflexivity).
  assert (p ∈ dom (heap sa)) as Hpa by (rewrite Hsa, dom_insert_L; set_solver).
  assert (Inv ∅ ({[p]} ∪ ∅) sa) as HIp.
  { apply Inv_promote; [exact HIa | |].
    - unfold has_slot, slot_of. rewrite Hsa, lookup_insert_eq. reflexivity.
    - intros l o Hl Hr. rewrite Hsa in Hl.
      destruct (decide (p = l)) as [<-|Hne].
      + rewrite lookup_insert_eq in Hl. injection Hl as <-.
        destruct Hr as [Hr|Hr]; discriminate.
      + rewrite lookup_insert_ne in Hl by exact Hne.
        apply Hfresh. eapply (inv_closed _ _ _ HI l o p Hl).
        apply resolver_holds, Hr. }
  assert (Inv ({[r1]} ∪ ∅) ({[p]} ∪ ∅) sb) as HIb.
  { rewrite Esb, Er1. apply Inv_alloc_sealed; [exact HIp|].
    intros x Hx. apply (holds_resolver_object p) in Hx; [|now left].
    subst x. intros r [= <-]. split; [exact Hpa | set_solver]. }
  assert (p ∈ dom (heap sb)) as Hpb.
  { rewrite Esb. cbn. rewrite dom_insert_L. set_solver. }
  assert (p <> r1) as Hp1.
  { intros ->. rewrite Er1 in Hpa. exact (is_fresh _ Hpa). }
  assert (Inv ({[r2]} ∪ ({[r1]} ∪ ∅)) ({[p]} ∪ ∅) st') as HI'.
  { rewrite Est', Er2. apply Inv_alloc_sealed; [exact HIb|].
    intros x Hx. apply (holds_resolver_object p) in Hx; [|now right].
    subst x. intros r [= <-]. split; [exact Hpb | set_solver]. }
  assert (p <> r2) as Hp2.
  { intros ->. rewrite Er2 in Hpb. exact (is_fresh _ Hpb). }
  exists p, ({[r2]} ∪ ({[r1]} ∪ ∅)). split; [reflexivity|].
  split; [|split].
  - assert (({[p]} ∪ ∅ : gset loc) = {[p]}) as E by apply (right_id_L ∅ (∪)).
    rewrite E in HI'. exact HI'.
  - rewrite Est'. cbn. rewrite dom_insert_L. set_solver.
  - set_solver.
Qed.

Lemma stmt_lost_sealed e st st' dp p :
  Inv ∅ ∅ st ->
  stmt_lost e st = (Returns tt, st') ->
  class_prototype st (gpu e) "GPUDevice" = Some dp ->
  owns st' dp "lost" (VRef p) ->
  exists S, Inv S {[p]} st'.
Proof.
  intros HI H Hdp Hown. rewrite stmt_lost_patch in H.
  apply bind_run in H as (c & s1 & H1 & H).
  apply bind_run in H as (proto & s2 & H2 & H).
  apply bind_run in H as (v & s3 & H3 & H).
  assert (Inv ∅ ∅ s1) as HI1.
  { eapply (run_Inv_value [] ∅ ∅ _ st _ s1); [|exact HI | exact H1].
    apply (get_keeps same_kind). }
  assert (Inv ∅ ∅ s2) as HI2.
  { eapply (run_Inv_value [] ∅ ∅ _ s1 _ s2); [|exact HI1 | exact H2].
    apply (get_keeps same_kind). }
  apply bind_run in H3 as (ex & sx & Hx & H3).
  assert (Inv ∅ ∅ sx) as HIx.
  { eapply (run_Inv_value [] ∅ ∅ _ s2 _ sx); [|exact HI2 | exact Hx].
    apply function_keeps; [reflexivity | discriminate | discriminate]. }
  destruct (closure_run [] _ _ _ _ Hx) as (_ & l & -> & Hl).
  destruct (lost_promise_sealed _ _ _ _ HIx Hl H3) as (p0 & S & -> & HI3 & Hp0 & HpS).
  destruct (get_run _ _ _ _ _ H1) as [L1 E1].
  destruct (get_run _ _ _ _ _ H2) as [L2 E2].
  unfold set in H. destruct proto as [| | | | |d0]; try discriminate.
  destruct (heap s3 !! d0) as [ob|] eqn:Ed; [|discriminate].
  injection H as <-.
  assert (dp = d0) as ->.
  { unfold class_prototype in Hdp. rewrite L1, <- E1, L2 in Hdp. congruence. }
  assert (p = p0) as ->.
  { assert (VRef p = VRef p0) as [= ->]; [|reflexivity].
    eapply owns_fun; [exact Hown|].
    exists (set_own "lost" (VRef p0) ob). cbn. now rewrite !lookup_insert_eq. }
  exists S. apply Inv_set_own; [exact HI3 | exact Ed|].
  intros r [= <-]. split; assumption.
Qed.

Lemma cts_main_sealed e st0 st1 dp p :
  Inv ∅ ∅ st0 -> knows st0 (gpu e) ->
  cts_main e st0 = (Returns tt, st1) ->
  class_prototype st1 (gpu e) "GPUDevice" = Some dp ->
  owns st1 dp "lost" (VRef p) ->
  exists S, Inv S {[p]} st1.
Proof.
  intros HI0 Hgpu H Hdp Hown. unfold cts_main in H.
  apply bind_run in H as ([] & s1 & H1 & H).
  apply bind_run in H as ([] & s2 & H2 & H).
  apply bind_run in H as ([] & s3 & H3 & H).
  apply bind_run in H as ([] & s4 & H4 & H).
  apply bind_run in H as ([] & s5 & H5 & H).
  apply bind_run in H as ([] & s6 & H6 & H7).
  set (W := main_writes ++ ["constructor"; "prototype"]).
  assert (Inv ∅ ∅ s1) as HI1.
  { eapply (run_Inv_unit W ∅ ∅ _ st0 _ s1); [|exact HI0 | exact H1].
    apply stmt_create_keeps; [in_list | apply refs_known, Hgpu]. }
  assert (Inv ∅ ∅ s2) as HI2.
  { eapply (run_Inv_unit W ∅ ∅ _ s1 _ s2); [|exact HI1 | exact H2].
    apply stmt_features_keeps. in_list. }
  destruct (stmt_lost_run _ _ _ H3) as (S23 & dp3 & p3 & Hdp3 & Hlost3 & _).
  destruct (stmt_lost_sealed _ _ _ _ _ HI2 H3 Hdp3 Hlost3) as (S & HI3).
  assert (Inv S {[p3]} s4) as HI4.
  { eapply (run_Inv_unit W S {[p3]} _ s3 _ s4); [|exact HI3 | exact H4].
    apply stmt_pushErrorScope_keeps. in_list. }
  assert (Inv S {[p3]} s5) as HI5.
  { eapply (run_Inv_unit W S {[p3]} _ s4 _ s5); [|exact HI4 | exact H5].
    apply stmt_popErrorScope_keeps. in_list. }
  assert (Inv S {[p3]} s6) as HI6.
  { eapply (run_Inv_unit W S {[p3]} _ s5 _ s6); [|exact HI5 | exact H6].
    apply stmt_GPUBufferUsage_keeps. in_list. }
  assert (Inv S {[p3]} st1) as HI7.
  { eapply (run_Inv_unit W S {[p3]} _ s6 _ st1); [|exact HI6 | exact H7].
    apply stmt_GPUValidationError_keeps; in_list. }
  destruct (stmt_function_run e "GPUDevice" "pushErrorScope" fn_pushErrorScope
              _ _ H4) as (S34 & _).
  destruct (stmt_function_run e "GPUDevice" "popErrorScope" fn_popErrorScope
              _ _ H5) as (S45 & _).
  pose proof (stmt_GPUBufferUsage_stable _ _ _ H6) as S56.
  pose proof (stmt_GPUValidationError_stable _ _ _ H7) as S67.
  pose proof (stable_step ["GPUBufferUsage"] ["GPUValidationError"]
                ["GPUBufferUsage"; "GPUValidationError"] _ _ _ S56 S67
                ltac:(sub_list) ltac:(sub_list)) as T5.
  pose proof (stable_step ["popErrorScope"] _
                ["popErrorScope"; "GPUBufferUsage"; "GPUValidationError"]
                _ _ _ S45 T5 ltac:(sub_list) ltac:(sub_list)) as T4.
  pose proof (stable_step ["pushErrorScope"] _
                ["pushErrorScope"; "popErrorScope"; "GPUBufferUsage";
                 "GPUValidationError"]
                _ _ _ S34 T4 ltac:(sub_list) ltac:(sub_list)) as T3.
  pose proof (stable_step ["lost"] _
                ["lost"; "pushErrorScope"; "popErrorScope"; "GPUBufferUsage";
                 "GPUValidationError"]
                _ _ _ S23 T3 ltac:(sub_list) ltac:(sub_list)) as T2.
  assert (dp = dp3) as ->.
  { assert (class_prototype st1 (gpu e) "GPUDevice" = Some dp3) as Hdp1.
    { eapply (class_prototype_stable eq); [exact T2 | | | exact Hdp3];
        not_in_list. }
    congruence. }
  assert (p = p3) as ->.
  { assert (VRef p = VRef p3) as [= ->]; [|reflexivity].
    eapply owns_fun; [exact Hown|].
    eapply owns_stable; [exact T3 | not_in_list | exact Hlost3]. }
  exists S. exact HI7.
Qed.

(** C6, as the code has it: the lost of every device is the one promise
    that cts.js makes with an executor that keeps neither resolving
    function.  It is pending when installed and nothing can settle it:
    after any run of the program, with devices destroyed or lost to a
    backend fault or not, a device that reads lost finds that promise still
    pending, and awaiting it does not resume; losing the device next leaves
    it pending too. *)
Theorem lost_never_resolves (e : env) (st0 st1 : state) (acts : list action)
  (st : state) (dp : loc) (device : value)
  (Hwf : well_formed e st0 = true)
  (Hload : cts_main e st0 = (Returns tt, st1))
  (Hrun : steps e acts st1 = Some st)
  (Hkept : untouched ["lost"] acts = true)
  (Hclass : class_prototype st1 (gpu e) "GPUDevice" = Some dp)
  (Hdevice : instance_of st dp ["lost"] device = true) :
  lost_state st device = Some Pending /\
  (exists p,
    owns st1 dp "lost" (VRef p) /\
    lookup_prop (heap st) device "lost" = Returns (VRef p) /\
    promise_state st (VRef p) = Some Pending /\
    await st (VRef p) = Waits) /\
  (forall u, usable st device = Some u ->
     usable (snd (lose device st)) device = Some false /\
     lost_state (snd (lose device st)) device = Some Pending).
Proof.
  destruct (well_formed_Inv e st0 Hwf) as [HI0 Hgpu].
  destruct (cts_main_run e st0 st1 Hload) as (_ & ap & dp' & s & p & Hinst).
  assert (dp' = dp) as ->.
  { pose proof (inst_device_class _ _ _ _ _ _ Hinst). congruence. }
  pose proof (inst_lost _ _ _ _ _ _ Hinst) as Hown.
  destruct (cts_main_sealed e st0 st1 dp p HI0 Hgpu Hload Hclass Hown)
    as (S & HI1).
  destruct (steps_keeps (written acts) S {[p]} st1 e acts st1 st HI1)
    as [HI _]; [apply stable_refl; exact _ | auto | exact Hrun |].
  pose proof (inv_pending _ _ _ HI p ltac:(set_solver)) as Hpending.
  assert (owns st dp "lost" (VRef p)) as Hown'.
  { apply (owns_stable same_kind (written acts) st1 st);
      [eapply steps_stable; [|exact Hrun]; auto | | exact Hown].
    unfold untouched in Hkept. rewrite forallb_forall in Hkept.
    intros Hin. specialize (Hkept _ (proj1 (list_elem_of_In _ _) Hin)).
    apply negb_true_iff, bool_decide_eq_false in Hkept. apply Hkept. in_list. }
  assert (lookup_prop (heap st) device "lost" = Returns (VRef p)) as Hl.
  { destruct device as [| | | | |d]; try discriminate.
    unfold instance_of in Hdevice.
    destruct (heap st !! d) as [ob|] eqn:Ed; [|discriminate].
    apply andb_true_iff in Hdevice as [Hproto Hnone].
    apply bool_decide_eq_true in Hproto. cbn in Hnone.
    apply andb_true_iff in Hnone as [Hnone _].
    apply bool_decide_eq_true in Hnone.
    destruct Hown' as (o' & Ho' & Hk').
    eapply lookup_prop_inherited; eauto. }
  assert (promise_state st (VRef p) = Some Pending) as Hps.
  { unfold promise_state. now rewrite Hpending. }
  split; [unfold lost_state; now rewrite Hl|].
  split; [exists p; repeat split; auto; unfold await; now rewrite Hps|].
  intros u Hu. split.
  - destruct device as [| | | | |d]; try discriminate.
    unfold usable, lose, slot_of in *.
    destruct (heap st !! d) as [ob|] eqn:Ed; [|discriminate]. cbn in Hu.
    destruct (obj_slot ob); try discriminate. cbn.
    now rewrite lookup_insert_eq.
  - assert (Inv S {[p]} (snd (lose device st))) as HI'.
    { assert (keeps same_kind [] S {[p]} st (known st) st) as HK
        by (split; [exact HI | apply stable_refl; exact _ | reflexivity]).
      pose proof (lose_keeps [] S {[p]} st (known st) device st HK) as H.
      destruct (lose device st) as [[]]; apply H. }
    pose proof (inv_pending _ _ _ HI' p ltac:(set_solver)) as Hpending'.
    unfold lost_state.
    rewrite (lookup_prop_stable same_kind [] st _ device "lost" (VRef p)
               (steady_lose [] device st) ltac:(not_in_list) Hl).
    unfold promise_state. now rewrite Hpending'.
Qed.

Lemma lost_never_resolves_witness :
  well_formed Sample.env0 Sample.state0 = true /\
  cts_main Sample.env0 Sample.state0 = (Returns tt, Sample.loaded) /\
  steps Sample.env0 Sample.destroying Sample.loaded = Some Sample.destroyed /\
  untouched ["lost"] Sample.destroying = true /\
  class_prototype Sample.loaded (gpu Sample.env0) "GPUDevice" = Some 5%positive /\
  instance_of Sample.destroyed 5 ["lost"] (VRef 21) = true /\
  usable Sample.destroyed (VRef 21) = Some false /\
  lost_state Sample.destroyed (VRef 21) = Some Pending.
Proof.
  assert (well_formed Sample.env0 Sample.state0 = true)
    as Hwf by (vm_compute; reflexivity).
  assert (cts_main Sample.env0 Sample.state0 = (Returns tt, Sample.loaded))
    as Hload by (vm_compute; reflexivity).
  assert (steps Sample.env0 Sample.destroying Sample.loaded
          = Some Sample.destroyed) as Hrun by (vm_compute; reflexivity).
  assert (untouched ["lost"] Sample.destroying = true) as Hkept by reflexivity.
  assert (class_prototype Sample.loaded (gpu Sample.env0) "GPUDevice"
          = Some 5%positive) as Hclass by (vm_compute; reflexivity).
  assert (instance_of Sample.destroyed 5 ["lost"] (VRef 21) = true)
    as Hdevice by (vm_compute; reflexivity).
  assert (usable Sample.destroyed (VRef 21) = Some false)
    as Hlost by (vm_compute; reflexivity).
  repeat (split; [assumption|]).
  exact (proj1 (lost_never_resolves Sample.env0 Sample.state0 Sample.loaded
                  Sample.destroying Sample.destroyed 5%positive (VRef 21)
                  Hwf Hload Hrun Hkept Hclass Hdevice)).
Defined.

(** C6 as the specification states it fails: device 21 has been destroyed
    and is unusable, and its lost is still pending. *)
Lemma lost_pending_after_destroy :
  usable Sample.running (VRef 21) = Some true /\
  usable Sample.destroyed (VRef 21) = Some false /\
  lost_state Sample.destroyed (VRef 21) = Some Pending /\
  await Sample.destroyed (VRef 12) = Waits.
Proof. vm_compute. auto. Qed.

End SealFacts.

(** ** More on getRowPadding *)

Module PaddingFacts.
Import RowPadding RowPaddingFacts.
Local Open Scope Z_scope.

(** The padded size counted in blocks of 64 pixels. *)
Lemma pad_row_blocks width : pad_row (width * 4) = 256 * ((width + 63) / 64).
Proof.
  destruct (pad_row_bounds (width * 4)) as [[Hlo Hhi] Hmod].
  apply Z.mod_divide in Hmod as [p Hp]; [|lia]. rewrite Hp in *.
  assert ((width + 63) / 64 = p) as ->; [|lia].
  symmetry. apply (Z.div_unique (width + 63) 64 p (width + 63 - 64 * p)); lia.
Qed.

(** X1: getRowPadding rounds up to the next multiple of 256 and no further.
    For every integer width, padded is a multiple of 256 that is at least
    unpadded, and every multiple m of 256 that is at least unpadded is at
    least padded. *)
Theorem getRowPadding_least_multiple (width m : Z)
  (Hm : (256 | m)) (Hfits : unpadded (getRowPadding width) <= m) :
  unpadded (getRowPadding width) <= padded (getRowPadding width) /\
  (256 | padded (getRowPadding width)) /\
  padded (getRowPadding width) <= m.
Proof.
  rewrite getRowPadding_padded, getRowPadding_unpadded in *.
  destruct (pad_row_bounds (width * 4)) as [[Hlo Hhi] Hmod].
  split; [exact Hlo|].
  split; [apply Z.mod_divide; [lia | exact Hmod]|].
  destruct Hm as [q ->].
  apply Z.mod_divide in Hmod as [p Hp]; [|lia]. rewrite Hp in *. lia.
Qed.

Lemma getRowPadding_least_multiple_witness :
  (256 | 1024) /\ unpadded (getRowPadding 200) <= 1024 /\
  padded (getRowPadding 200) <= 1024.
Proof.
  assert (256 | 1024) as Hm by (exists 4; reflexivity).
  assert (unpadded (getRowPadding 200) <= 1024) as Hfits by (vm_compute; discriminate).
  split; [exact Hm|]. split; [exact Hfits|].
  exact (proj2 (proj2 (getRowPadding_least_multiple 200 1024 Hm Hfits))).
Defined.

(** X2: getRowPadding pads a row to whole blocks of 64 pixels.  For every
    integer width, padded is 256 times the number of 64-pixel blocks needed
    for width pixels, that is 256 * ceil(width / 64); 64 more pixels cost
    exactly 256 more bytes; and the padding added, padded - unpadded, is 4
    bytes for each of the (- width) mod 64 pixels that fill the last
    block. *)
Theorem getRowPadding_blocks (width : Z) :
  padded (getRowPadding width) = 256 * ((width + 63) / 64) /\
  padded (getRowPadding (width + 64)) = padded (getRowPadding width) + 256 /\
  padded (getRowPadding width) - unpadded (getRowPadding width) =
    4 * ((- width) mod 64).
Proof.
  rewrite !getRowPadding_padded, getRowPadding_unpadded, !pad_row_blocks.
  split; [reflexivity|].
  split.
  { replace (width + 64 + 63) with (width + 63 + 1 * 64) by lia.
    rewrite Z.div_add by lia. lia. }
  pose proof (Z.div_mod (width + 63) 64 ltac:(lia)) as Hd.
  pose proof (Z.mod_pos_bound (width + 63) 64 ltac:(lia)) as Hb.
  assert ((- width) mod 64 = 63 - (width + 63) mod 64) as ->; [|lia].
  symmetry.
  apply (Z.mod_unique (- width) 64 (- ((width + 63) / 64))); lia.
Qed.

(** X3: getRowPadding is monotone: a wider row never gets a smaller padded
    size. *)
Theorem getRowPadding_monotone (width1 width2 : Z) (Hle : width1 <= width2) :
  padded (getRowPadding width1) <= padded (getRowPadding width2).
Proof.
  rewrite !getRowPadding_padded, !pad_row_blocks.
  pose proof (Z.div_le_mono (width1 + 63) (width2 + 63) 64 ltac:(lia) ltac:(lia)).
  lia.
Qed.

Lemma getRowPadding_monotone_witness :
  64 <= 65 /\ padded (getRowPadding 64) <= padded (getRowPadding 65).
Proof.
  assert (64 <= 65) as H by lia.
  split; [exact H | exact (getRowPadding_monotone 64 65 H)].
Defined.

Lemma pad_row_sign width :
  (pad_row (width * 4) = 0 <-> -64 < width <= 0) /\
  (pad_row (width * 4) < 0 <-> width <= -64) /\
  (0 < pad_row (width * 4) <-> 0 < width).
Proof.
  rewrite pad_row_blocks.
  pose proof (Z.div_mod (width + 63) 64 ltac:(lia)) as Hd.
  pose proof (Z.mod_pos_bound (width + 63) 64 ltac:(lia)) as Hb.
  lia.
Qed.

End PaddingFacts.

(** ** The runs of createCapture *)

Module CaptureRunFacts.
Import Js RowPadding Capture RowPaddingFacts CaptureFacts PaddingFacts.
Local Open Scope Z_scope.

(** *** The bitwise or of usage flags *)

Lemma to_int32_range n : - 2 ^ 31 <= to_int32 n < 2 ^ 31.
Proof.
  unfold to_int32.
  pose proof (Z.mod_pos_bound (n + 2 ^ 31) (2 ^ 32) ltac:(lia)). lia.
Qed.

Lemma to_int32_small n : - 2 ^ 31 <= n < 2 ^ 31 -> to_int32 n = n.
Proof. intros H. unfold to_int32. rewrite Z.mod_small; lia. Qed.

Lemma to_int32_mod n : to_int32 n mod 2 ^ 32 = n mod 2 ^ 32.
Proof.
  unfold to_int32. rewrite Zminus_mod_idemp_l.
  f_equal. lia.
Qed.

Lemma to_int32_bits n i : 0 <= i < 32 -> Z.testbit (to_int32 n) i = Z.testbit n i.
Proof.
  intros Hi.
  rewrite <- (Z.mod_pow2_bits_low (to_int32 n) 32 i) by lia.
  rewrite to_int32_mod. apply Z.mod_pow2_bits_low. lia.
Qed.

Lemma js_bitor_bits a b i :
  0 <= i < 32 ->
  Z.testbit (js_bitor a b) i = Z.testbit a i || Z.testbit b i.
Proof.
  intros Hi. unfold js_bitor.
  rewrite to_int32_bits, Z.lor_spec, !to_int32_bits by lia. reflexivity.
Qed.

Lemma lor_small a b :
  0 <= a < 2 ^ 31 -> 0 <= b < 2 ^ 31 -> 0 <= Z.lor a b < 2 ^ 31.
Proof.
  intros Ha Hb.
  assert (0 <= Z.lor a b) as H0 by (apply Z.lor_nonneg; lia).
  split; [exact H0|].
  destruct (Z.eq_dec (Z.lor a b) 0) as [E|E]; [rewrite E; lia|].
  apply Z.log2_lt_pow2; [lia|].
  rewrite Z.log2_lor by lia.
  assert (Z.log2 a < 31) as La.
  { destruct (Z.eq_dec a 0) as [->|]; [cbn; lia|]. apply Z.log2_lt_pow2; lia. }
  assert (Z.log2 b < 31) as Lb.
  { destruct (Z.eq_dec b 0) as [->|]; [cbn; lia|]. apply Z.log2_lt_pow2; lia. }
  lia.
Qed.

Lemma js_bitor_small a b :
  0 <= a < 2 ^ 31 -> 0 <= b < 2 ^ 31 -> js_bitor a b = Z.lor a b.
Proof.
  intros Ha Hb. unfold js_bitor.
  rewrite (to_int32_small a), (to_int32_small b) by lia.
  apply to_int32_small. pose proof (lor_small a b Ha Hb). lia.
Qed.

Lemma lor_has_flags a b :
  Z.land (Z.lor a b) a = a /\ Z.land (Z.lor a b) b = b.
Proof.
  split; apply Z.bits_inj'; intros n Hn;
    rewrite Z.land_spec, Z.lor_spec;
    destruct (Z.testbit a n), (Z.testbit b n); reflexivity.
Qed.

Section WithBinding.
Context {World : Type}.
Variable native : nativeCall -> World -> outcome value * World.
Variables (usage : BufferUsage) (tusage : TextureUsage).
Variables (device : value) (dimensions : Dimensions).

(** The runs of createCapture, by the answers of the binding. *)
Lemma createCapture_run w :
  exists bd td,
    (buf_label bd = "Capture" /\
     buf_size bd =
       js_mul (padded (getRowPadding (width dimensions))) (height dimensions) /\
     buf_usage bd = js_bitor (MAP_READ usage) (COPY_DST usage)) /\
    (tex_label td = "Capture" /\
     tex_size td = dimensions /\
     tex_format td = "rgba8unorm-srgb" /\
     tex_usage td = js_bitor (RENDER_ATTACHMENT tusage) (COPY_SRC tusage)) /\
    run native (createCapture usage tusage device dimensions) w =
    match native (createBuffer device bd) w with
    | (Returned b, w1) =>
        match native (createTexture device td) w1 with
        | (Returned t, w2) =>
            (Returned {| outputBuffer := b; captured_texture := t |},
             [createBuffer device bd; createTexture device td], w2)
        | (Threw e, w2) =>
            (Threw e, [createBuffer device bd; createTexture device td], w2)
        end
    | (Threw e, w1) => (Threw e, [createBuffer device bd], w1)
    end.
Proof.
  exists {| buf_label := "Capture";
            buf_size := js_mul (padded (getRowPadding (width dimensions)))
                          (height dimensions);
            buf_usage := js_bitor (MAP_READ usage) (COPY_DST usage) |},
         {| tex_label := "Capture"; tex_size := dimensions;
            tex_format := "rgba8unorm-srgb";
            tex_usage := js_bitor (RENDER_ATTACHMENT tusage) (COPY_SRC tusage) |}.
  split; [repeat split|]. split; [repeat split|].
  unfold createCapture.
  cbn [run bind call].
  destruct (native _ w) as [[b|e] w1]; [|reflexivity].
  cbn [run bind call].
  destruct (native _ w1) as [[t|e] w2]; reflexivity.
Qed.

End WithBinding.

(** X4: when createCapture returns, both calls into the binding returned:
    createBuffer was asked first, createTexture second and in the state of
    the binding that createBuffer left, nothing else was asked, and the
    result holds exactly what the two calls answered, outputBuffer from
    createBuffer and texture from createTexture.  The buffer was asked with
    the size that the code computes, the product padded * height rounded
    to binary64, which is the product itself when that is at most 2 ^ 53
    in magnitude, and the texture with the dimensions themselves, in the
    format rgba8unorm-srgb. *)
Theorem createCapture_returns {World : Type}
  (native : nativeCall -> World -> outcome value * World) (w : World)
  (usage : BufferUsage) (tusage : TextureUsage)
  (device : value) (dimensions : Dimensions) (r : CaptureResult)
  (Hret : fst (fst (run native (createCapture usage tusage device dimensions) w))
          = Returned r) :
  exists bd td w1 w2,
    native (createBuffer device bd) w = (Returned (outputBuffer r), w1) /\
    native (createTexture device td) w1 = (Returned (captured_texture r), w2) /\
    run native (createCapture usage tusage device dimensions) w =
      (Returned r, [createBuffer device bd; createTexture device td], w2) /\
    buf_size bd =
      js_mul (padded (getRowPadding (width dimensions))) (height dimensions) /\
    (Z.abs (padded (getRowPadding (width dimensions)) * height dimensions)
       <= 2 ^ 53 ->
     buf_size bd =
       padded (getRowPadding (width dimensions)) * height dimensions) /\
    tex_size td = dimensions /\
    tex_format td = "rgba8unorm-srgb".
Proof.
  destruct (createCapture_run native usage tusage device dimensions w)
    as (bd & td & (_ & Hsize & _) & (_ & Hdim & Hformat & _) & Hrun).
  rewrite Hrun in Hret |- *.
  destruct (native (createBuffer device bd) w) as [[b|e] w1] eqn:Hb;
    [|discriminate].
  destruct (native (createTexture device td) w1) as [[t|e] w2] eqn:Ht;
    [|discriminate].
  cbn in Hret. injection Hret as <-. cbn [outputBuffer captured_texture].
  exists bd, td, w1, w2. rewrite Hb, Ht.
  split; [reflexivity|]. split; [reflexivity|]. split; [reflexivity|].
  split; [exact Hsize|].
  split; [intros Hsafe; rewrite Hsize; apply to_double_exact, Hsafe|].
  split; assumption.
Qed.

Lemma createCapture_returns_witness :
  exists bd td,
    run (fun _ (w : positive) => (Returned (VRef w), Pos.succ w))
      (createCapture {| MAP_READ := 1; COPY_DST := 8 |}
         {| RENDER_ATTACHMENT := 16; COPY_SRC := 1 |}
         (VRef 1) {| width := 200; height := 200 |}) 10%positive =
    (Returned {| outputBuffer := VRef 10; captured_texture := VRef 11 |},
     [createBuffer (VRef 1) bd; createTexture (VRef 1) td], 12%positive) /\
    buf_size bd = 1024 * 200.
Proof.
  destruct (createCapture_returns
              (fun _ (w : positive) => (Returned (VRef w), Pos.succ w))
              10%positive
              {| MAP_READ := 1; COPY_DST := 8 |}
              {| RENDER_ATTACHMENT := 16; COPY_SRC := 1 |}
              (VRef 1) {| width := 200; height := 200 |}
              {| outputBuffer := VRef 10; captured_texture := VRef 11 |}
              eq_refl)
    as (bd & td & w1 & w2 & H1 & H2 & Hrun & _ & Hexact & _).
  exists bd, td. rewrite Hrun.
  injection H1 as <-. injection H2 as <-.
  split; [reflexivity|]. apply Hexact. vm_compute. discriminate.
Defined.

(** X6: the usage that createCapture passes is the union of two flags.
    In every call that createCapture makes, the usage is a 32-bit signed
    integer whose bit i, for i from 0 to 31, is set exactly when it is set
    in one of the two flags (MAP_READ and COPY_DST for the buffer,
    RENDER_ATTACHMENT and COPY_SRC for the texture); when both flags are
    non-negative and below 2^31 the usage is their bitwise or and contains
    each of them.  createCapture makes no copyTextureToBuffer call. *)
Theorem createCapture_usage_bits {World : Type}
  (native : nativeCall -> World -> outcome value * World) (w : World)
  (usage : BufferUsage) (tusage : TextureUsage)
  (device : value) (dimensions : Dimensions) :
  Forall (fun c =>
      match c with
      | createBuffer _ d =>
          - 2 ^ 31 <= buf_usage d < 2 ^ 31 /\
          (forall i, 0 <= i < 32 ->
             Z.testbit (buf_usage d) i =
             Z.testbit (MAP_READ usage) i || Z.testbit (COPY_DST usage) i) /\
          (0 <= MAP_READ usage < 2 ^ 31 -> 0 <= COPY_DST usage < 2 ^ 31 ->
             buf_usage d = Z.lor (MAP_READ usage) (COPY_DST usage) /\
             Z.land (buf_usage d) (MAP_READ usage) = MAP_READ usage /\
             Z.land (buf_usage d) (COPY_DST usage) = COPY_DST usage)
      | createTexture _ d =>
          - 2 ^ 31 <= tex_usage d < 2 ^ 31 /\
          (forall i, 0 <= i < 32 ->
             Z.testbit (tex_usage d) i =
             Z.testbit (RENDER_ATTACHMENT tusage) i ||
             Z.testbit (COPY_SRC tusage) i) /\
          (0 <= RENDER_ATTACHMENT tusage < 2 ^ 31 ->
           0 <= COPY_SRC tusage < 2 ^ 31 ->
             tex_usage d = Z.lor (RENDER_ATTACHMENT tusage) (COPY_SRC tusage) /\
             Z.land (tex_usage d) (RENDER_ATTACHMENT tusage)
               = RENDER_ATTACHMENT tusage /\
             Z.land (tex_usage d) (COPY_SRC tusage) = COPY_SRC tusage)
      | copyTextureToBuffer _ _ _ _ => False
      end)
    (calls_of native (createCapture usage tusage device dimensions) w).
Proof.
  assert (forall a b u, u = js_bitor a b ->
            - 2 ^ 31 <= u < 2 ^ 31 /\
            (forall i, 0 <= i < 32 ->
               Z.testbit u i = Z.testbit a i || Z.testbit b i) /\
            (0 <= a < 2 ^ 31 -> 0 <= b < 2 ^ 31 ->
               u = Z.lor a b /\ Z.land u a = a /\ Z.land u b = b)) as Hor.
  { intros a b u ->. split; [apply to_int32_range|].
    split; [intros i Hi; apply js_bitor_bits, Hi|].
    intros Ha Hb. rewrite (js_bitor_small a b Ha Hb).
    split; [reflexivity | apply lor_has_flags]. }
  destruct (createCapture_run native usage tusage device dimensions w)
    as (bd & td & (_ & _ & Hbu) & (_ & _ & _ & Htu) & Hrun).
  unfold calls_of. rewrite Hrun.
  destruct (native (createBuffer device bd) w) as [[b|e1] w1].
  - destruct (native (createTexture device td) w1) as [[t|e2] w2]; cbn;
      (constructor; [exact (Hor _ _ _ Hbu)|]);
      (constructor; [exact (Hor _ _ _ Htu) | constructor]).
  - cbn. constructor; [exact (Hor _ _ _ Hbu) | constructor].
Qed.

(** X7: createCapture checks no dimension: whatever width and height are,
    its first call is createBuffer, and the size it asks for is zero
    exactly when height is 0 or width is between -63 and 0, and negative
    exactly when width is at most -64 with a positive height, or width is
    positive with a negative height. *)
Theorem createCapture_buffer_size_sign {World : Type}
  (native : nativeCall -> World -> outcome value * World) (w : World)
  (usage : BufferUsage) (tusage : TextureUsage)
  (device : value) (dimensions : Dimensions) :
  exists descriptor rest,
    calls_of native (createCapture usage tusage device dimensions) w =
      createBuffer device descriptor :: rest /\
    (buf_size descriptor = 0 <->
       height dimensions = 0 \/ -64 < width dimensions <= 0) /\
    (buf_size descriptor < 0 <->
       (width dimensions <= -64 /\ 0 < height dimensions) \/
       (0 < width dimensions /\ height dimensions < 0)).
Proof.
  destruct (createCapture_calls native usage tusage device dimensions w)
    as (descriptor & rest & Hcalls & Hsize & _).
  exists descriptor, rest. split; [exact Hcalls|].
  rewrite Hsize. unfold js_mul.
  destruct (to_double_sign
              (padded (getRowPadding (width dimensions)) * height dimensions))
    as (Rz & Rn & _).
  rewrite Rz, Rn, getRowPadding_padded.
  destruct (pad_row_sign (width dimensions)) as (Hz & Hn & Hp).
  split; nia.
Qed.

End CaptureRunFacts.

(** ** Loading cts.js: every outcome *)

Module LoadFacts.
Import Js Heap Shim Program Logic HeapFacts OpFacts SteadyFacts MainFacts.

(** *** Operations that always return *)

Lemma bind_returns {A B} (m : M A) (f : A -> M B) st a st1 :
  m st = (Returns a, st1) -> bind m f st = f a st1.
Proof. unfold bind. now intros ->. Qed.

Lemma bind_throws {A B} (m : M A) (f : A -> M B) st x st1 :
  m st = (Throws x, st1) -> bind m f st = (Throws x, st1).
Proof. unfold bind. now intros ->. Qed.

Lemma get_returns o k st v :
  lookup_prop (heap st) o k = Returns v ->
  get o k st = (Returns v, snd (learn v st)).
Proof. unfold get. now intros ->. Qed.

Lemma heap_learn v st : heap (snd (learn v st)) = heap st.
Proof. now destruct v. Qed.

Lemma alloc_ref_returns o st : exists l st', alloc_ref o st = (Returns l, st').
Proof. eexists _, _. reflexivity. Qed.

Lemma alloc_internal_returns o st :
  exists l st', alloc_internal o st = (Returns l, st').
Proof. eexists _, _. reflexivity. Qed.

Lemma alloc_returns o st : exists l st', alloc o st = (Returns (VRef l), st').
Proof. eexists _, _. reflexivity. Qed.

Lemma set_returns l k v st :
  l ∈ dom (heap st) -> exists st', set (VRef l) k v st = (Returns tt, st').
Proof.
  intros Hl. apply elem_of_dom in Hl as [ob Hob]. unfold set. rewrite Hob.
  eexists. reflexivity.
Qed.

Lemma lost_maker_returns st :
  exists v st',
    (let! executor := closure fn_lost_executor in new_Promise executor) st
      = (Returns v, st').
Proof.
  destruct (alloc_returns (new_object None (SFunction fn_lost_executor)) st)
    as (ex & s1 & Hx).
  fold (closure fn_lost_executor) in Hx.
  rewrite (bind_returns _ _ _ _ _ Hx).
  destruct (closure_run [] _ _ _ _ Hx) as (_ & l & [= <-] & Hl).
  unfold new_Promise.
  destruct (alloc_ref_returns (new_object None (SPromise Pending)) s1)
    as (p & sa & Hp).
  rewrite (bind_returns _ _ _ _ _ Hp).
  destruct (alloc_internal_returns
              (new_object None (SFunction (fn_resolve p))) sa) as (r1 & sb & Hr1).
  rewrite (bind_returns _ _ _ _ _ Hr1).
  destruct (alloc_internal_returns
              (new_object None (SFunction (fn_reject p))) sb) as (r2 & sc & Hr2).
  rewrite (bind_returns _ _ _ _ _ Hr2).
  assert (has_slot sc ex (SFunction fn_lost_executor)) as Hex.
  { eapply (has_slot_stable []); [|exact Hl].
    eapply stable_trans; [exact _ | eapply run_stable, Hp; apply steady_alloc_ref; exact _|].
    eapply stable_trans; [exact _ | eapply run_stable, Hr1; apply steady_alloc_internal; exact _|].
    eapply run_stable, Hr2. apply steady_alloc_internal. exact _. }
  rewrite (call_function _ _ _ _ Hex). cbn. eauto.
Qed.

Lemma lost_maker_steady W :
  steady eq W (let! executor := closure fn_lost_executor in new_Promise executor).
Proof.
  intros st. destruct (lost_maker_returns st) as (v & st' & H).
  rewrite H. cbn. eapply lost_maker_run, H.
Qed.

Lemma alloc_state o st :
  alloc o st =
  (Returns (VRef (fresh (dom (heap st)))),
   with_known (with_heap st (<[fresh (dom (heap st)):=o]> (heap st)))
     ({[fresh (dom (heap st))]} ∪ known st)).
Proof. reflexivity. Qed.

Lemma set_state l ob k v st :
  heap st !! l = Some ob ->
  set (VRef l) k v st =
  (Returns tt, with_heap st (<[l:=set_own k v ob]> (heap st))).
Proof. intros H. unfold set. now rewrite H. Qed.

(** The class expression: two new objects that point at each other. *)
Lemma class_GPUValidationError_run W st :
  exists c p st',
    class_GPUValidationError st = (Returns (VRef c), st') /\
    stable eq W st st' /\
    (c ∉ dom (heap st)) /\ (p ∉ dom (heap st)) /\ c <> p /\
    has_slot st' c (SFunction fn_GPUValidationError) /\
    owns st' c "prototype" (VRef p) /\
    owns st' p "constructor" (VRef c) /\
    has_slot st' p SPlain.
Proof.
  unfold class_GPUValidationError, closure.
  set (oc := new_object None (SFunction fn_GPUValidationError)).
  set (op := new_object None SPlain).
  rewrite (bind_returns _ _ _ _ _ (alloc_state oc st)).
  set (c := fresh (dom (heap st))).
  set (s1 := with_known _ _).
  rewrite (bind_returns _ _ _ _ _ (alloc_state op s1)).
  set (p := fresh (dom (heap s1))).
  set (s2 := with_known _ _).
  assert (c ∉ dom (heap st)) as Hc by apply is_fresh.
  assert (p ∉ dom (heap s1)) as Hp by apply is_fresh.
  assert (dom (heap s1) = {[c]} ∪ dom (heap st)) as Hd1
    by (subst s1; cbn; apply dom_insert_L).
  assert (c <> p) as Hne by (intros E; apply Hp; rewrite Hd1, <- E; set_solver).
  assert (heap s2 !! p = Some op) as Hp2 by (subst s2; cbn; apply lookup_insert_eq).
  rewrite (bind_returns _ _ _ _ _ (set_state p op "constructor" (VRef c) s2 Hp2)).
  set (s3 := with_heap s2 _).
  assert (heap s3 !! c = Some oc) as Hc3.
  { subst s3 s2 s1. cbn. rewrite !lookup_insert_ne by congruence.
    apply lookup_insert_eq. }
  rewrite (bind_returns _ _ _ _ _ (set_state c oc "prototype" (VRef p) s3 Hc3)).
  set (s4 := with_heap s3 _).
  exists c, p, s4. split; [reflexivity|].
  split; [|split; [exact Hc|split; [set_solver|split; [exact Hne|]]]].
  - split; [subst s4 s3 s2 s1; cbn; set_solver|].
    intros l o Hl. exists o.
    assert (l <> c) as Hlc by (intros ->; apply Hc; eapply elem_of_dom_2, Hl).
    assert (l <> p) as Hlp.
    { intros ->. apply Hp. rewrite Hd1. apply elem_of_union_r.
      eapply elem_of_dom_2, Hl. }
    subst s4 s3 s2 s1. cbn. rewrite !lookup_insert_ne by congruence.
    auto.
  - unfold has_slot, slot_of, owns. subst s4 s3 s2 s1. cbn.
    rewrite lookup_insert_eq. rewrite lookup_insert_ne by congruence.
    rewrite lookup_insert_eq. cbn.
    split; [reflexivity|]. split; [eexists; split; [reflexivity|]; cbn; apply lookup_insert_eq|].
    split; [eexists; split; [reflexivity|]; cbn; apply lookup_insert_eq|reflexivity].
Qed.

Lemma class_GPUValidationError_steady W : steady eq W class_GPUValidationError.
Proof.
  intros st.
  destruct (class_GPUValidationError_run W st) as (c & p & st' & H & Hs & _).
  now rewrite H.
Qed.

(** *** The statements, whatever their outcome *)

Section AnyOutcome.
Variable e : env.

Lemma patch_steady W cls key (mk : M value) :
  key ∈ W -> steady eq W mk ->
  steady eq W
    (let! c := get (gpu e) cls in
     let! proto := get c "prototype" in
     let! v := mk in
     set proto key v).
Proof.
  intros Hk Hmk.
  apply steady_bind; [exact _ | apply steady_get; exact _|]. intros c.
  apply steady_bind; [exact _ | apply steady_get; exact _|]. intros proto.
  apply steady_bind; [exact _ | exact Hmk|]. intros v.
  apply steady_set; [exact _ | exact Hk].
Qed.

Lemma stmt_create_steady W : "create" ∈ W -> steady eq W (stmt_create e).
Proof.
  intros Hk. apply steady_bind; [exact _ | apply steady_alloc; exact _|].
  intros f. apply steady_set; [exact _ | exact Hk].
Qed.

Lemma stmt_features_steady W : "features" ∈ W -> steady eq W (stmt_features e).
Proof.
  intros Hk. apply patch_steady; [exact Hk|]. apply steady_alloc. exact _.
Qed.

Lemma stmt_lost_steady W : "lost" ∈ W -> steady eq W (stmt_lost e).
Proof.
  intros Hk st. rewrite stmt_lost_patch.
  apply patch_steady; [exact Hk | apply lost_maker_steady].
Qed.

Lemma stmt_pushErrorScope_steady W :
  "pushErrorScope" ∈ W -> steady eq W (stmt_pushErrorScope e).
Proof.
  intros Hk. apply patch_steady; [exact Hk|]. apply steady_alloc. exact _.
Qed.

Lemma stmt_popErrorScope_steady W :
  "popErrorScope" ∈ W -> steady eq W (stmt_popErrorScope e).
Proof.
  intros Hk. apply patch_steady; [exact Hk|]. apply steady_alloc. exact _.
Qed.

Lemma stmt_GPUBufferUsage_steady W :
  "GPUBufferUsage" ∈ W -> steady eq W (stmt_GPUBufferUsage e).
Proof.
  intros Hk. apply steady_bind; [exact _ | apply steady_get; exact _|].
  intros u. apply steady_set; [exact _ | exact Hk].
Qed.

Lemma stmt_GPUValidationError_steady W :
  "GPUValidationError" ∈ W -> steady eq W (stmt_GPUValidationError e).
Proof.
  intros Hk.
  apply steady_bind; [exact _ | apply class_GPUValidationError_steady|].
  intros c. apply steady_set; [exact _ | exact Hk].
Qed.

End AnyOutcome.

(** X8: whatever the outcome of loading cts.js, also when a statement
    throws halfway, every object that existed before is still there with
    the same prototype link and the same internal slot, and each of its own
    properties other than the seven names that cts.js assigns (create,
    features, lost, pushErrorScope, popErrorScope, GPUBufferUsage,
    GPUValidationError) has the value it had; the running code holds every
    reference it held. *)
Theorem cts_main_frame (e : env) (st0 : state) :
  stable eq main_writes st0 (snd (cts_main e st0)).
Proof.
  revert st0. change (steady eq main_writes (cts_main e)).
  unfold cts_main.
  apply steady_bind; [exact _ | apply stmt_create_steady; in_list|]. intros _.
  apply steady_bind; [exact _ | apply stmt_features_steady; in_list|]. intros _.
  apply steady_bind; [exact _ | apply stmt_lost_steady; in_list|]. intros _.
  apply steady_bind; [exact _ | apply stmt_pushErrorScope_steady; in_list|]. intros _.
  apply steady_bind; [exact _ | apply stmt_popErrorScope_steady; in_list|]. intros _.
  apply steady_bind; [exact _ | apply stmt_GPUBufferUsage_steady; in_list|]. intros _.
  apply stmt_GPUValidationError_steady. in_list.
Qed.

(** *** Loading against a binding that lacks a class *)

Lemma get_undefined k st : get VUndefined k st = (Throws TypeError, st).
Proof. reflexivity. Qed.

Lemma stmt_create_returns e x st :
  exports e = VRef x -> x ∈ dom (heap st) ->
  exists st', stmt_create e st = (Returns tt, st').
Proof.
  intros Hx Hd. unfold stmt_create, closure.
  rewrite (bind_returns _ _ _ _ _ (alloc_state _ st)), Hx.
  apply set_returns. cbn. rewrite dom_insert_L. set_solver.
Qed.

(** A statement that starts with [gpu.cls.prototype] throws when the
    binding has no [cls]. *)
Lemma missing_class_throws e cls {A} (k : value -> M A) st :
  lookup_prop (heap st) (gpu e) cls = Returns VUndefined ->
  (let! c := get (gpu e) cls in
   let! proto := get c "prototype" in
   k proto) st = (Throws TypeError, st).
Proof.
  intros H. rewrite (bind_returns _ _ _ _ _ (get_returns _ _ _ _ H)).
  reflexivity.
Qed.

(** X9: against a binding whose module object has no GPUAdapter, loading
    cts.js throws a TypeError at its second statement: exports.create has
    been installed, and no other property of an existing object has
    changed. *)
Theorem cts_main_without_GPUAdapter (e : env) (st0 : state) (x : loc)
  (Hexports : exports e = VRef x) (Hx : x ∈ dom (heap st0))
  (Hmissing : lookup_prop (heap st0) (gpu e) "GPUAdapter" = Returns VUndefined) :
  exists st' f,
    cts_main e st0 = (Throws TypeError, st') /\
    stable eq ["create"] st0 st' /\
    owns st' x "create" (VRef f) /\
    has_slot st' f (SFunction (fn_create (gpu e))).
Proof.
  destruct (stmt_create_returns e x st0 Hexports Hx) as (s1 & H1).
  destruct (stmt_create_run e st0 s1 H1) as (S01 & x' & f & Hx' & Hown & Hf).
  assert (x' = x) as -> by congruence.
  exists s1, f. split; [|auto].
  unfold cts_main. rewrite (bind_returns _ _ _ _ _ H1).
  apply bind_throws. unfold stmt_features. apply missing_class_throws.
  eapply (lookup_prop_stable eq); [exact S01 | not_in_list | exact Hmissing].
Qed.

Lemma cts_main_without_GPUAdapter_witness :
  exports Sample.env0 = VRef 6 /\
  6%positive ∈ dom (heap Partial.state_without_GPUAdapter) /\
  lookup_prop (heap Partial.state_without_GPUAdapter) (gpu Sample.env0)
    "GPUAdapter" = Returns VUndefined /\
  exists st' f,
    cts_main Sample.env0 Partial.state_without_GPUAdapter
      = (Throws TypeError, st') /\
    owns st' 6%positive "create" (VRef f).
Proof.
  assert (exports Sample.env0 = VRef 6) as Hexports by reflexivity.
  assert (6%positive ∈ dom (heap Partial.state_without_GPUAdapter)) as Hx
    by (apply (bool_decide_unpack _); vm_compute; exact I).
  assert (lookup_prop (heap Partial.state_without_GPUAdapter) (gpu Sample.env0)
            "GPUAdapter" = Returns VUndefined) as Hmissing
    by (vm_compute; reflexivity).
  repeat (split; [assumption|]).
  destruct (cts_main_without_GPUAdapter Sample.env0
              Partial.state_without_GPUAdapter 6%positive Hexports Hx Hmissing)
    as (st' & f & Hrun & _ & Hown & _).
  exists st', f. split; assumption.
Defined.

Section Returning.
Variable e : env.

(** A statement that patches a class prototype returns when the prototype
    is an object and the value it installs can be made. *)
Lemma patch_returns cls key (mk : M value) st p :
  class_prototype st (gpu e) cls = Some p -> p ∈ dom (heap st) ->
  steady eq [] mk ->
  (forall s, exists v s', mk s = (Returns v, s')) ->
  exists st',
    (let! c := get (gpu e) cls in
     let! proto := get c "prototype" in
     let! v := mk in
     set proto key v) st = (Returns tt, st').
Proof.
  intros Hc Hp Hsteady Hmk. unfold class_prototype in Hc.
  destruct (lookup_prop (heap st) (gpu e) cls) as [c| |] eqn:L1; try discriminate.
  destruct (lookup_prop (heap st) c "prototype") as [[| | | | |q]| |] eqn:L2;
    try discriminate.
  injection Hc as ->.
  rewrite (bind_returns _ _ _ _ _ (get_returns _ _ _ _ L1)).
  rewrite <- (heap_learn c st) in L2.
  rewrite (bind_returns _ _ _ _ _ (get_returns _ _ _ _ L2)).
  set (s2 := snd (learn (VRef p) (snd (learn c st)))).
  destruct (Hmk s2) as (v & s3 & H3).
  rewrite (bind_returns _ _ _ _ _ H3).
  apply set_returns.
  eapply stable_dom; [eapply run_stable, H3; exact Hsteady|].
  subst s2. now rewrite !heap_learn.
Qed.

Lemma stmt_features_returns st ap :
  class_prototype st (gpu e) "GPUAdapter" = Some ap -> ap ∈ dom (heap st) ->
  exists st', stmt_features e st = (Returns tt, st').
Proof.
  intros Hc Hp. apply (patch_returns "GPUAdapter" "features" _ st ap Hc Hp).
  - apply steady_alloc. exact _.
  - intros s. eexists _, _. apply alloc_state.
Qed.

End Returning.

(** The names assigned before [globalThis] is. *)
Lemma class_prototype_kept W st st' v cls p :
  stable eq W st st' -> cls ∉ W -> "prototype" ∉ W ->
  class_prototype st v cls = Some p -> class_prototype st' v cls = Some p.
Proof. apply (class_prototype_stable eq). Qed.

(** X10: against a binding that has GPUAdapter but no GPUDevice, loading
    cts.js throws a TypeError at its third statement, and leaves the
    binding half patched: exports.create and the empty features set on
    GPUAdapter.prototype are installed, and no other property of an
    existing object has changed, so no device has lost, pushErrorScope or
    popErrorScope from cts.js. *)
Theorem cts_main_without_GPUDevice (e : env) (st0 : state) (x ap : loc)
  (Hexports : exports e = VRef x) (Hx : x ∈ dom (heap st0))
  (Hadapter : class_prototype st0 (gpu e) "GPUAdapter" = Some ap)
  (Hap : ap ∈ dom (heap st0))
  (Hmissing : lookup_prop (heap st0) (gpu e) "GPUDevice" = Returns VUndefined) :
  exists st' f s,
    cts_main e st0 = (Throws TypeError, st') /\
    stable eq ["create"; "features"] st0 st' /\
    owns st' x "create" (VRef f) /\
    has_slot st' f (SFunction (fn_create (gpu e))) /\
    owns st' ap "features" (VRef s) /\
    has_slot st' s (SSet []).
Proof.
  destruct (stmt_create_returns e x st0 Hexports Hx) as (s1 & H1).
  destruct (stmt_create_run e st0 s1 H1) as (S01 & x' & f & Hx' & Hown & Hf).
  assert (x' = x) as -> by congruence.
  assert (class_prototype s1 (gpu e) "GPUAdapter" = Some ap) as Hadapter1.
  { eapply class_prototype_kept; [exact S01 | | | exact Hadapter]; not_in_list. }
  destruct (stmt_features_returns e s1 ap Hadapter1
              (stable_dom _ _ _ _ _ S01 Hap)) as (s2 & H2).
  destruct (stmt_features_run e s1 s2 H2) as (S12 & ap' & s & Hap' & Hfeat & Hs).
  assert (ap' = ap) as -> by congruence.
  pose proof (stable_step ["create"] ["features"] ["create"; "features"]
                _ _ _ S01 S12 ltac:(sub_list) ltac:(sub_list)) as S02.
  exists s2, f, s. split; [|split; [exact S02|]].
  - unfold cts_main. rewrite (bind_returns _ _ _ _ _ H1).
    rewrite (bind_returns _ _ _ _ _ H2).
    apply bind_throws. unfold stmt_lost. apply missing_class_throws.
    eapply (lookup_prop_stable eq); [exact S02 | not_in_list | exact Hmissing].
  - split; [eapply (owns_stable eq); [exact S12 | not_in_list | exact Hown]|].
    split; [eapply has_slot_stable; [exact S12 | exact Hf]|].
    split; [exact Hfeat | exact Hs].
Qed.

Lemma cts_main_without_GPUDevice_witness :
  exports Sample.env0 = VRef 6 /\
  6%positive ∈ dom (heap Partial.state_without_GPUDevice) /\
  class_prototype Partial.state_without_GPUDevice (gpu Sample.env0) "GPUAdapter"
    = Some 3%positive /\
  3%positive ∈ dom (heap Partial.state_without_GPUDevice) /\
  lookup_prop (heap Partial.state_without_GPUDevice) (gpu Sample.env0)
    "GPUDevice" = Returns VUndefined /\
  exists st' s,
    cts_main Sample.env0 Partial.state_without_GPUDevice
      = (Throws TypeError, st') /\
    owns st' 3%positive "features" (VRef s).
Proof.
  assert (exports Sample.env0 = VRef 6) as Hexports by reflexivity.
  assert (6%positive ∈ dom (heap Partial.state_without_GPUDevice)) as Hx
    by (apply (bool_decide_unpack _); vm_compute; exact I).
  assert (class_prototype Partial.state_without_GPUDevice (gpu Sample.env0)
            "GPUAdapter" = Some 3%positive) as Hadapter
    by (vm_compute; reflexivity).
  assert (3%positive ∈ dom (heap Partial.state_without_GPUDevice)) as Hap
    by (apply (bool_decide_unpack _); vm_compute; exact I).
  assert (lookup_prop (heap Partial.state_without_GPUDevice) (gpu Sample.env0)
            "GPUDevice" = Returns VUndefined) as Hmissing
    by (vm_compute; reflexivity).
  repeat (split; [assumption|]).
  destruct (cts_main_without_GPUDevice Sample.env0
              Partial.state_without_GPUDevice 6%positive 3%positive
              Hexports Hx Hadapter Hap Hmissing)
    as (st' & f & s & Hrun & _ & _ & _ & Hown & _).
  exists st', s. split; assumption.
Defined.

(** *** The two globals *)

(** Writing to an object the value that a lookup already finds leaves the
    lookup as it was, wherever on the chain the object is. *)
Lemma get_chain_set_same n h x k u g ob :
  get_chain n h x k = Some u ->
  get_chain n (<[g:=set_own k u ob]> h) x k = Some u.
Proof.
  revert x. induction n as [|n IH]; intros x H; [discriminate|]. cbn in *.
  destruct (decide (g = x)) as [->|Hne].
  - rewrite lookup_insert_eq. cbn. now rewrite lookup_insert_eq.
  - rewrite lookup_insert_ne by exact Hne.
    destruct (h !! x) as [o|]; [|discriminate].
    destruct (obj_props o !! k); [exact H|].
    destruct (obj_proto o); [apply IH, H | exact H].
Qed.

Lemma lookup_prop_set_same h o k u g ob :
  h !! g = Some ob ->
  lookup_prop h o k = Returns u ->
  lookup_prop (<[g:=set_own k u ob]> h) o k = Returns u.
Proof.
  intros Hg. destruct o; try discriminate. cbn.
  destruct (get_chain (size h) h l k) as [v|] eqn:E; [|discriminate].
  intros [= ->].
  rewrite map_size_insert_Some by (rewrite Hg; eauto).
  now rewrite (get_chain_set_same _ _ _ _ _ g ob E).
Qed.

(** X12: after cts.js has run, globalThis.GPUBufferUsage and
    gpu.GPUBufferUsage are the same value: it is an own property of the
    global object, reading it from the global object or from the binding
    gives the same result, and it is what gpu.GPUBufferUsage was before
    cts.js ran whenever that could be read. *)
Theorem globalThis_GPUBufferUsage_is_the_bindings (e : env) (st0 st1 : state)
  (Hload : cts_main e st0 = (Returns tt, st1)) :
  exists g u,
    globalThis e = VRef g /\
    owns st1 g "GPUBufferUsage" u /\
    lookup_prop (heap st1) (globalThis e) "GPUBufferUsage" = Returns u /\
    lookup_prop (heap st1) (gpu e) "GPUBufferUsage" = Returns u /\
    forall u0, lookup_prop (heap st0) (gpu e) "GPUBufferUsage" = Returns u0 ->
      u0 = u.
Proof.
  unfold cts_main in Hload.
  apply bind_run in Hload as ([] & s1 & H1 & H).
  apply bind_run in H as ([] & s2 & H2 & H).
  apply bind_run in H as ([] & s3 & H3 & H).
  apply bind_run in H as ([] & s4 & H4 & H).
  apply bind_run in H as ([] & s5 & H5 & H).
  apply bind_run in H as ([] & s6 & H6 & H7).
  set (W := ["create"; "features"; "lost"; "pushErrorScope"; "popErrorScope"]).
  assert (stable eq W st0 s5) as S05.
  { eapply stable_trans; [exact _ | eapply run_stable, H1; apply stmt_create_steady; in_list|].
    eapply stable_trans; [exact _ | eapply run_stable, H2; apply stmt_features_steady; in_list|].
    eapply stable_trans; [exact _ | eapply run_stable, H3; apply stmt_lost_steady; in_list|].
    eapply stable_trans; [exact _ | eapply run_stable, H4; apply stmt_pushErrorScope_steady; in_list|].
    eapply run_stable, H5. apply stmt_popErrorScope_steady. in_list. }
  pose proof (stmt_GPUValidationError_stable e s6 st1 H7) as S67.
  unfold stmt_GPUBufferUsage in H6.
  apply bind_run in H6 as (u & s5' & Hget & Hset).
  destruct (get_run _ _ _ _ _ Hget) as [Lu E5].
  unfold set in Hset.
  destruct (globalThis e) as [| | | | |g] eqn:Eg; try discriminate.
  destruct (heap s5' !! g) as [ob|] eqn:Hob; [|discriminate].
  injection Hset as <-.
  set (s6 := with_heap s5' _) in *.
  assert (owns s6 g "GPUBufferUsage" u) as Hown6.
  { exists (set_own "GPUBufferUsage" u ob). subst s6. cbn.
    now rewrite !lookup_insert_eq. }
  assert (lookup_prop (heap s6) (gpu e) "GPUBufferUsage" = Returns u) as Lu6.
  { subst s6. cbn. apply lookup_prop_set_same; [exact Hob|]. now rewrite E5. }
  assert (owns st1 g "GPUBufferUsage" u) as Hown1
    by (eapply (owns_stable eq); [exact S67 | not_in_list | exact Hown6]).
  exists g, u. split; [reflexivity|]. split; [exact Hown1|].
  split; [destruct Hown1 as (o1 & Ho1 & Hk1); eapply lookup_prop_own; eauto|].
  split; [eapply (lookup_prop_stable eq); [exact S67 | not_in_list | exact Lu6]|].
  intros u0 Hu0.
  pose proof (lookup_prop_stable eq W st0 s5 (gpu e) "GPUBufferUsage" u0 S05
                ltac:(not_in_list) Hu0).
  congruence.
Qed.

Lemma globalThis_GPUBufferUsage_is_the_bindings_witness :
  cts_main Sample.env0 Sample.state0 = (Returns tt, Sample.loaded) /\
  exists u,
    lookup_prop (heap Sample.loaded) (globalThis Sample.env0) "GPUBufferUsage"
      = Returns u /\
    lookup_prop (heap Sample.loaded) (gpu Sample.env0) "GPUBufferUsage"
      = Returns u.
Proof.
  assert (cts_main Sample.env0 Sample.state0 = (Returns tt, Sample.loaded))
    as Hload by (vm_compute; reflexivity).
  split; [exact Hload|].
  destruct (globalThis_GPUBufferUsage_is_the_bindings Sample.env0 Sample.state0
              Sample.loaded Hload) as (g & u & _ & _ & Hg & Hb & _).
  exists u. split; assumption.
Defined.

(** X13: after cts.js has run, globalThis.GPUValidationError is a class
    made by cts.js: a function object that did not exist before, whose
    prototype property is another new object whose constructor property
    points back to it; calling it without new, with any arguments, throws
    a TypeError and changes nothing. *)
Theorem GPUValidationError_is_a_class (e : env) (st0 st1 : state)
  (args : list value)
  (Hload : cts_main e st0 = (Returns tt, st1)) :
  exists g c p,
    globalThis e = VRef g /\
    owns st1 g "GPUValidationError" (VRef c) /\
    has_slot st1 c (SFunction fn_GPUValidationError) /\
    owns st1 c "prototype" (VRef p) /\
    owns st1 p "constructor" (VRef c) /\
    c <> p /\ (c ∉ dom (heap st0)) /\ (p ∉ dom (heap st0)) /\
    call (VRef c) args st1 = (Throws TypeError, st1).
Proof.
  unfold cts_main in Hload.
  apply bind_run in Hload as ([] & s1 & H1 & H).
  apply bind_run in H as ([] & s2 & H2 & H).
  apply bind_run in H as ([] & s3 & H3 & H).
  apply bind_run in H as ([] & s4 & H4 & H).
  apply bind_run in H as ([] & s5 & H5 & H).
  apply bind_run in H as ([] & s6 & H6 & H7).
  assert (stable eq main_writes st0 s6) as S06.
  { eapply stable_trans; [exact _ | eapply run_stable, H1; apply stmt_create_steady; in_list|].
    eapply stable_trans; [exact _ | eapply run_stable, H2; apply stmt_features_steady; in_list|].
    eapply stable_trans; [exact _ | eapply run_stable, H3; apply stmt_lost_steady; in_list|].
    eapply stable_trans; [exact _ | eapply run_stable, H4; apply stmt_pushErrorScope_steady; in_list|].
    eapply stable_trans; [exact _ | eapply run_stable, H5; apply stmt_popErrorScope_steady; in_list|].
    eapply run_stable, H6. apply stmt_GPUBufferUsage_steady. in_list. }
  unfold stmt_GPUValidationError in H7.
  destruct (class_GPUValidationError_run [] s6)
    as (c & p & s7 & Hc & _ & Hc6 & Hp6 & Hne & Hslot & Hproto & Hctor & _).
  rewrite (bind_returns _ _ _ _ _ Hc) in H7.
  assert (stable eq ["GPUValidationError"] s7 st1) as S71
    by (eapply run_stable, H7; apply steady_set; [exact _ | in_list]).
  destruct (set_run _ _ _ _ _ _ H7) as (g & Hg & Hown & _).
  assert (has_slot st1 c (SFunction fn_GPUValidationError)) as Hslot1
    by (eapply has_slot_stable; [exact S71 | exact Hslot]).
  exists g, c, p. split; [exact Hg|]. split; [exact Hown|].
  split; [exact Hslot1|].
  split; [eapply (owns_stable eq); [exact S71 | not_in_list | exact Hproto]|].
  split; [eapply (owns_stable eq); [exact S71 | not_in_list | exact Hctor]|].
  split; [exact Hne|].
  split; [intros Hin; apply Hc6; eapply stable_dom; [exact S06 | exact Hin]|].
  split; [intros Hin; apply Hp6; eapply stable_dom; [exact S06 | exact Hin]|].
  rewrite (call_function _ _ _ _ Hslot1). reflexivity.
Qed.

Lemma GPUValidationError_is_a_class_witness :
  cts_main Sample.env0 Sample.state0 = (Returns tt, Sample.loaded) /\
  exists c,
    lookup_prop (heap Sample.loaded) (globalThis Sample.env0)
      "GPUValidationError" = Returns (VRef c) /\
    call (VRef c) [VStr "message"] Sample.loaded
      = (Throws TypeError, Sample.loaded).
Proof.
  assert (cts_main Sample.env0 Sample.state0 = (Returns tt, Sample.loaded))
    as Hload by (vm_compute; reflexivity).
  split; [exact Hload|].
  destruct (GPUValidationError_is_a_class Sample.env0 Sample.state0
              Sample.loaded [VStr "message"] Hload)
    as (g & c & p & Hg & (o & Ho & Hk) & _ & _ & _ & _ & _ & _ & Hcall).
  exists c. split; [|exact Hcall].
  rewrite Hg. eapply lookup_prop_own; eassumption.
Defined.

End LoadFacts.

Module ResolverFacts.
Import Js Heap Shim Program Logic HeapFacts OpFacts SteadyFacts MainFacts.
Import SealFacts LoadFacts.

Lemma has_slot_object st l s :
  has_slot st l s -> exists o, heap st !! l = Some o /\ obj_slot o = s.
Proof.
  unfold has_slot, slot_of. destruct (heap st !! l) as [o|]; [|discriminate].
  intros [= <-]. eauto.
Qed.

(** The resolving functions of the promise that [stmt_lost] installs. *)
Lemma stmt_lost_resolvers e st st' :
  stmt_lost e st = (Returns tt, st') ->
  exists dp p r1 r2,
    class_prototype st (gpu e) "GPUDevice" = Some dp /\
    owns st' dp "lost" (VRef p) /\
    has_slot st' r1 (SFunction (fn_resolve p)) /\
    has_slot st' r2 (SFunction (fn_reject p)).
Proof.
  intros H. rewrite stmt_lost_patch in H.
  apply bind_run in H as (c & s1 & H1 & H).
  apply bind_run in H as (proto & s2 & H2 & H).
  apply bind_run in H as (v & s3 & H3 & H).
  apply bind_run in H3 as (ex & sx & Hx & H3).
  destruct (closure_run [] _ _ _ _ Hx) as (_ & l & -> & Hl).
  destruct (new_Promise_lost_run _ _ _ _ Hl H3)
    as (p & r1 & r2 & sa & sb & -> & Hp & Hr1 & Hr2).
  destruct (alloc_internal_state _ _ _ _ Hr1) as [_ Esb].
  destruct (alloc_internal_state _ _ _ _ Hr2) as [_ Es3].
  assert (has_slot sb r1 (SFunction (fn_resolve p))) as Hs1.
  { eapply has_slot_new. rewrite Esb. cbn. apply lookup_insert_eq. }
  assert (has_slot s3 r2 (SFunction (fn_reject p))) as Hs2.
  { eapply has_slot_new. rewrite Es3. cbn. apply lookup_insert_eq. }
  assert (has_slot s3 r1 (SFunction (fn_resolve p))) as Hs1'.
  { eapply (has_slot_stable []); [|exact Hs1].
    eapply run_stable, Hr2. apply steady_alloc_internal. exact _. }
  destruct (set_run _ _ _ _ _ _ H) as (dp & -> & Hown & Hslots).
  destruct (get_run _ _ _ _ _ H1) as [L1 E1].
  destruct (get_run _ _ _ _ _ H2) as [L2 E2].
  exists dp, p, r1, r2.
  split; [unfold class_prototype; rewrite L1, <- E1, L2; reflexivity|].
  split; [exact Hown|]. split; apply Hslots; assumption.
Qed.

(** X14: after cts.js has run in a well-formed state, the two resolving
    functions of the promise installed as GPUDevice.prototype.lost exist,
    the promise is pending, and every object that is a resolving function
    of it is out of reach: the running code holds no reference to it and
    no object stores one.  The state is well-formed again: every reference
    held by the code or stored in an object points into the heap. *)
Theorem lost_resolvers_are_sealed (e : env) (st0 st1 : state)
  (Hwf : well_formed e st0 = true)
  (Hload : cts_main e st0 = (Returns tt, st1)) :
  exists dp p r1 r2,
    class_prototype st1 (gpu e) "GPUDevice" = Some dp /\
    owns st1 dp "lost" (VRef p) /\
    has_slot st1 p (SPromise Pending) /\
    has_slot st1 r1 (SFunction (fn_resolve p)) /\
    has_slot st1 r2 (SFunction (fn_reject p)) /\
    (forall r o, heap st1 !! r = Some o -> resolver_of p (obj_slot o) ->
       (r ∉ known st1) /\
       forall l o', heap st1 !! l = Some o' -> ~ holds o' (VRef r)) /\
    known st1 ⊆ dom (heap st1) /\
    (forall l o r, heap st1 !! l = Some o -> holds o (VRef r) ->
       r ∈ dom (heap st1)).
Proof.
  destruct (well_formed_Inv e st0 Hwf) as [HI0 Hgpu].
  destruct (cts_main_run e st0 st1 Hload) as (_ & ap & dp & s & p & Hinst).
  pose proof (inst_device_class _ _ _ _ _ _ Hinst) as Hclass.
  pose proof (inst_lost _ _ _ _ _ _ Hinst) as Hown.
  destruct (cts_main_sealed e st0 st1 dp p HI0 Hgpu Hload Hclass Hown)
    as (S & HI1).
  assert (exists r1 r2, has_slot st1 r1 (SFunction (fn_resolve p)) /\
            has_slot st1 r2 (SFunction (fn_reject p))) as (r1 & r2 & Hr1 & Hr2).
  { unfold cts_main in Hload.
    apply bind_run in Hload as ([] & s1 & H1 & H).
    apply bind_run in H as ([] & s2 & H2 & H).
    apply bind_run in H as ([] & s3 & H3 & H).
    apply bind_run in H as ([] & s4 & H4 & H).
    apply bind_run in H as ([] & s5 & H5 & H).
    apply bind_run in H as ([] & s6 & H6 & H7).
    set (W := ["pushErrorScope"; "popErrorScope"; "GPUBufferUsage";
               "GPUValidationError"]).
    assert (stable eq W s3 st1) as S31.
    { eapply stable_trans; [exact _ | eapply run_stable, H4; apply stmt_pushErrorScope_steady; in_list|].
      eapply stable_trans; [exact _ | eapply run_stable, H5; apply stmt_popErrorScope_steady; in_list|].
      eapply stable_trans; [exact _ | eapply run_stable, H6; apply stmt_GPUBufferUsage_steady; in_list|].
      eapply run_stable, H7. apply stmt_GPUValidationError_steady. in_list. }
    destruct (stmt_lost_resolvers e s2 s3 H3)
      as (dp3 & p3 & r1 & r2 & Hdp3 & Hown3 & Hr1 & Hr2).
    assert (class_prototype st1 (gpu e) "GPUDevice" = Some dp3) as Hdp1.
    { assert (stable eq ("lost" :: W) s2 st1) as S21.
      { eapply (stable_step ["lost"] W); [|exact S31 | sub_list | sub_list].
        eapply run_stable, H3. apply stmt_lost_steady. in_list. }
      eapply (class_prototype_kept ("lost" :: W));
        [exact S21 | not_in_list | not_in_list | exact Hdp3]. }
    assert (dp3 = dp) as -> by congruence.
    assert (VRef p3 = VRef p) as [= ->].
    { eapply owns_fun; [|exact Hown].
      eapply (owns_stable eq); [exact S31 | not_in_list | exact Hown3]. }
    exists r1, r2. split; eapply has_slot_stable; eauto. }
  exists dp, p, r1, r2.
  split; [exact Hclass|]. split; [exact Hown|].
  split; [exact (inst_lost_pending _ _ _ _ _ _ Hinst)|].
  split; [exact Hr1|]. split; [exact Hr2|].
  split; [|split; [exact (inv_known _ _ _ HI1) | exact (inv_closed _ _ _ HI1)]].
  intros r o Hr Hres.
  assert (r ∈ S) as HrS
    by (apply (inv_resolvers _ _ _ HI1 r o p Hr); [set_solver | exact Hres]).
  split; [exact (inv_unknown _ _ _ HI1 r HrS)|].
  intros l o' Hl Hh. exact (inv_unheld _ _ _ HI1 l o' r Hl Hh HrS).
Qed.

Lemma lost_resolvers_are_sealed_witness :
  well_formed Sample.env0 Sample.state0 = true /\
  cts_main Sample.env0 Sample.state0 = (Returns tt, Sample.loaded) /\
  exists p r1 r2,
    has_slot Sample.loaded r1 (SFunction (fn_resolve p)) /\
    has_slot Sample.loaded r2 (SFunction (fn_reject p)) /\
    (r1 ∉ known Sample.loaded) /\ (r2 ∉ known Sample.loaded).
Proof.
  assert (well_formed Sample.env0 Sample.state0 = true)
    as Hwf by (vm_compute; reflexivity).
  assert (cts_main Sample.env0 Sample.state0 = (Returns tt, Sample.loaded))
    as Hload by (vm_compute; reflexivity).
  split; [exact Hwf|]. split; [exact Hload|].
  destruct (lost_resolvers_are_sealed Sample.env0 Sample.state0 Sample.loaded
              Hwf Hload)
    as (dp & p & r1 & r2 & _ & _ & _ & Hr1 & Hr2 & Hsealed & _).
  exists p, r1, r2. split; [exact Hr1|]. split; [exact Hr2|].
  destruct (has_slot_object _ _ _ Hr1) as (o1 & E1 & Hs1).
  destruct (has_slot_object _ _ _ Hr2) as (o2 & E2 & Hs2).
  split.
  - apply (Hsealed r1 o1 E1). left. exact Hs1.
  - apply (Hsealed r2 o2 E2). right. exact Hs2.
Defined.

End ResolverFacts.

(** ** The properties that cts.js assigns *)

Module FrameFacts.
Import Js Heap Shim Program Logic HeapFacts OpFacts SteadyFacts MainFacts.
Import LoadFacts Frame.

Lemma changed_at_refl W st : changed_at W st st.
Proof. intros l o H. exists o. auto. Qed.

Lemma changed_at_trans W st1 st2 st3 :
  changed_at W st1 st2 -> changed_at W st2 st3 -> changed_at W st1 st3.
Proof.
  intros H12 H23 l o H. destruct (H12 l o H) as (o2 & E2 & P2 & S2 & W2).
  destruct (H23 l o2 E2) as (o3 & E3 & P3 & S3 & W3).
  exists o3. repeat split; [exact E3 | congruence | congruence |].
  intros k Hk. rewrite W3, W2; auto.
Qed.

Lemma changed_at_weaken W W' st st' :
  W ⊆ W' -> changed_at W st st' -> changed_at W' st st'.
Proof.
  intros HW H l o E. destruct (H l o E) as (o' & E' & P' & S' & Hk).
  exists o'. repeat split; auto.
Qed.

(** A run that assigns no property of an old object changes none. *)
Lemma stable_changed_at st st' : stable eq [] st st' -> changed_at [] st st'.
Proof.
  intros [_ H] l o E. destruct (H l o E) as (o' & E' & P' & S' & Hk).
  exists o'. repeat split; auto. intros k _. apply Hk. set_solver.
Qed.

Lemma set_changed_at o k v st st' :
  set o k v st = (Returns tt, st') ->
  exists l, o = VRef l /\ changed_at [(l, k)] st st'.
Proof.
  unfold set. destruct o as [| | | | |l]; try discriminate.
  destruct (heap st !! l) as [ob|] eqn:E; [|discriminate].
  intros [= <-]. exists l. split; [reflexivity|].
  intros l' o' E'. cbn.
  destruct (decide (l = l')) as [<-|Hne].
  - rewrite lookup_insert_eq. exists (set_own k v ob).
    assert (o' = ob) as -> by congruence. cbn.
    split; [reflexivity|]. split; [reflexivity|]. split; [reflexivity|].
    intros k' Hk'.
    apply lookup_insert_ne. intros ->. apply Hk'. set_solver.
  - rewrite lookup_insert_ne by exact Hne. exists o'. auto.
Qed.

Lemma get_changed_at o k st v st' :
  get o k st = (Returns v, st') -> changed_at [] st st'.
Proof.
  intros H. apply stable_changed_at. eapply run_stable, H.
  apply steady_get. exact _.
Qed.

Section Statements.
Variable e : env.

Lemma patch_changed_at cls key (mk : M value) st st' :
  steady eq [] mk ->
  (let! c := get (gpu e) cls in
   let! proto := get c "prototype" in
   let! v := mk in
   set proto key v) st = (Returns tt, st') ->
  exists p, class_prototype st (gpu e) cls = Some p /\
    changed_at [(p, key)] st st'.
Proof.
  intros Hmk H.
  apply bind_run in H as (c & s1 & H1 & H).
  apply bind_run in H as (proto & s2 & H2 & H).
  apply bind_run in H as (v & s3 & H3 & H).
  destruct (set_changed_at _ _ _ _ _ H) as (p & -> & Hset).
  destruct (get_run _ _ _ _ _ H1) as [L1 E1].
  destruct (get_run _ _ _ _ _ H2) as [L2 E2].
  exists p. split.
  - unfold class_prototype. rewrite L1, <- E1, L2. reflexivity.
  - eapply changed_at_trans; [|exact Hset].
    apply (changed_at_weaken []); [set_solver|].
    eapply changed_at_trans; [eapply get_changed_at, H1|].
    eapply changed_at_trans; [eapply get_changed_at, H2|].
    apply stable_changed_at. eapply run_stable, H3. exact Hmk.
Qed.

Lemma stmt_create_changed_at st st' :
  stmt_create e st = (Returns tt, st') ->
  exists x, exports e = VRef x /\ changed_at [(x, "create")] st st'.
Proof.
  intros H. unfold stmt_create in H.
  apply bind_run in H as (f & s1 & H1 & H).
  destruct (set_changed_at _ _ _ _ _ H) as (x & Hx & Hset).
  exists x. split; [exact Hx|].
  eapply changed_at_trans; [|exact Hset].
  apply (changed_at_weaken []); [set_solver|].
  apply stable_changed_at. eapply run_stable, H1. apply steady_alloc. exact _.
Qed.

Lemma stmt_GPUBufferUsage_changed_at st st' :
  stmt_GPUBufferUsage e st = (Returns tt, st') ->
  exists g, globalThis e = VRef g /\ changed_at [(g, "GPUBufferUsage")] st st'.
Proof.
  intros H. unfold stmt_GPUBufferUsage in H.
  apply bind_run in H as (u & s1 & H1 & H).
  destruct (set_changed_at _ _ _ _ _ H) as (g & Hg & Hset).
  exists g. split; [exact Hg|].
  eapply changed_at_trans; [|exact Hset].
  apply (changed_at_weaken []); [set_solver|].
  eapply get_changed_at, H1.
Qed.

Lemma stmt_GPUValidationError_changed_at st st' :
  stmt_GPUValidationError e st = (Returns tt, st') ->
  exists g, globalThis e = VRef g /\
    changed_at [(g, "GPUValidationError")] st st'.
Proof.
  intros H. unfold stmt_GPUValidationError in H.
  apply bind_run in H as (c & s1 & H1 & H).
  destruct (set_changed_at _ _ _ _ _ H) as (g & Hg & Hset).
  exists g. split; [exact Hg|].
  eapply changed_at_trans; [|exact Hset].
  apply (changed_at_weaken []); [set_solver|].
  apply stable_changed_at. eapply run_stable, H1.
  apply class_GPUValidationError_steady.
Qed.

End Statements.

(** X15: a run of cts.js that returns assigns no property of an object that
    existed before other than these seven: create on exports, features on
    GPUAdapter.prototype, lost, pushErrorScope and popErrorScope on
    GPUDevice.prototype, and GPUBufferUsage and GPUValidationError on
    globalThis.  Every other own property of every existing object, and
    every prototype link and internal slot, is as it was. *)
Theorem cts_main_assigns_seven_properties (e : env) (st0 st1 : state)
  (Hload : cts_main e st0 = (Returns tt, st1)) :
  exists x g ap dp,
    exports e = VRef x /\ globalThis e = VRef g /\
    class_prototype st1 (gpu e) "GPUAdapter" = Some ap /\
    class_prototype st1 (gpu e) "GPUDevice" = Some dp /\
    changed_at
      [(x, "create"); (ap, "features"); (dp, "lost"); (dp, "pushErrorScope");
       (dp, "popErrorScope"); (g, "GPUBufferUsage"); (g, "GPUValidationError")]
      st0 st1.
Proof.
  pose proof Hload as H. unfold cts_main in H.
  apply bind_run in H as ([] & s1 & H1 & H).
  apply bind_run in H as ([] & s2 & H2 & H).
  apply bind_run in H as ([] & s3 & H3 & H).
  apply bind_run in H as ([] & s4 & H4 & H).
  apply bind_run in H as ([] & s5 & H5 & H).
  apply bind_run in H as ([] & s6 & H6 & H7).
  destruct (stmt_create_changed_at e _ _ H1) as (x & Hx & C1).
  destruct (patch_changed_at e "GPUAdapter" "features" new_Set s1 s2
              ltac:(apply steady_alloc; exact _) H2) as (ap & Hap & C2).
  rewrite stmt_lost_patch in H3.
  destruct (patch_changed_at e "GPUDevice" "lost" _ s2 s3
              (lost_maker_steady []) H3) as (dp & Hdp & C3).
  destruct (patch_changed_at e "GPUDevice" "pushErrorScope"
              (closure fn_pushErrorScope) s3 s4
              ltac:(apply steady_alloc; exact _) H4) as (dp4 & Hdp4 & C4).
  destruct (patch_changed_at e "GPUDevice" "popErrorScope"
              (closure fn_popErrorScope) s4 s5
              ltac:(apply steady_alloc; exact _) H5) as (dp5 & Hdp5 & C5).
  destruct (stmt_GPUBufferUsage_changed_at e _ _ H6) as (g & Hg & C6).
  destruct (stmt_GPUValidationError_changed_at e _ _ H7) as (g' & Hg' & C7).
  assert (g' = g) as -> by congruence.
  destruct (cts_main_run e st0 st1 Hload) as (_ & ap1 & dp1 & s & p & Hinst).
  pose proof (inst_adapter_class _ _ _ _ _ _ Hinst) as Hap1.
  pose proof (inst_device_class _ _ _ _ _ _ Hinst) as Hdp1.
  assert (forall (m : M unit) W sa sb cls q,
            steady eq W m -> m sa = (Returns tt, sb) ->
            cls ∉ W -> "prototype" ∉ W ->
            class_prototype sa (gpu e) cls = Some q ->
            class_prototype sb (gpu e) cls = Some q) as Hstep.
  { intros m W sa sb cls q Hm Hrun Hc Hp Hq.
    eapply class_prototype_kept; [eapply run_stable, Hrun; exact Hm | | |];
      eassumption. }
  assert (steady eq main_writes (stmt_features e)) as M2
    by (apply stmt_features_steady; in_list).
  assert (steady eq main_writes (stmt_lost e)) as M3
    by (apply stmt_lost_steady; in_list).
  assert (steady eq main_writes (stmt_pushErrorScope e)) as M4
    by (apply stmt_pushErrorScope_steady; in_list).
  assert (steady eq main_writes (stmt_popErrorScope e)) as M5
    by (apply stmt_popErrorScope_steady; in_list).
  assert (steady eq main_writes (stmt_GPUBufferUsage e)) as M6
    by (apply stmt_GPUBufferUsage_steady; in_list).
  assert (steady eq main_writes (stmt_GPUValidationError e)) as M7
    by (apply stmt_GPUValidationError_steady; in_list).
  rewrite <- stmt_lost_patch in H3.
  assert (forall s cls q, cls = "GPUAdapter" \/ cls = "GPUDevice" ->
            s = s1 \/ s = s2 \/ s = s3 \/ s = s4 ->
            class_prototype s (gpu e) cls = Some q ->
            class_prototype st1 (gpu e) cls = Some q) as Hlater.
  { assert (forall cls, cls = "GPUAdapter" \/ cls = "GPUDevice" ->
              cls ∉ main_writes) as Hcls
      by (intros cls [-> | ->]; not_in_list).
    assert ("prototype" ∉ main_writes) as Hproto by not_in_list.
    intros s0 cls q Hc Hs Hq. specialize (Hcls cls Hc).
    assert (forall q, class_prototype s4 (gpu e) cls = Some q ->
              class_prototype st1 (gpu e) cls = Some q) as L4.
    { intros q' Hq'.
      apply (Hstep _ _ _ _ _ _ M7 H7 Hcls Hproto).
      apply (Hstep _ _ _ _ _ _ M6 H6 Hcls Hproto).
      apply (Hstep _ _ _ _ _ _ M5 H5 Hcls Hproto). exact Hq'. }
    assert (forall q, class_prototype s3 (gpu e) cls = Some q ->
              class_prototype st1 (gpu e) cls = Some q) as L3.
    { intros q' Hq'. apply L4.
      apply (Hstep _ _ _ _ _ _ M4 H4 Hcls Hproto). exact Hq'. }
    assert (forall q, class_prototype s2 (gpu e) cls = Some q ->
              class_prototype st1 (gpu e) cls = Some q) as L2.
    { intros q' Hq'. apply L3.
      apply (Hstep _ _ _ _ _ _ M3 H3 Hcls Hproto). exact Hq'. }
    destruct Hs as [-> | [-> | [-> | ->]]]; auto.
    apply L2. apply (Hstep _ _ _ _ _ _ M2 H2 Hcls Hproto). exact Hq. }
  assert (ap = ap1) as ->
    by (pose proof (Hlater s1 _ _ (or_introl eq_refl) ltac:(auto) Hap); congruence).
  assert (dp = dp1) as ->
    by (pose proof (Hlater s2 _ _ (or_intror eq_refl) ltac:(auto) Hdp); congruence).
  assert (dp4 = dp1) as ->
    by (pose proof (Hlater s3 _ _ (or_intror eq_refl) ltac:(auto) Hdp4); congruence).
  assert (dp5 = dp1) as ->
    by (pose proof (Hlater s4 _ _ (or_intror eq_refl) ltac:(auto 6) Hdp5); congruence).
  exists x, g, ap1, dp1.
  split; [exact Hx|]. split; [exact Hg|]. split; [exact Hap1|].
  split; [exact Hdp1|].
  set (W := [(x, "create"); (ap1, "features"); (dp1, "lost");
             (dp1, "pushErrorScope"); (dp1, "popErrorScope");
             (g, "GPUBufferUsage"); (g, "GPUValidationError")]).
  assert (forall lk sa sb, lk ∈ W -> changed_at [lk] sa sb -> changed_at W sa sb)
    as Hw.
  { intros lk sa sb Hin. apply changed_at_weaken. intros y Hy.
    apply list_elem_of_singleton in Hy. now subst y. }
  eapply changed_at_trans; [eapply Hw, C1; subst W; set_solver|].
  eapply changed_at_trans; [eapply Hw, C2; subst W; set_solver|].
  eapply changed_at_trans; [eapply Hw, C3; subst W; set_solver|].
  eapply changed_at_trans; [eapply Hw, C4; subst W; set_solver|].
  eapply changed_at_trans; [eapply Hw, C5; subst W; set_solver|].
  eapply changed_at_trans; [eapply Hw, C6; subst W; set_solver|].
  eapply Hw, C7. subst W. set_solver.
Qed.

Lemma cts_main_assigns_seven_properties_witness :
  cts_main Sample.env0 Sample.state0 = (Returns tt, Sample.loaded) /\
  exists x g ap dp,
    changed_at
      [(x, "create"); (ap, "features"); (dp, "lost"); (dp, "pushErrorScope");
       (dp, "popErrorScope"); (g, "GPUBufferUsage"); (g, "GPUValidationError")]
      Sample.state0 Sample.loaded.
Proof.
  assert (cts_main Sample.env0 Sample.state0 = (Returns tt, Sample.loaded))
    as Hload by (vm_compute; reflexivity).
  split; [exact Hload|].
  destruct (cts_main_assigns_seven_properties Sample.env0 Sample.state0
              Sample.loaded Hload) as (x & g & ap & dp & _ & _ & _ & _ & H).
  exists x, g, ap, dp. exact H.
Defined.

End FrameFacts.

(** ** The example program *)

Module ScriptFacts.
Import Js RowPadding Capture Script.
Local Open Scope Z_scope.

Ltac unfold_program :=
  cbv delta [member optional ask createCapture copyToBuffer Capture.call];
  cbn [exec Script.bind lift Capture.bind outputBuffer captured_texture nullish].

Ltac answer binding :=
  unfold_program;
  lazymatch goal with
  | |- context [binding ?c ?w] =>
      let v := fresh "v" in let x := fresh "x" in let w' := fresh "w" in
      let E := fresh "E" in
      destruct (binding c w) as [[v|x] w'] eqn:E
  end.

Ltac check_member :=
  unfold_program;
  match goal with
  | |- context [nullish ?v] =>
      is_var v; let N := fresh "N" in destruct (nullish v) eqn:N
  end.

Ltac run_program binding :=
  repeat first [check_member | answer binding]; unfold_program.

(** X16: when requestAdapter resolves to null or undefined, the example
    program asks for no device (adapter?.requestDevice() makes no call),
    and fails with a TypeError on device.createShaderModule: the only call
    into the binding is requestAdapter. *)
Theorem main_without_adapter {World : Type}
  (binding : bindingCall -> World -> outcome value * World) (w w1 : World)
  (gpu : value) (usage : BufferUsage) (tusage : TextureUsage) (adapter : value)
  (Hgpu : nullish gpu = false)
  (Hanswer : binding (requestAdapter gpu) w = (Returned adapter, w1))
  (Hnone : nullish adapter = true) :
  exec binding (main gpu usage tusage) w =
  (Failed Heap.TypeError, [answered (requestAdapter gpu) adapter], w1).
Proof.
  unfold main. unfold_program. rewrite Hgpu. unfold_program.
  rewrite Hanswer, Hnone. reflexivity.
Qed.

Lemma main_without_adapter_witness :
  nullish (VRef 1) = false /\
  nullish VNull = true /\
  exec (fun _ (w : Z) => (Returned VNull, w + 1))
    (main (VRef 1) {| MAP_READ := 1; COPY_DST := 8 |}
       {| RENDER_ATTACHMENT := 16; COPY_SRC := 1 |}) 0 =
  (Failed Heap.TypeError, [answered (requestAdapter (VRef 1)) VNull], 1).
Proof.
  assert (nullish (VRef 1) = false) as Hgpu by reflexivity.
  assert (nullish VNull = true) as Hnone by reflexivity.
  split; [exact Hgpu|]. split; [exact Hnone|].
  exact (main_without_adapter (fun _ (w : Z) => (Returned VNull, w + 1)) 0 1
           (VRef 1) {| MAP_READ := 1; COPY_DST := 8 |}
           {| RENDER_ATTACHMENT := 16; COPY_SRC := 1 |} VNull
           Hgpu eq_refl Hnone).
Defined.

(** X17: a run of the example program that completes makes seventeen
    calls, each with what earlier calls answered: the device is requested
    from the adapter found, every resource is created on that device, the
    pipeline uses the shader module and the layout created, the view is
    taken of the texture that createCapture got, the render pass is ended
    before the copy is encoded, the copy goes from that texture to the
    buffer that createCapture got, with bytesPerRow 1024 into a buffer
    created with 1024 * 200 bytes, and what finish answered is what is
    submitted to the queue of the device. *)
Theorem main_completed {World : Type}
  (binding : bindingCall -> World -> outcome value * World) (w : World)
  (gpu : value) (usage : BufferUsage) (tusage : TextureUsage)
  (Hdone : fst (fst (exec binding (main gpu usage tusage) w)) = Completed tt) :
  exists adapter device shaderModule pipelineLayout renderPipeline
         outputBuffer texture encoder view renderPass q commandBuffer
         bufferDescriptor textureDescriptor pipelineDescriptor
         r1 r2 r3 r4 r5,
    snd (fst (exec binding (main gpu usage tusage) w)) =
    [ answered (requestAdapter gpu) adapter;
      answered (requestDevice adapter) device;
      answered (createShaderModule device {| code := shaderCode |}) shaderModule;
      answered (createPipelineLayout device {| bindGroupLayouts := [] |})
        pipelineLayout;
      answered (createRenderPipeline device pipelineDescriptor) renderPipeline;
      answered (capture (createBuffer device bufferDescriptor)) outputBuffer;
      answered (capture (createTexture device textureDescriptor)) texture;
      answered (createCommandEncoder device) encoder;
      answered (createView texture) view;
      answered (beginRenderPass encoder {|
          colorAttachments :=
            [ {| view := view; storeOp := "store"; loadValue := [0; 1; 0; 1] |} ]
        |}) renderPass;
      answered (setPipeline renderPass renderPipeline) r1;
      answered (draw renderPass 3 1) r2;
      answered (end_ renderPass) r3;
      answered (capture (copyTextureToBuffer encoder
          {| texture := texture |}
          {| buffer := outputBuffer; bytesPerRow := 1024; rowsPerImage := 0 |}
          {| width := 200; height := 200 |})) r4;
      answered (queue device) q;
      answered (finish encoder) commandBuffer;
      answered (submit q [commandBuffer]) r5 ] /\
    layout pipelineDescriptor = pipelineLayout /\
    vertex_module (vertex pipelineDescriptor) = shaderModule /\
    fragment_module (fragment pipelineDescriptor) = shaderModule /\
    buf_size bufferDescriptor = 1024 * 200 /\
    tex_size textureDescriptor = {| width := 200; height := 200 |} /\
    nullish device = false /\ nullish encoder = false /\
    nullish texture = false /\ nullish renderPass = false /\
    nullish q = false.
Proof.
  revert Hdone. unfold main.
  run_program binding; cbn [fst snd]; intros Hdone; try discriminate Hdone.
  do 20 eexists. split; [reflexivity|]. cbn.
  repeat split; assumption.
Qed.

Lemma main_completed_witness :
  fst (fst (exec (fun _ (w : Z) => (Returned (VNum w), w + 1))
              (main (VRef 1) {| MAP_READ := 1; COPY_DST := 8 |}
                 {| RENDER_ATTACHMENT := 16; COPY_SRC := 1 |}) 0))
    = Completed tt /\
  length (snd (fst (exec (fun _ (w : Z) => (Returned (VNum w), w + 1))
                      (main (VRef 1) {| MAP_READ := 1; COPY_DST := 8 |}
                         {| RENDER_ATTACHMENT := 16; COPY_SRC := 1 |}) 0)))
    = 17%nat.
Proof.
  assert (fst (fst (exec (fun _ (w : Z) => (Returned (VNum w), w + 1))
              (main (VRef 1) {| MAP_READ := 1; COPY_DST := 8 |}
                 {| RENDER_ATTACHMENT := 16; COPY_SRC := 1 |}) 0))
          = Completed tt) as Hdone by (vm_compute; reflexivity).
  split; [exact Hdone|].
  destruct (main_completed _ _ _ _ _ Hdone)
    as (adapter & device & shaderModule & pipelineLayout & renderPipeline &
        outputBuffer & texture & encoder & view & renderPass & q &
        commandBuffer & bd & td & pd & r1 & r2 & r3 & r4 & r5 & Hevents & _).
  rewrite Hevents. reflexivity.
Defined.

(** X18: the example program submits last and at most once.  When a run
    asks submit at all, that is its seventeenth and final call, and each of
    the sixteen calls before it returned; so a failure of any earlier call,
    or a TypeError on a missing object, leaves nothing submitted. *)
Theorem main_submits_last {World : Type}
  (binding : bindingCall -> World -> outcome value * World) (w : World)
  (gpu : value) (usage : BufferUsage) (tusage : TextureUsage)
  (Hsubmit :
     existsb is_submit (snd (fst (exec binding (main gpu usage tusage) w)))
     = true) :
  exists prior q commandBuffers answer,
    snd (fst (exec binding (main gpu usage tusage) w)) =
      prior ++ [(submit q commandBuffers, answer)] /\
    length prior = 16%nat /\
    Forall (fun ev => is_submit ev = false /\ exists v, snd ev = Returned v)
      prior.
Proof.
  revert Hsubmit. unfold main.
  run_program binding; cbn [fst snd existsb is_submit orb]; intros Hsubmit;
    try discriminate Hsubmit;
    (eexists [_; _; _; _; _; _; _; _; _; _; _; _; _; _; _; _], _, _, _;
     split; [reflexivity|]; split; [reflexivity|];
     repeat (constructor; [split; [reflexivity | eexists; reflexivity]|]);
     constructor).
Qed.

Lemma main_submits_last_witness :
  existsb is_submit
    (snd (fst (exec (fun _ (w : Z) => (Returned (VNum w), w + 1))
                 (main (VRef 1) {| MAP_READ := 1; COPY_DST := 8 |}
                    {| RENDER_ATTACHMENT := 16; COPY_SRC := 1 |}) 0))) = true /\
  exists prior q commandBuffers answer,
    snd (fst (exec (fun _ (w : Z) => (Returned (VNum w), w + 1))
                (main (VRef 1) {| MAP_READ := 1; COPY_DST := 8 |}
                   {| RENDER_ATTACHMENT := 16; COPY_SRC := 1 |}) 0)) =
      prior ++ [(submit q commandBuffers, answer)] /\
    length prior = 16%nat.
Proof.
  assert (existsb is_submit
    (snd (fst (exec (fun _ (w : Z) => (Returned (VNum w), w + 1))
                 (main (VRef 1) {| MAP_READ := 1; COPY_DST := 8 |}
                    {| RENDER_ATTACHMENT := 16; COPY_SRC := 1 |}) 0))) = true)
    as Hsubmit by (vm_compute; reflexivity).
  split; [exact Hsubmit|].
  destruct (main_submits_last _ _ _ _ _ Hsubmit)
    as (prior & q & cbs & answer & Hevents & Hlen & _).
  exists prior, q, cbs, answer. split; assumption.
Defined.

End ScriptFacts.

(** ** createCapture on any arguments *)

Module CheckedFacts.
Import Js RowPadding Capture Script.
Local Open Scope Z_scope.

(** On a device, dimensions and usage objects that are objects the
    function is [Capture.createCapture], run as part of a program. *)
Lemma createCapture_on_objects usage tusage device dimensions :
  nullish device = false ->
  Checked.createCapture (Some usage) (Some tusage) device (Some dimensions) =
  lift (Capture.createCapture usage tusage device dimensions).
Proof.
  intros H. unfold Checked.createCapture, Checked.read, member.
  rewrite H. reflexivity.
Qed.



End CheckedFacts.
